(** * Geometry resolution engine of the MCNP -> OpenMC adapter

    A shallow embedding of [openmc_mcnp_adapter/openmc_conversion.py]:
    the surface builder, the surface canonicalizer, the region resolver
    and the lattice constructor, with the properties the specification
    states about them.

    Conventions of the embedding.
    - Python floats are exact rationals ([Q]); comparisons are the ones
      the code writes ([==], [<], [>=]).
    - Python [dict]s whose iteration order is irrelevant are [gmap]s;
      a [dict] that the code iterates while it updates it is an
      association list in insertion order.
    - A Python exception is a value of [exn]; code that can raise returns
      a [result]. *)

From Stdlib Require Import ZArith QArith Qabs Lqa Lia List Ascii String Bool.
From stdpp Require Import base option list gmap strings pretty sorting.
From Stdlib Require Reals RNsatz Lra.

Import ListNotations.
Local Open Scope Z_scope.
Set Warnings "-register-all".

(** ** Exceptions and results *)

Inductive exn : Type :=
| ValueError (msg : string)
| NotImplementedError (msg : string)
| KeyError
| IndexError
| TypeError
| AttributeError
| SyntaxError
| AssertionError
| ZeroDivisionError
| UnboundLocalError
| RecursionError.

Inductive result (A : Type) : Type :=
| Ok (a : A)
| Raise (e : exn).

Arguments Ok {A} a.
Arguments Raise {A} e.

Definition bind {A B : Type} (r : result A) (k : A -> result B) : result B :=
  match r with
  | Ok a => k a
  | Raise e => Raise e
  end.

Notation "'let!' x ':=' r 'in' k" := (bind r (fun x => k))
  (at level 10, x pattern, r at level 100, k at level 200).
Notation "'assert!' b 'in' k" := (if b then k else Raise AssertionError)
  (at level 10, b at level 100, k at level 200).

Definition is_ok {A : Type} (r : result A) : bool :=
  match r with Ok _ => true | Raise _ => false end.

(** ** Rational helpers: the float comparisons of the code *)

Definition Qltb (x y : Q) : bool := negb (Qle_bool y x).
Definition Qneb (x y : Q) : bool := negb (Qeq_bool x y).

(** ** Surface builder ([get_openmc_surfaces]) *)

Module SurfaceBuilder.

Inductive axis : Type := AxisX | AxisY | AxisZ.

(** The OpenMC surface classes the builder instantiates.  Arguments left
    out by the code take OpenMC's defaults (centre 0). *)
Inductive surface : Type :=
| Plane (a b c d : Q)
| AxisPlane (ax : axis) (x0 : Q)
| Sphere (x0 y0 z0 r : Q)
| Cylinder (ax : axis) (c1 c2 r : Q)
| Cone (ax : axis) (x0 y0 z0 r2 : Q)
| ConeOneSided (ax : axis) (x0 y0 z0 r2 : Q) (up : bool)
| Quadric (cs : list Q)
| Torus (ax : axis) (x0 y0 z0 a b c : Q)
| RCC (v : Q * Q * Q) (h r : Q) (ax : axis)
| RCCRotated (v h : Q * Q * Q) (r : Q)
| RPP (cs : list Q)
| Box (v a1 a2 a3 : list Q).

Record surface_record : Type := {
  s_id : Z;
  s_mnemonic : string;
  s_coefficients : list Q;
  s_reflective : bool;
  s_tr : option Z
}.

Definition vec3 : Type := (Q * Q * Q)%type.

Definition vsub (p q : vec3) : vec3 :=
  let '(px, py, pz) := p in let '(qx, qy, qz) := q in
  (px - qx, py - qy, pz - qz)%Q.

Definition cross (u v : vec3) : vec3 :=
  let '(ux, uy, uz) := u in let '(vx, vy, vz) := v in
  (uy * vz - uz * vy, uz * vx - ux * vz, ux * vy - uy * vx)%Q.

Definition dot (u v : vec3) : Q :=
  let '(ux, uy, uz) := u in let '(vx, vy, vz) := v in
  (ux * vx + uy * vy + uz * vz)%Q.

(** [np.allclose(n, 0.)] with numpy's default tolerances: every
    component is within [atol = 1e-8] of zero. *)
Definition atol : Q := 1 # 100000000.

Definition allclose0 (n : vec3) : bool :=
  let '(nx, ny, nz) := n in
  Qle_bool (Qabs nx) atol && Qle_bool (Qabs ny) atol && Qle_bool (Qabs nz) atol.

(** [openmc.Plane.from_points]: the normal is the cross product of
    [p2 - p1] and [p3 - p1]; points on a line are refused. *)
Definition from_points (p1 p2 p3 : vec3) : result (Q * Q * Q * Q) :=
  let n := cross (vsub p2 p1) (vsub p3 p1) in
  if allclose0 n then Raise (ValueError "All three points appear to be in a line.")
  else let '(a, b, c) := n in Ok (a, b, c, dot n p1).

Definition flip_sense (p : Q * Q * Q * Q) : Q * Q * Q * Q :=
  let '(a, b, c, d) := p in (- a, - b, - c, - d)%Q.

(** The [if surf.d != 0.0: ... elif surf.c != 0.0: ...] chain. *)
Definition enforce_sense (p : Q * Q * Q * Q) : result (Q * Q * Q * Q) :=
  let '(a, b, c, d) := p in
  if Qneb d 0 then Ok (if Qltb d 0 then flip_sense p else p)
  else if Qneb c 0 then Ok (if Qltb c 0 then flip_sense p else p)
  else if Qneb b 0 then Ok (if Qltb b 0 then flip_sense p else p)
  else if Qneb a 0 then Ok (if Qltb a 0 then flip_sense p else p)
  else Raise (ValueError "Plane appears to be a line?").

Definition mk_plane (p : Q * Q * Q * Q) : surface :=
  let '(a, b, c, d) := p in Plane a b c d.

(** The ['x'], ['y'], ['z'] branch: two (axial position, radius) pairs. *)
Definition build_xyz (ax : axis) (coeffs : list Q) : result surface :=
  match coeffs with
  | [x1; r1; x2; r2] =>
      if Qeq_bool x1 x2 then Ok (AxisPlane ax x1)
      else if Qeq_bool r1 r2 then
        Ok (Cylinder ax 0 0 r1)
      else
        let dr := (r2 - r1)%Q in
        let dx := (x2 - x1)%Q in
        let grad := (dx / dr)%Q in
        let offset := (x2 - grad * r2)%Q in
        let angle := ((- (1) / grad) ^ 2)%Q in
        let up := Qle_bool 0 grad in
        Ok (match ax with
            | AxisX => ConeOneSided AxisX offset 0 0 angle up
            | AxisY => ConeOneSided AxisY 0 offset 0 angle up
            | AxisZ => ConeOneSided AxisZ 0 0 offset angle up
            end)
  | _ => Raise (NotImplementedError "surface with unsupported number of parameters")
  end.

Definition unpack_error {A : Type} : result A :=
  Raise (ValueError "not enough / too many values to unpack").

Definition Qeq1 (x : Q) : bool := Qeq_bool x 1.

(** One iteration of the loop over surface records, up to the point
    where [surf] is bound (before the boundary type and the [tr]
    transformation are applied). *)
Definition build_surface (s : surface_record) : result surface :=
  let coeffs := s_coefficients s in
  let m := s_mnemonic s in
  if String.eqb m "p" then
    if (length coeffs =? 9)%nat then
      match coeffs with
      | [x1; y1; z1; x2; y2; z2; x3; y3; z3] =>
          let! p := from_points (x1, y1, z1) (x2, y2, z2) (x3, y3, z3) in
          let! p' := enforce_sense p in
          Ok (mk_plane p')
      | _ => unpack_error
      end
    else
      match coeffs with
      | [a; b; c; d] => Ok (Plane a b c d)
      | _ => unpack_error
      end
  else if String.eqb m "px" then
    match coeffs with c0 :: _ => Ok (Plane 1 0 0 c0) | _ => Raise IndexError end
  else if String.eqb m "py" then
    match coeffs with c0 :: _ => Ok (Plane 0 1 0 c0) | _ => Raise IndexError end
  else if String.eqb m "pz" then
    match coeffs with c0 :: _ => Ok (Plane 0 0 1 c0) | _ => Raise IndexError end
  else if String.eqb m "so" then
    match coeffs with c0 :: _ => Ok (Sphere 0 0 0 c0) | _ => Raise IndexError end
  else if String.eqb m "s" then
    match coeffs with [x0; y0; z0; r] => Ok (Sphere x0 y0 z0 r) | _ => unpack_error end
  else if String.eqb m "sx" then
    match coeffs with [x0; r] => Ok (Sphere x0 0 0 r) | _ => unpack_error end
  else if String.eqb m "sy" then
    match coeffs with [y0; r] => Ok (Sphere 0 y0 0 r) | _ => unpack_error end
  else if String.eqb m "sz" then
    match coeffs with [z0; r] => Ok (Sphere 0 0 z0 r) | _ => unpack_error end
  else if String.eqb m "c/x" then
    match coeffs with [y0; z0; r] => Ok (Cylinder AxisX y0 z0 r) | _ => unpack_error end
  else if String.eqb m "c/y" then
    match coeffs with [x0; z0; r] => Ok (Cylinder AxisY x0 z0 r) | _ => unpack_error end
  else if String.eqb m "c/z" then
    match coeffs with [x0; y0; r] => Ok (Cylinder AxisZ x0 y0 r) | _ => unpack_error end
  else if String.eqb m "cx" then
    match coeffs with c0 :: _ => Ok (Cylinder AxisX 0 0 c0) | _ => Raise IndexError end
  else if String.eqb m "cy" then
    match coeffs with c0 :: _ => Ok (Cylinder AxisY 0 0 c0) | _ => Raise IndexError end
  else if String.eqb m "cz" then
    match coeffs with c0 :: _ => Ok (Cylinder AxisZ 0 0 c0) | _ => Raise IndexError end
  else if String.eqb m "k/x" || String.eqb m "k/y" || String.eqb m "k/z" then
    let ax := if String.eqb m "k/x" then AxisX
              else if String.eqb m "k/y" then AxisY else AxisZ in
    match coeffs with
    | [x0; y0; z0; r2] => Ok (Cone ax x0 y0 z0 r2)
    | x0 :: y0 :: z0 :: r2 :: c4 :: _ => Ok (ConeOneSided ax x0 y0 z0 r2 (Qeq1 c4))
    | _ => unpack_error
    end
  else if String.eqb m "kx" || String.eqb m "ky" || String.eqb m "kz" then
    match coeffs with
    | [x; r2] =>
        Ok (if String.eqb m "kx" then Cone AxisX x 0 0 r2
            else if String.eqb m "ky" then Cone AxisY 0 x 0 r2
            else Cone AxisZ 0 0 x r2)
    | x :: r2 :: c2 :: _ =>
        Ok (if String.eqb m "kx" then ConeOneSided AxisX x 0 0 r2 (Qeq1 c2)
            else if String.eqb m "ky" then ConeOneSided AxisY 0 x 0 r2 (Qeq1 c2)
            else ConeOneSided AxisZ 0 0 x r2 (Qeq1 c2))
    | _ => unpack_error
    end
  else if String.eqb m "gq" then
    if (length coeffs =? 10)%nat then Ok (Quadric coeffs) else unpack_error
  else if String.eqb m "tx" then
    match coeffs with
    | [x0; y0; z0; a; b; c] => Ok (Torus AxisX x0 y0 z0 a b c) | _ => unpack_error end
  else if String.eqb m "ty" then
    match coeffs with
    | [x0; y0; z0; a; b; c] => Ok (Torus AxisY x0 y0 z0 a b c) | _ => unpack_error end
  else if String.eqb m "tz" then
    match coeffs with
    | [x0; y0; z0; a; b; c] => Ok (Torus AxisZ x0 y0 z0 a b c) | _ => unpack_error end
  else if String.eqb m "x" then build_xyz AxisX coeffs
  else if String.eqb m "y" then build_xyz AxisY coeffs
  else if String.eqb m "z" then build_xyz AxisZ coeffs
  else if String.eqb m "rcc" then
    match coeffs with
    | [vx; vy; vz; hx; hy; hz; r] =>
        if Qeq_bool hx 0 && Qeq_bool hy 0 then Ok (RCC (vx, vy, vz) hz r AxisZ)
        else if Qeq_bool hy 0 && Qeq_bool hz 0 then Ok (RCC (vx, vy, vz) hx r AxisX)
        else if Qeq_bool hx 0 && Qeq_bool hz 0 then Ok (RCC (vx, vy, vz) hy r AxisY)
        else Ok (RCCRotated (vx, vy, vz) (hx, hy, hz) r)
    | _ => unpack_error
    end
  else if String.eqb m "rpp" then Ok (RPP coeffs)
  else if String.eqb m "box" then
    if (length coeffs =? 9)%nat then
      Raise (NotImplementedError "BOX macrobody with one infinite dimension not supported")
    else if negb (length coeffs =? 12)%nat then
      Raise (NotImplementedError "BOX macrobody should have 12 coefficients")
    else Ok (Box (take 3 coeffs) (take 3 (drop 3 coeffs))
                 (take 3 (drop 6 coeffs)) (drop 9 coeffs))
  else Raise (NotImplementedError "Surface type not supported").

(** The sign convention of a general plane: the first non-zero
    coefficient, looked for in the order d, c, b, a, is positive. *)
Definition first_nonzero_positive (p : Q * Q * Q * Q) : Prop :=
  let '(a, b, c, d) := p in
  (0 < d \/ (d == 0 /\ 0 < c) \/ (d == 0 /\ c == 0 /\ 0 < b) \/
   (d == 0 /\ c == 0 /\ b == 0 /\ 0 < a))%Q.

Definition vec_eq (u v : vec3) : Prop :=
  let '(a, b, c) := u in let '(a', b', c') := v in
  (a == a' /\ b == b' /\ c == c')%Q.

(** The coefficient list of a plane given by three points. *)
Definition point_coefficients (p1 p2 p3 : vec3) : list Q :=
  let '(x1, y1, z1) := p1 in
  let '(x2, y2, z2) := p2 in
  let '(x3, y3, z3) := p3 in
  [x1; y1; z1; x2; y2; z2; x3; y3; z3].

(** The coordinate of a one-sided cone along its own axis. *)
Definition axial_offset (s : surface) : option Q :=
  match s with
  | ConeOneSided AxisX x0 _ _ _ _ => Some x0
  | ConeOneSided AxisY _ y0 _ _ _ => Some y0
  | ConeOneSided AxisZ _ _ z0 _ _ => Some z0
  | _ => None
  end.

Definition axis_of_mnemonic (m : string) : option axis :=
  if String.eqb m "x" then Some AxisX
  else if String.eqb m "y" then Some AxisY
  else if String.eqb m "z" then Some AxisZ
  else None.




End SurfaceBuilder.

(** ** Python built-ins on strings and integers *)

Module Py.

Definition is_digit (c : ascii) : bool :=
  match Ascii.is_nat c with Some _ => true | None => false end.

Definition digit_val (c : ascii) : Z :=
  match Ascii.is_nat c with Some n => Z.of_nat n | None => 0 end.

Fixpoint lstrip (s : string) : string :=
  match s with
  | String c s' => if Ascii.is_space c then lstrip s' else s
  | EmptyString => EmptyString
  end.

(** [s.strip()] *)
Definition strip (s : string) : string :=
  String.rev (lstrip (String.rev (lstrip s))).

Fixpoint all_digits (s : string) : bool :=
  match s with
  | String c s' => is_digit c && all_digits s'
  | EmptyString => true
  end.

Fixpoint digits_value (acc : Z) (s : string) : Z :=
  match s with
  | String c s' => digits_value (10 * acc + digit_val c) s'
  | EmptyString => acc
  end.

Definition nat_literal (s : string) : result Z :=
  match s with
  | EmptyString => Raise (ValueError "invalid literal for int()")
  | _ => if all_digits s then Ok (digits_value 0 s)
         else Raise (ValueError "invalid literal for int()")
  end.

(** [int(s)] for a string: surrounding whitespace, one optional sign,
    decimal digits. *)
Definition int (s : string) : result Z :=
  match strip s with
  | String "-" d => let! n := nat_literal d in Ok (- n)
  | String "+" d => nat_literal d
  | d => nat_literal d
  end.

(** [str(n)] for an integer. *)
Definition str (n : Z) : string := pretty n.

(** [s.replace(a, b)] for one-character [a] and [b]. *)
Fixpoint replace_char (a b : ascii) (s : string) : string :=
  match s with
  | String c s' => String (if Ascii.eqb c a then b else c) (replace_char a b s')
  | EmptyString => EmptyString
  end.

(** [s.split()] *)
Definition split (s : string) : list string := String.words s.

(** The longest prefix of decimal digits and the rest of the text. *)
Fixpoint span_digits (s : string) : string * string :=
  match s with
  | String c s' =>
      if is_digit c then let '(d, r) := span_digits s' in (String c d, r)
      else (EmptyString, s)
  | EmptyString => (EmptyString, EmptyString)
  end.

(** A float keeps its sign apart from its magnitude, so that [-0.0]
    differs from [0.0] as it does when it is formatted. *)
Record pyfloat : Type := { f_negative : bool; f_magnitude : Q }.

Definition pow10 (e : Z) : Q := (10 # 1) ^ e.

(** [float(s)] for a decimal literal: blanks, sign, digits with an
    optional fraction, optional exponent. *)
Definition float (s : string) : result pyfloat :=
  let bad := Raise (ValueError "could not convert string to float") in
  let s0 := strip s in
  let '(neg, s1) :=
    match s0 with
    | String "-" r => (true, r)
    | String "+" r => (false, r)
    | _ => (false, s0)
    end in
  let '(ip, s2) := span_digits s1 in
  let '(fp, s3) :=
    match s2 with
    | String "." r => span_digits r
    | _ => (EmptyString, s2)
    end in
  match (ip +:+ fp)%string with
  | EmptyString => bad
  | ds =>
      let m := (inject_Z (digits_value 0 ds) * pow10 (- Z.of_nat (String.length fp)))%Q in
      match s3 with
      | EmptyString => Ok {| f_negative := neg; f_magnitude := m |}
      | String c r =>
          if Ascii.eqb c "e" || Ascii.eqb c "E" then
            let '(eneg, r1) :=
              match r with
              | String "-" r' => (true, r')
              | String "+" r' => (false, r')
              | _ => (false, r)
              end in
            match nat_literal r1 with
            | Ok e => Ok {| f_negative := neg;
                            f_magnitude := (m * pow10 (if eneg then - e else e))%Q |}
            | Raise _ => bad
            end
          else bad
      end
  end.

(** [f"{x:.5f}" == f"{0:.5f}"]: the float prints as [0.00000], which it
    does when it carries no minus sign and rounds to zero at five
    decimals. *)
Definition prints_as_zero (x : pyfloat) : bool :=
  negb (f_negative x) && negb (Qle_bool (5 # 1000000) (f_magnitude x)).

(** [s.replace(old, new)] for a non-empty [old]; [skip] counts the
    characters of a match that are still to be dropped. *)
Fixpoint replace_go (old new : string) (skip : nat) (s : string) : string :=
  match s with
  | EmptyString => EmptyString
  | String c rest =>
      match skip with
      | S k => replace_go old new k rest
      | O =>
          if String.prefix old s
          then new +:+ replace_go old new (String.length old - 1) rest
          else String c (replace_go old new O rest)
      end
  end.

Definition replace (old new s : string) : string := replace_go old new O s.

(** [sep.join(l)] *)
Fixpoint join (sep : string) (l : list string) : string :=
  match l with
  | [] => ""
  | [x] => x
  | x :: xs => x +:+ sep +:+ join sep xs
  end.

(** The float division [v / abs(v)] followed by a product with an
    integer and [int(...)]: the sign of [v] times the integer, and
    [ZeroDivisionError] for [v = 0]. *)
Definition sign_times (v x : Z) : result Z :=
  if v =? 0 then Raise ZeroDivisionError else Ok (Z.sgn v * x).

End Py.

(** ** Surface canonicalizer: the closure loop of [compare_surfaces] *)

Module Canonicalizer.

(** A [dict] in insertion order.  Keys are surface ids ([str(k)] is
    injective on integers, so the key strings are kept as integers). *)
Definition dict : Type := list (Z * Z).

Fixpoint dict_get (d : dict) (k : Z) : option Z :=
  match d with
  | [] => None
  | (k', v) :: d' => if k' =? k then Some v else dict_get d' k
  end.

(** [d[k] = v]: an existing key keeps its position. *)
Fixpoint dict_set (d : dict) (k v : Z) : dict :=
  match d with
  | [] => [(k, v)]
  | (k', v') :: d' => if k' =? k then (k', v) :: d' else (k', v') :: dict_set d' k v
  end.

Definition in_values (x : Z) (d : dict) : bool :=
  existsb (fun kv => snd kv =? x) d.

(** The inner loop [for k2, v2 in identical_surfaces.items()]: every
    entry whose value is [k] up to sign is redirected to [v]. *)
Fixpoint redirect (k v : Z) (d : dict) : result dict :=
  match d with
  | [] => Ok []
  | (k2, v2) :: d' =>
      let! e := (if Z.abs v2 =? Z.abs k
                 then let! w := Py.sign_times v2 v in Ok (k2, w)
                 else Ok (k2, v2)) in
      let! r := redirect k v d' in
      Ok (e :: r)
  end.

(** One iteration of [for k, v in identical_surfaces_temporary.items()]. *)
Definition closure_step (d : dict) (kv : Z * Z) : result dict :=
  let '(k, v) := kv in
  let! w := Py.sign_times v (default (Z.abs v) (dict_get d (Z.abs v))) in
  let d1 := dict_set d k w in
  if in_values k d1 || in_values (-1 * k) d1 then redirect k v d1 else Ok d1.

Fixpoint closure_loop (d : dict) (temp : list (Z * Z)) : result dict :=
  match temp with
  | [] => Ok d
  | kv :: temp' => let! d' := closure_step d kv in closure_loop d' temp'
  end.

(** The part of [compare_surfaces] after the comparator has returned
    [identical_surfaces_temporary]. *)
Definition close_map (identical_surfaces_temporary : list (Z * Z)) : result dict :=
  closure_loop [] identical_surfaces_temporary.

(** The invariant of the equivalence map.  Chaining: when [a] is sent
    to [b] and the surface of [b] is sent to [c], then [a] is sent to
    [c] with the signs composed. *)
Definition transitively_closed (d : dict) : Prop :=
  forall a b c,
    dict_get d a = Some b -> dict_get d (Z.abs b) = Some c ->
    dict_get d a = Some (Z.sgn b * c).

(** Every target is canonical: its surface is not redirected to another
    surface. *)
Definition targets_canonical (d : dict) : Prop :=
  forall a b,
    dict_get d a = Some b ->
    dict_get d (Z.abs b) = None \/ dict_get d (Z.abs b) = Some (Z.abs b).

(** A comparator result in which surface 1 equals 2, surface 3 equals 4
    and surface 2 equals 3, reported in this order. *)
Definition merging_chains : list (Z * Z) := [(1, 2); (3, 4); (2, 3)].

End Canonicalizer.

(** ** Regions and their text form ([openmc.Region]) *)

Module Regions.

Inductive region : Type :=
| Halfspace (surface_id : Z) (positive : bool)
| Intersection (nodes : list region)
| Union (nodes : list region)
| Complement (node : region).

(** [~r]: a half-space answers with the opposite half-space, every
    other region is wrapped in a [Complement] node. *)
Definition invert (r : region) : region :=
  match r with
  | Halfspace s p => Halfspace s (negb p)
  | _ => Complement r
  end.

(** [str(r)] *)
Fixpoint region_str (r : region) : string :=
  match r with
  | Halfspace s true => Py.str s
  | Halfspace s false => "-" +:+ Py.str s
  | Intersection l => "(" +:+ Py.join " " (map region_str l) +:+ ")"
  | Union l => "(" +:+ Py.join " | " (map region_str l) +:+ ")"
  | Complement n => "~" +:+ region_str n
  end.

Inductive boundary : Type := transmission | reflective | vacuum.

(** An entry of the shared surface table.  For a composite surface
    (macrobody) the entry records the regions that [-surf] and [+surf]
    evaluate to. *)
Inductive surface_entry : Type :=
| Primitive (kind : SurfaceBuilder.surface) (boundary_type : boundary)
| Composite (neg pos : region).

Abbreviation surface_table := (gmap Z surface_entry).

(** [-surfaces[abs(j)]] for [j < 0], [+surfaces[abs(j)]] otherwise. *)
Definition halfspace_of (surfaces : surface_table) (j : Z) : result region :=
  match surfaces !! Z.abs j with
  | None => Raise KeyError
  | Some (Primitive _ _) => Ok (Halfspace (Z.abs j) (negb (j <? 0)))
  | Some (Composite n p) => Ok (if j <? 0 then n else p)
  end.

(** *** [Region.from_expression]: tokens *)

Inductive token : Type :=
| TLParen | TRParen | TUnion | TCompl | TInter
| TRegion (r : region).

Definition is_paren_or_op (c : ascii) : bool :=
  (Ascii.eqb c "(" || Ascii.eqb c ")" || Ascii.eqb c "|" || Ascii.eqb c "~")%char.

Definition is_special (c : ascii) : bool := is_paren_or_op c || Ascii.eqb c " ".

Definition is_word_char (c : ascii) : bool :=
  Ascii.eqb c "-" || Ascii.eqb c "+" || Py.is_digit c.

Definition token_of_char (c : ascii) : token :=
  if Ascii.eqb c "(" then TLParen
  else if Ascii.eqb c ")" then TRParen
  else if Ascii.eqb c "|" then TUnion
  else TCompl.

Definition is_rparen (t : token) : bool :=
  match t with TRParen => true | _ => false end.

(** The first character after a run of blanks: [expression[i+1]] once
    the loop [while expression[i+1] == ' '] has finished. *)
Fixpoint next_nonblank (s : string) : option ascii :=
  match s with
  | String c s' => if Ascii.eqb c " " then next_nonblank s' else Some c
  | EmptyString => None
  end.

Definition starts_with_lparen (s : string) : bool :=
  match s with String c _ => Ascii.eqb c "(" | EmptyString => false end.

Definition has_word (word : option string) : bool :=
  match word with Some _ => true | None => false end.

(** A pending word [expression[i_start:i]] becomes a half-space token. *)
Definition flush (surfaces : surface_table) (word : option string)
    (tokens : list token) : result (list token) :=
  match word with
  | None => Ok tokens
  | Some w =>
      let! j := Py.int w in
      let! h := halfspace_of surfaces j in
      Ok (tokens ++ [TRegion h])
  end.

(** The scanning loop.  [word] is the text since [i_start] (or [None]
    for [i_start = -1]).  A blank looks ahead to the first non-blank
    character; the blanks of the same run that follow it then change
    nothing, which is why they can be visited one by one. *)
Fixpoint tokenize (surfaces : surface_table) (s : string) (word : option string)
    (tokens : list token) : result (list token) :=
  match s with
  | EmptyString => flush surfaces word tokens
  | String c rest =>
      if is_special c then
        let! tokens1 := flush surfaces word tokens in
        let tokens2 :=
          if has_word word && Ascii.eqb c "(" then tokens1 ++ [TInter] else tokens1 in
        let! tokens3 :=
          (if is_paren_or_op c then
             let t := tokens2 ++ [token_of_char c] in
             Ok (if Ascii.eqb c ")" && starts_with_lparen rest then t ++ [TInter] else t)
           else
             match next_nonblank rest with
             | None => Raise IndexError
             | Some c' =>
                 let! prev :=
                   (match word with
                    | Some _ => Ok true
                    | None => match last tokens2 with
                              | Some t => Ok (is_rparen t)
                              | None => Raise IndexError
                              end
                    end) in
                 Ok (if prev && negb (Ascii.eqb c' ")" || Ascii.eqb c' "|")
                     then tokens2 ++ [TInter] else tokens2)
             end) in
        tokenize surfaces rest None tokens3
      else if is_word_char c then
        tokenize surfaces rest
          (Some (match word with Some w => w +:+ String c "" | None => String c "" end))
          tokens
      else Raise SyntaxError
  end.

(** *** [Region.from_expression]: the shunting-yard loop

    Stacks have their top at the head of the list. *)

Definition can_be_combined (r : region) : bool :=
  match r with
  | Complement _ | Halfspace _ _ => true
  | _ => false
  end.

Definition apply_operator (output : list region) (op : token) : result (list region) :=
  match output with
  | [] => Raise IndexError
  | r2 :: out1 =>
      match op with
      | TCompl => Ok (invert r2 :: out1)
      | TInter =>
          match out1 with
          | [] => Raise IndexError
          | r1 :: out2 =>
              Ok (match r1, r2 with
                  | Intersection l1, Intersection l2 => Intersection (l1 ++ l2)
                  | Intersection l1, _ => Intersection (l1 ++ [r2])
                  | _, Intersection l2 =>
                      if can_be_combined r1 then Intersection (r1 :: l2)
                      else Intersection [r1; r2]
                  | _, _ => Intersection [r1; r2]
                  end :: out2)
          end
      | TUnion =>
          match out1 with
          | [] => Raise IndexError
          | r1 :: out2 =>
              Ok (match r1, r2 with
                  | Union l1, Union l2 => Union (l1 ++ l2)
                  | Union l1, _ => Union (l1 ++ [r2])
                  | _, Union l2 =>
                      if can_be_combined r1 then Union (r1 :: l2)
                      else Union [r1; r2]
                  | _, _ => Union [r1; r2]
                  end :: out2)
          end
      | _ => Ok output
      end
  end.

Definition precedence (t : token) : nat :=
  match t with TUnion => 1 | TInter => 2 | TCompl => 3 | _ => 0 end.

Definition right_assoc (t : token) : bool :=
  match t with TCompl => true | _ => false end.

Definition is_operator (t : token) : bool :=
  match t with TUnion | TInter | TCompl => true | _ => false end.

(** [while stack: ...] for an incoming operator [tok]. *)
Fixpoint reduce_ops (tok : token) (stack : list token) (output : list region)
    : result (list token * list region) :=
  match stack with
  | [] => Ok ([], output)
  | op :: stack' =>
      if is_operator op &&
         (if right_assoc tok then (precedence tok <? precedence op)%nat
          else (precedence tok <=? precedence op)%nat)
      then let! output' := apply_operator output op in reduce_ops tok stack' output'
      else Ok (stack, output)
  end.

(** [while stack[-1] != '(': ...] for a right parenthesis. *)
Fixpoint close_paren (first : bool) (stack : list token) (output : list region)
    : result (list token * list region) :=
  match stack with
  | [] => Raise (if first then IndexError else SyntaxError)
  | TLParen :: stack' => Ok (stack', output)
  | op :: stack' =>
      let! output' := apply_operator output op in close_paren false stack' output'
  end.

Fixpoint shunt (tokens : list token) (stack : list token) (output : list region)
    : result (list token * list region) :=
  match tokens with
  | [] => Ok (stack, output)
  | tok :: tokens' =>
      let! so :=
        (match tok with
         | TUnion | TInter | TCompl =>
             let! so := reduce_ops tok stack output in
             Ok (tok :: fst so, snd so)
         | TLParen => Ok (TLParen :: stack, output)
         | TRParen => close_paren true stack output
         | TRegion r => Ok (stack, r :: output)
         end) in
      shunt tokens' (fst so) (snd so)
  end.

Fixpoint drain (stack : list token) (output : list region) : result (list region) :=
  match stack with
  | [] => Ok output
  | TLParen :: _ | TRParen :: _ => Raise SyntaxError
  | op :: stack' => let! output' := apply_operator output op in drain stack' output'
  end.

Definition from_expression (expression : string) (surfaces : surface_table)
    : result region :=
  let! tokens := tokenize surfaces (Py.strip expression) None [] in
  let! so := shunt tokens [] [] in
  let! output := drain (fst so) (snd so) in
  match last output with
  | Some r => Ok r
  | None => Raise IndexError
  end.

(** *** Cell-complement references in the region text *)

Fixpoint skip_blanks (s : string) : string :=
  match s with
  | String c s' => if Ascii.eqb c " " then skip_blanks s' else s
  | EmptyString => EmptyString
  end.

(** Modelled from the spec: the pattern [_COMPLEMENT_RE] of the parser
    module, which is not part of the source under study.  A cell
    complement is the text "not cell N": a [#], optional blanks, and the
    decimal number of the cell.  The function matches what follows a
    [#] and returns the digits and the text after the match. *)
Definition match_complement (after_hash : string) : option (string * string) :=
  let '(d, r) := Py.span_digits (skip_blanks after_hash) in
  match d with
  | EmptyString => None
  | _ => Some (d, r)
  end.

(** [_COMPLEMENT_RE.findall(region)], reduced to [int(other_id)]. *)
Fixpoint complement_findall (s : string) : list Z :=
  match s with
  | String c rest =>
      if Ascii.eqb c "#" then
        match match_complement rest with
        | Some (d, _) => Py.digits_value 0 d :: complement_findall rest
        | None => complement_findall rest
        end
      else complement_findall rest
  | EmptyString => []
  end.

(** [_COMPLEMENT_RE.search(region)] as a truth value. *)
Definition complement_search (s : string) : bool :=
  match complement_findall s with [] => false | _ => true end.

(** [_COMPLEMENT_RE.sub(repl, region, count=1)] *)
Fixpoint complement_sub1 (repl : string) (s : string) : string :=
  match s with
  | String c rest =>
      if Ascii.eqb c "#" then
        match match_complement rest with
        | Some (_, r) => repl +:+ r
        | None => String c (complement_sub1 repl rest)
        end
      else String c (complement_sub1 repl rest)
  | EmptyString => EmptyString
  end.

End Regions.

(** ** Region resolver: the first half of [get_openmc_universes] *)

Module Resolver.
Import Regions.

(** A cell record of the parser.  Cell numbers are unique in an MCNP
    input, so the resolved region [c['_region']] is kept in a map from
    cell id to region and list membership of a cell is decided by its
    id. *)
Record cell : Type := {
  c_id : Z;
  c_material : Z;
  c_density : string;
  c_region : string;
  c_parameters : gmap string string
}.

Definition set_parameters (c : cell) (p : gmap string string) : cell :=
  {| c_id := c_id c; c_material := c_material c; c_density := c_density c;
     c_region := c_region c; c_parameters := p |}.

Definition has_key (k : string) (m : gmap string string) : bool :=
  match m !! k with Some _ => true | None => false end.

Definition cell_in (c : cell) (l : list cell) : bool :=
  existsb (fun c' => c_id c' =? c_id c) l.

(** [cell_by_id = {c['id']: c for c in cells}] *)
Definition index_cells (cells : list cell) : gmap Z cell :=
  foldl (fun m c => <[c_id c := c]> m) ∅ cells.

(** [region.replace('#', '~').replace(':', '|')] *)
Definition rewrite_operators (text : string) : string :=
  Py.replace_char ":" "|" (Py.replace_char "#" "~" text).

(** The [try: ... except Exception: raise ValueError(...)] around the
    parser. *)
Definition parse_region (text : string) (surfaces : surface_table) : result region :=
  match from_expression text surfaces with
  | Ok r => Ok r
  | Raise _ => Raise (ValueError "Could not parse region for cell")
  end.

Definition starts_with_paren (s : string) : bool :=
  match s with String c _ => Ascii.eqb c "(" | EmptyString => false end.

Record resolver_state : Type := {
  st_cells : list cell;
  st_regions : gmap Z region;
  st_surfaces : surface_table;
  st_has_cell_complement : list cell
}.

Section WithTransform.

(** The translation and rotation of a region by a [trcl] parameter
    (OpenMC's [Region.translate] and [Region.rotate], then the loop that
    registers the new surfaces): it takes the text between the
    parentheses, the degrees flag, the region and the surface table and
    returns the moved region and the extended table. *)
Variable transform_region :
  string -> bool -> region -> surface_table -> result (region * surface_table).

(** One iteration of the first loop over [cells]. *)
Definition first_pass_cell (st : resolver_state) (c : cell) : result resolver_state :=
  if complement_search (c_region c) then
    Ok {| st_cells := st_cells st ++ [c];
          st_regions := st_regions st;
          st_surfaces := st_surfaces st;
          st_has_cell_complement := st_has_cell_complement st ++ [c] |}
  else
    let! r := parse_region (rewrite_operators (c_region c)) (st_surfaces st) in
    let params := c_parameters c in
    if has_key "trcl" params || has_key "*trcl" params then
      let use_degrees := negb (has_key "trcl" params) in
      let trcl := Py.strip (default "" (params !! (if use_degrees then "*trcl" else "trcl"))) in
      let params' :=
        match params !! "fill" with
        | Some fill =>
            if use_degrees
            then <["*fill" := fill +:+ " " +:+ trcl]> (delete "fill" params)
            else <["fill" := fill +:+ " " +:+ trcl]> params
        | None => params
        end in
      if negb (starts_with_paren trcl) then
        Raise (NotImplementedError "TRn card not supported")
      else
        let! rs := transform_region trcl use_degrees r (st_surfaces st) in
        Ok {| st_cells := st_cells st ++ [set_parameters c params'];
              st_regions := <[c_id c := fst rs]> (st_regions st);
              st_surfaces := snd rs;
              st_has_cell_complement := st_has_cell_complement st |}
    else
      Ok {| st_cells := st_cells st ++ [c];
            st_regions := <[c_id c := r]> (st_regions st);
            st_surfaces := st_surfaces st;
            st_has_cell_complement := st_has_cell_complement st |}.

Fixpoint first_pass (st : resolver_state) (cells : list cell) : result resolver_state :=
  match cells with
  | [] => Ok st
  | c :: cells' => let! st' := first_pass_cell st c in first_pass st' cells'
  end.

(** [add_to_ordered]: the depth-first ordering of the cells with a cell
    complement.  [fuel] is the depth the interpreter still allows; a
    recursion that exhausts it raises [RecursionError]. *)
Fixpoint add_to_ordered (fuel : nat) (cell_by_id : gmap Z cell)
    (has_cell_complement : list cell) (ordered : list cell) (c : cell)
    : result (list cell) :=
  match fuel with
  | O => Raise RecursionError
  | S fuel' =>
      let! ordered1 :=
        (fix visit (matches : list Z) (ordered : list cell) : result (list cell) :=
           match matches with
           | [] => Ok ordered
           | other_id :: matches' =>
               match cell_by_id !! other_id with
               | None => Raise KeyError
               | Some other_cell =>
                   let! ordered' :=
                     (if cell_in other_cell has_cell_complement
                      then add_to_ordered fuel' cell_by_id has_cell_complement ordered other_cell
                      else Ok ordered) in
                   visit matches' ordered'
               end
           end) (complement_findall (c_region c)) ordered in
      Ok (if cell_in c ordered1 then ordered1 else ordered1 ++ [c])
  end.

(** [for c in has_cell_complement: add_to_ordered(c)] *)
Fixpoint order_cells (fuel : nat) (cell_by_id : gmap Z cell)
    (has_cell_complement : list cell) (todo : list cell) (ordered : list cell)
    : result (list cell) :=
  match todo with
  | [] => Ok ordered
  | c :: todo' =>
      let! ordered' := add_to_ordered fuel cell_by_id has_cell_complement ordered c in
      order_cells fuel cell_by_id has_cell_complement todo' ordered'
  end.

(** The loop [for _, other_id in matches] of the second pass: each
    reference is replaced by the text of the inverted resolved region of
    the referenced cell. *)
Fixpoint substitute_complements (cell_by_id : gmap Z cell) (regions : gmap Z region)
    (matches : list Z) (text : string) : result string :=
  match matches with
  | [] => Ok text
  | other_id :: matches' =>
      match cell_by_id !! other_id with
      | None => Raise KeyError
      | Some other_cell =>
          match regions !! c_id other_cell with
          | None => Raise (NotImplementedError "Cannot handle nested cell-complements")
          | Some other_region =>
              substitute_complements cell_by_id regions matches'
                (complement_sub1 (region_str (invert other_region)) text)
          end
      end
  end.

(** One iteration of [for c in has_cell_complement_ordered]. *)
Definition second_pass_cell (cell_by_id : gmap Z cell) (surfaces : surface_table)
    (regions : gmap Z region) (c : cell) : result (gmap Z region) :=
  let matches := complement_findall (c_region c) in
  assert! negb (bool_decide (matches = [])) in
  let! text := substitute_complements cell_by_id regions matches (c_region c) in
  let! r := parse_region (rewrite_operators text) surfaces in
  assert! negb (has_key "trcl" (c_parameters c)) in
  Ok (<[c_id c := r]> regions).

Fixpoint second_pass (cell_by_id : gmap Z cell) (surfaces : surface_table)
    (regions : gmap Z region) (ordered : list cell) : result (gmap Z region) :=
  match ordered with
  | [] => Ok regions
  | c :: ordered' =>
      let! regions' := second_pass_cell cell_by_id surfaces regions c in
      second_pass cell_by_id surfaces regions' ordered'
  end.

(** [get_openmc_universes] up to the point where every cell carries
    its resolved region. *)
Definition resolve_regions (fuel : nat) (cells : list cell) (surfaces : surface_table)
    : result resolver_state :=
  let cell_by_id := index_cells cells in
  let! st := first_pass {| st_cells := []; st_regions := ∅; st_surfaces := surfaces;
                           st_has_cell_complement := [] |} cells in
  let! ordered := order_cells fuel cell_by_id (st_has_cell_complement st)
                    (st_has_cell_complement st) [] in
  let! regions := second_pass cell_by_id (st_surfaces st) (st_regions st) ordered in
  Ok {| st_cells := st_cells st; st_regions := regions;
        st_surfaces := st_surfaces st;
        st_has_cell_complement := st_has_cell_complement st |}.

End WithTransform.

(** What the first pass has established once it has gone over the
    cells [done]: the cells with a cell complement are set aside in
    their order, and a region is stored only for cells without one. *)
Definition first_pass_inv (done : list cell) (st : resolver_state) : Prop :=
  st_has_cell_complement st
    = List.filter (fun c => complement_search (c_region c)) done /\
  forall k r, st_regions st !! k = Some r ->
     exists c, In c done /\ c_id c = k /\ complement_search (c_region c) = false.

(** What the ordering maintains about [has_cell_complement_ordered]. *)
Definition ordered_inv (has_cc ordered : list cell) : Prop :=
  List.Forall (fun c => In c has_cc) ordered /\ List.NoDup (map c_id ordered).

(** The region of [c] is the parse of its text after every cell
    complement was replaced by the text of the inverted region that
    [regs] holds for the referenced cell. *)
Definition resolved_from (idx : gmap Z cell) (surfaces : surface_table)
    (regs : gmap Z region) (c : cell) : Prop :=
  exists text r,
    substitute_complements idx regs (complement_findall (c_region c)) (c_region c)
      = Ok text /\
    parse_region (rewrite_operators text) surfaces = Ok r /\
    regs !! c_id c = Some r.

(** A transformation that refuses every [trcl]; inputs without a cell
    transformation never reach it. *)
Definition no_transform (trcl : string) (use_degrees : bool) (r : region)
    (surfaces : surface_table) : result (region * surface_table) :=
  Raise (NotImplementedError "cell transformation").

Definition mk_cell (id : Z) (text : string) : cell :=
  {| c_id := id; c_material := 0; c_density := "0"; c_region := text;
     c_parameters := ∅ |}.

Definition sphere_entry : surface_entry :=
  Primitive (SurfaceBuilder.Sphere 0 0 0 1) transmission.

(** Cells A, B, C of the complement-ordering example, numbered 1, 2, 3,
    over a table with the single surface 1. *)
Definition chain_cells : list cell :=
  [mk_cell 1 "-1"; mk_cell 2 "#1"; mk_cell 3 "#2"].

(** The same cells with A redefined to reference C. *)
Definition cyclic_cells : list cell :=
  [mk_cell 1 "#3"; mk_cell 2 "#1"; mk_cell 3 "#2"].

Definition one_surface : surface_table := {[ 1 := sphere_entry ]}.

End Resolver.

(** ** Cells, universes and lattices: the second half of
    [get_openmc_universes] *)

Module Universes.
Import Regions Resolver.

(** *** The objects of the target model *)

Inductive fill : Type :=
| FillNone
| FillMaterial (material_id : Z)
| FillUniverse (universe_id : Z).

(** An [openmc.Cell]. *)
Record ocell : Type := {
  oc_region : option region;
  oc_fill : fill;
  oc_translation : option (list Q)
}.

(** A numpy array of universe ids of two or three dimensions, in the
    order ([z],) y, x. *)
Inductive ndarray : Type :=
| Arr2 (rows : list (list Z))
| Arr3 (planes : list (list (list Z))).

Record lattice_data : Type := {
  lat_pitch : list Q;
  lat_lower_left : list Q;
  lat_dimension : list Z;
  lat_universes : ndarray;
  lat_outer : option Z
}.

(** An [openmc.Universe] or [openmc.RectLattice]; the cells of a
    universe are held by id, the cell objects live in [cs_cells]. *)
Record universe : Type := {
  u_is_lattice : bool;
  u_cells : gset Z;
  u_lattice : option lattice_data
}.

Definition new_universe : universe :=
  {| u_is_lattice := false; u_cells := ∅; u_lattice := None |}.

Definition new_lattice : universe :=
  {| u_is_lattice := true; u_cells := ∅; u_lattice := None |}.

(** The id bookkeeping of an OpenMC class: the next automatic id and the
    ids in use. *)
Record id_manager : Type := {
  next_id : Z;
  used_ids : gset Z
}.

Fixpoint skip_used (fuel : nat) (used : gset Z) (n : Z) : Z :=
  match fuel with
  | O => n
  | S fuel' => if decide (n ∈ used) then skip_used fuel' used (n + 1) else n
  end.

(** An object created without an id: [while next_id in used_ids:
    next_id += 1].  A set of [size used] ids cannot cover [size used + 1]
    consecutive numbers, so the search is bounded by that. *)
Definition auto_id (m : id_manager) : Z * id_manager :=
  let n := skip_used (S (size (used_ids m))) (used_ids m) (next_id m) in
  (n, {| next_id := n; used_ids := {[n]} ∪ used_ids m |}).

(** An object created with the id [n]. *)
Definition explicit_id (n : Z) (m : id_manager) : id_manager :=
  {| next_id := next_id m; used_ids := {[n]} ∪ used_ids m |}.

Record conv_state : Type := {
  cs_universes : gmap Z universe;
  cs_cells : gmap Z ocell;
  cs_surfaces : surface_table;
  cs_cell_ids : id_manager;
  cs_universe_ids : id_manager;
  cs_mat : option Z;
  cs_openmc_cells : list Z
}.

Definition set_universes (st : conv_state) (us : gmap Z universe) : conv_state :=
  {| cs_universes := us; cs_cells := cs_cells st; cs_surfaces := cs_surfaces st;
     cs_cell_ids := cs_cell_ids st; cs_universe_ids := cs_universe_ids st;
     cs_mat := cs_mat st; cs_openmc_cells := cs_openmc_cells st |}.

Definition set_surfaces (st : conv_state) (ss : surface_table) : conv_state :=
  {| cs_universes := cs_universes st; cs_cells := cs_cells st; cs_surfaces := ss;
     cs_cell_ids := cs_cell_ids st; cs_universe_ids := cs_universe_ids st;
     cs_mat := cs_mat st; cs_openmc_cells := cs_openmc_cells st |}.

Definition set_mat (st : conv_state) (m : option Z) : conv_state :=
  {| cs_universes := cs_universes st; cs_cells := cs_cells st;
     cs_surfaces := cs_surfaces st;
     cs_cell_ids := cs_cell_ids st; cs_universe_ids := cs_universe_ids st;
     cs_mat := m; cs_openmc_cells := cs_openmc_cells st |}.

(** [openmc.Universe(uid)] stored under [universes[uid]]. *)
Definition create_universe (uid : Z) (u : universe) (st : conv_state) : conv_state :=
  {| cs_universes := <[uid := u]> (cs_universes st); cs_cells := cs_cells st;
     cs_surfaces := cs_surfaces st; cs_cell_ids := cs_cell_ids st;
     cs_universe_ids := explicit_id uid (cs_universe_ids st);
     cs_mat := cs_mat st; cs_openmc_cells := cs_openmc_cells st |}.

(** [u = openmc.Universe(cells=[openmc.Cell(fill=f)])] with an optional
    translation of the cell, then [universes[u.id] = u]: returns [u.id]. *)
Definition wrap_in_universe (f : fill) (translation : option (list Q))
    (st : conv_state) : Z * conv_state :=
  let '(cid, cids) := auto_id (cs_cell_ids st) in
  let '(uid, uids) := auto_id (cs_universe_ids st) in
  (uid,
   {| cs_universes :=
        <[uid := {| u_is_lattice := false; u_cells := {[cid]}; u_lattice := None |}]>
          (cs_universes st);
      cs_cells := <[cid := {| oc_region := None; oc_fill := f;
                              oc_translation := translation |}]> (cs_cells st);
      cs_surfaces := cs_surfaces st;
      cs_cell_ids := cids; cs_universe_ids := uids;
      cs_mat := cs_mat st; cs_openmc_cells := cs_openmc_cells st |}).

(** [get_universe(uid)]: a universe is created on first reference. *)
Definition get_universe (uid : Z) (st : conv_state) : conv_state :=
  match cs_universes st !! uid with
  | Some _ => st
  | None => create_universe uid new_universe st
  end.

(** *** Reserving ids (lines 441-447) *)

(** [abs(int(c['parameters']['u']))] *)
Definition universe_tag (c : cell) : option (result Z) :=
  match c_parameters c !! "u" with
  | Some u => Some (let! n := Py.int u in Ok (Z.abs n))
  | None => None
  end.

Fixpoint all_univ_ids (cells : list cell) : result (list Z) :=
  match cells with
  | [] => Ok []
  | c :: cells' =>
      match universe_tag c with
      | Some r => let! uid := r in let! rest := all_univ_ids cells' in Ok (uid :: rest)
      | None => all_univ_ids cells'
      end
  end.

Definition max_list (l : list Z) : option Z :=
  match l with
  | [] => None
  | x :: l' => Some (fold_left Z.max l' x)
  end.

(** The value given to [openmc.Universe.next_id], if it is set. *)
Definition reserved_universe_id (cells : list cell) : result (option Z) :=
  let! ids := all_univ_ids cells in
  Ok (match max_list ids with Some m => Some (m + 1) | None => None end).

(** *** Adding the cell to its universe (lines 591-600) *)

Definition add_cell (cid : Z) (u : universe) : universe :=
  {| u_is_lattice := u_is_lattice u; u_cells := {[cid]} ∪ u_cells u;
     u_lattice := u_lattice u |}.

Definition remove_cell (cid : Z) (u : universe) : universe :=
  {| u_is_lattice := u_is_lattice u; u_cells := u_cells u ∖ {[cid]};
     u_lattice := u_lattice u |}.

(** The universe the cell is added to: [Some uid], or [None] for a
    lattice-defining cell, which is added to no universe. *)
Definition home_universe (c : cell) : result (option Z) :=
  match universe_tag c with
  | Some r => if has_key "lat" (c_parameters c) then Ok None
              else let! uid := r in Ok (Some uid)
  | None => Ok (Some 0)
  end.

(** [universes[uid].add_cell(cell)]; a [RectLattice] has no such method. *)
Definition add_to_universe (c : cell) (st : conv_state) : result conv_state :=
  let! home := home_universe c in
  match home with
  | None => Ok st
  | Some uid =>
      let st1 := get_universe uid st in
      match cs_universes st1 !! uid with
      | Some u =>
          if u_is_lattice u then Raise AttributeError
          else Ok (set_universes st1 (<[uid := add_cell (c_id c) u]> (cs_universes st1)))
      | None => Raise KeyError
      end
  end.

(** *** Vacuum boundary detection (lines 602-614) *)

Definition is_halfspace (r : region) : bool :=
  match r with Halfspace _ _ => true | _ => false end.

Definition boundary_of (surfaces : surface_table) (sid : Z) : option boundary :=
  match surfaces !! sid with
  | Some (Primitive _ b) => Some b
  | _ => None
  end.

(** [if surface.boundary_type == 'transmission': surface.boundary_type = 'vacuum'] *)
Definition to_vacuum (e : surface_entry) : surface_entry :=
  match e with
  | Primitive k transmission => Primitive k vacuum
  | _ => e
  end.

Definition surface_of (r : region) : option Z :=
  match r with Halfspace s _ => Some s | _ => None end.

Fixpoint make_vacuum (nodes : list region) (surfaces : surface_table) : surface_table :=
  match nodes with
  | [] => surfaces
  | n :: nodes' =>
      make_vacuum nodes'
        (match surface_of n with
         | Some s => alter to_vacuum s surfaces
         | None => surfaces
         end)
  end.

(** ['imp:n' in c['parameters'] and f"{float(...):.5f}" == f"{0:.5f}"] *)
Definition zero_importance (c : cell) : result bool :=
  match c_parameters c !! "imp:n" with
  | None => Ok false
  | Some imp => let! x := Py.float imp in Ok (Py.prints_as_zero x)
  end.

Definition drop_from_root (c : cell) (st : conv_state) : conv_state :=
  set_universes st (alter (remove_cell (c_id c)) 0 (cs_universes st)).

Definition vacuum_boundary (c : cell) (cell_region : region) (st : conv_state)
    : result conv_state :=
  match cell_region with
  | Union nodes =>
      if forallb is_halfspace nodes then
        let! z := zero_importance c in
        if z then Ok (drop_from_root c (set_surfaces st (make_vacuum nodes (cs_surfaces st))))
        else Ok st
      else Ok st
  | Halfspace s _ =>
      let! z := zero_importance c in
      if z then Ok (drop_from_root c (set_surfaces st (alter to_vacuum s (cs_surfaces st))))
      else Ok st
  | _ => Ok st
  end.

(** *** Material of the cell (lines 616-619) *)

(** [mat] keeps its previous binding when the cell has no material. *)
Definition bind_material (materials : gmap Z (gmap string Z)) (c : cell)
    (st : conv_state) : result conv_state :=
  if 0 <? c_material c then
    match materials !! c_material c with
    | None => Raise KeyError
    | Some by_density =>
        match by_density !! c_density c with
        | None => Raise KeyError
        | Some m => Ok (set_mat st (Some m))
        end
    end
  else Ok st.

(** *** Cell filled with a universe (lines 768-779) *)

(** The loop [for ci in cells] that decides whether the filling
    universe is a lattice. *)
Fixpoint declared_kind (cells : list cell) (uid : Z) : result (option universe) :=
  match cells with
  | [] => Ok None
  | ci :: cells' =>
      match c_parameters ci !! "u" with
      | Some u =>
          let! n := Py.int u in
          if Z.abs n =? uid then
            Ok (Some (if has_key "lat" (c_parameters ci) then new_lattice else new_universe))
          else declared_kind cells' uid
      | None => declared_kind cells' uid
      end
  end.

(** [cell.fill = universes[uid]] after the universe was created on
    demand; the result is the state and the id the cell is filled with. *)
Definition fill_with_universe (cells : list cell) (uid : Z) (st : conv_state)
    : result conv_state :=
  let! st1 :=
    (match cs_universes st !! uid with
     | Some _ => Ok st
     | None =>
         let! k := declared_kind cells uid in
         Ok (match k with Some u => create_universe uid u st | None => st end)
     end) in
  match cs_universes st1 !! uid with
  | Some _ => Ok st1
  | None => Raise KeyError
  end.

(** Lines 590-614 together: the cell joins its universe, then the
    vacuum boundary is looked for. *)
Definition place_cell (c : cell) (cell_region : region) (st : conv_state)
    : result conv_state :=
  let! st1 := add_to_universe c st in
  vacuum_boundary c cell_region st1.

(** A region the vacuum detection looks at: a union of half-spaces or a
    single half-space. *)
Definition union_of_halfspaces (r : region) : Prop :=
  match r with
  | Union nodes => forallb is_halfspace nodes = true
  | Halfspace _ _ => True
  | _ => False
  end.

(** The surfaces of the half-spaces of such a region. *)
Definition region_surfaces (r : region) : list Z :=
  match r with
  | Union nodes => omap surface_of nodes
  | Halfspace s _ => [s]
  | _ => []
  end.

Definition in_root (cid : Z) (st : conv_state) : Prop :=
  exists root, cs_universes st !! 0 = Some root /\ cid ∈ u_cells root.

Definition importance_cell (id : Z) (imp : string) : cell :=
  {| c_id := id; c_material := 0; c_density := "0"; c_region := "";
     c_parameters := {[ "imp:n" := imp ]} |}.

(** A state with the empty root universe and the transmission surfaces
    5 and 6. *)
Definition two_surfaces_state : conv_state :=
  {| cs_universes := {[ 0 := new_universe ]};
     cs_cells := ∅;
     cs_surfaces := {[ 5 := sphere_entry; 6 := sphere_entry ]};
     cs_cell_ids := {| next_id := 2; used_ids := {[ 1 ]} |};
     cs_universe_ids := {| next_id := 1; used_ids := {[ 0 ]} |};
     cs_mat := None;
     cs_openmc_cells := [] |}.


Definition tagged_cell (id : Z) (u : string) : cell :=
  {| c_id := id; c_material := 1; c_density := "1.0"; c_region := "-1";
     c_parameters := {[ "u" := u ]} |}.

End Universes.

(** ** Lattice constructor (lines 623-758) *)

Module Lattice.
Import SurfaceBuilder Regions Resolver Universes.

(** [reduce_general_plane_to_xyz]: a general plane along a coordinate
    axis becomes the axis-aligned plane type. *)
Definition reduce_plane (e : surface_entry) : surface_entry :=
  match e with
  | Primitive (Plane a b c d) bt =>
      if Qeq_bool a 1 && Qeq_bool b 0 && Qeq_bool c 0 then Primitive (AxisPlane AxisX d) bt
      else if Qeq_bool a 0 && Qeq_bool b 1 && Qeq_bool c 0 then Primitive (AxisPlane AxisY d) bt
      else if Qeq_bool a 0 && Qeq_bool b 0 && Qeq_bool c 1 then Primitive (AxisPlane AxisZ d) bt
      else e
  | _ => e
  end.

Definition reduce_general_plane_to_xyz (surfaces : surface_table) : surface_table :=
  reduce_plane <$> surfaces.

(** *** Bounding planes *)

Record sides : Type := { side_x : list Q; side_y : list Q; side_z : list Q }.

(** [len(cell.region)] and the iteration over the region. *)
Definition region_nodes (r : region) : result (list region) :=
  match r with
  | Intersection l | Union l => Ok l
  | _ => Raise TypeError
  end.

Definition add_side (surfaces : surface_table) (sid : Z) (acc : sides) : sides :=
  match surfaces !! sid with
  | Some (Primitive (AxisPlane AxisX x0) _) =>
      {| side_x := side_x acc ++ [x0]; side_y := side_y acc; side_z := side_z acc |}
  | Some (Primitive (AxisPlane AxisY y0) _) =>
      {| side_x := side_x acc; side_y := side_y acc ++ [y0]; side_z := side_z acc |}
  | Some (Primitive (AxisPlane AxisZ z0) _) =>
      {| side_x := side_x acc; side_y := side_y acc; side_z := side_z acc ++ [z0] |}
  | _ => acc
  end.

Fixpoint collect_sides (surfaces : surface_table) (nodes : list region) (acc : sides)
    : result sides :=
  match nodes with
  | [] => Ok acc
  | Halfspace sid _ :: nodes' => collect_sides surfaces nodes' (add_side surfaces sid acc)
  | _ :: _ => Raise AttributeError
  end.

(** [v1, v0 = np.array([...]).T]: every axis must list exactly two
    planes. *)
Definition two (l : list Q) : result (Q * Q) :=
  match l with
  | [a; b] => Ok (a, b)
  | _ => Raise (ValueError "cannot unpack the bounding planes")
  end.

Definition bounding_vectors (s : sides) : result (list Q * list Q) :=
  let! x := two (side_x s) in
  let! y := two (side_y s) in
  match side_z s with
  | [] => Ok ([fst x; fst y], [snd x; snd y])
  | _ => let! z := two (side_z s) in Ok ([fst x; fst y; fst z], [snd x; snd y; snd z])
  end.

(** *** The fill specification *)

Definition opt_minus (s : string) : string * string :=
  match s with
  | String "-" r => ("-", r)
  | _ => ("", s)
  end.

Fixpoint span_space (s : string) : string * string :=
  match s with
  | String c s' =>
      if Ascii.is_space c then let '(w, r) := span_space s' in (String c w, r)
      else (EmptyString, s)
  | EmptyString => (EmptyString, EmptyString)
  end.

(** A match of the pattern [-?\d+\s*:\s*-?\d+] at the start of the
    text: the two numbers of the range. *)
Definition match_range (s : string) : option (string * string * nat) :=
  let '(m1, s1) := opt_minus s in
  let '(d1, s2) := Py.span_digits s1 in
  let '(w1, s3) := span_space s2 in
  match d1, s3 with
  | String _ _, String ":" s4 =>
      let '(w2, s5) := span_space s4 in
      let '(m2, s6) := opt_minus s5 in
      let '(d2, _) := Py.span_digits s6 in
      match d2 with
      | String _ _ =>
          Some (m1 +:+ d1, m2 +:+ d2,
                String.length (m1 +:+ d1 +:+ w1 +:+ ":" +:+ w2 +:+ m2 +:+ d2))
      | EmptyString => None
      end
  | _, _ => None
  end.

(** [re.findall(...)]: the matches from left to right, without overlap;
    [skip] counts the characters of a match still to be passed. *)
Fixpoint find_ranges (skip : nat) (s : string) : list (string * string) :=
  match s with
  | EmptyString => []
  | String c rest =>
      match skip with
      | S k => find_ranges k rest
      | O =>
          match match_range s with
          | Some (lo, hi, len) => (lo, hi) :: find_ranges (len - 1) rest
          | None => find_ranges O rest
          end
      end
  end.

(** [xmin, xmax = map(int, pair.split(':'))] *)
Definition range_bounds (p : string * string) : result (Z * Z) :=
  let! lo := Py.int (fst p) in
  let! hi := Py.int (snd p) in
  Ok (lo, hi).

Fixpoint after_last_colon (s : string) : option string :=
  match s with
  | EmptyString => None
  | String c r =>
      match after_last_colon r with
      | Some t => Some t
      | None => if Ascii.eqb c ":" then Some r else None
      end
  end.

(** [fill[fill.rfind(':') + 1:]] *)
Definition tail_after_colon (s : string) : string :=
  default s (after_last_colon s).

Fixpoint ints (words : list string) : result (list Z) :=
  match words with
  | [] => Ok []
  | w :: words' => let! n := Py.int w in let! ns := ints words' in Ok (n :: ns)
  end.

Record window : Type := {
  w_inf : bool;
  w_min : Z * Z * Z;
  w_max : Z * Z * Z;
  w_ids : list string
}.

Definition nth_range (pairs : list (string * string)) (i : nat) : result (Z * Z) :=
  match pairs !! i with
  | Some p => range_bounds p
  | None => Raise IndexError
  end.

(** The index window and the universe ids of the fill text. *)
Definition fill_window (fill_text : string) : result window :=
  let words := Py.split fill_text in
  if (length words =? 1)%nat then
    Ok {| w_inf := true; w_min := (0, 0, 0); w_max := (0, 0, 0); w_ids := words |}
  else
    let pairs := find_ranges O fill_text in
    let univ_ids := drop 1 (Py.split (tail_after_colon fill_text)) in
    match pairs with
    | [] => Raise (ValueError "Cant find lattice specification")
    | _ =>
        let! x := nth_range pairs 0 in
        let! y := nth_range pairs 1 in
        let! z := nth_range pairs 2 in
        assert! (fst x <=? snd x) in
        assert! (fst y <=? snd y) in
        assert! (fst z <=? snd z) in
        Ok {| w_inf := false; w_min := (fst x, fst y, fst z);
              w_max := (snd x, snd y, snd z); w_ids := univ_ids |}
    end.

(** *** Arrays *)

Fixpoint chunks {A : Type} (count size : nat) (l : list A) : list (list A) :=
  match count with
  | O => []
  | S count' => take size l :: chunks count' size (drop size l)
  end.

(** [univ_ids.shape = shape[::-1]] *)
Definition reshape (shape : list Z) (flat : list Z) : result ndarray :=
  let bad := Raise (ValueError "cannot reshape array") in
  match shape with
  | [nx; ny] =>
      if Z.of_nat (length flat) =? nx * ny
      then Ok (Arr2 (chunks (Z.to_nat ny) (Z.to_nat nx) flat))
      else bad
  | [nx; ny; nz] =>
      if Z.of_nat (length flat) =? nx * ny * nz
      then Ok (Arr3 (map (chunks (Z.to_nat ny) (Z.to_nat nx))
                          (chunks (Z.to_nat nz) (Z.to_nat (nx * ny)) flat)))
      else bad
  | _ => bad
  end.

(** [np.flip(a, axis=-1)], [axis=-2], [axis=-3] *)
Definition flip_x (a : ndarray) : ndarray :=
  match a with
  | Arr2 rows => Arr2 (map (@reverse Z) rows)
  | Arr3 planes => Arr3 (map (map (@reverse Z)) planes)
  end.

Definition flip_y (a : ndarray) : ndarray :=
  match a with
  | Arr2 rows => Arr2 (reverse rows)
  | Arr3 planes => Arr3 (map (@reverse (list Z)) planes)
  end.

Definition flip_z (a : ndarray) : ndarray :=
  match a with
  | Arr2 rows => Arr2 rows
  | Arr3 planes => Arr3 (reverse planes)
  end.

Definition arr_map (f : Z -> Z) (a : ndarray) : ndarray :=
  match a with
  | Arr2 rows => Arr2 (map (map f) rows)
  | Arr3 planes => Arr3 (map (map (map f)) planes)
  end.

(** [a.ravel()] *)
Definition arr_flat (a : ndarray) : list Z :=
  match a with
  | Arr2 rows => concat rows
  | Arr3 planes => concat (map (@concat Z) planes)
  end.

(** [a[a == old] = new] *)
Definition arr_replace (old new : Z) (a : ndarray) : ndarray :=
  arr_map (fun x => if x =? old then new else x) a.

(** *** Pitch, corner and orientation (lines 648-719) *)

Definition vsub (u v : list Q) : list Q := zip_with Qminus u v.

Definition axis_lt0 (d : list Q) (i : nat) : bool :=
  match d !! i with Some x => Qltb x 0 | None => false end.

Definition Qmin (x y : Q) : Q := if Qle_bool x y then x else y.

(** The values the block computes: the two corner vectors, the index
    window ([index0], [index1]), the ids as the fill lists them, and
    what is stored on the lattice. *)
Record geometry : Type := {
  g_v1 : list Q;
  g_v0 : list Q;
  g_index0 : list Z;
  g_index1 : list Z;
  g_listed : list Z;
  g_pitch : list Q;
  g_lower_left : list Q;
  g_shape : list Z;
  g_univ_ids : ndarray;
  g_inf : bool
}.

Definition lattice_geometry (s : sides) (fill_text : string) : result geometry :=
  let! vs := bounding_vectors s in
  let '(v1, v0) := vs in
  let d := vsub v1 v0 in
  let pitch := map Qabs d in
  let! w := fill_window fill_text in
  let '(xmin, ymin, zmin) := w_min w in
  let '(xmax, ymax, zmax) := w_max w in
  let three := (length pitch =? 3)%nat in
  let index0 := if three then [xmin; ymin; zmin] else [xmin; ymin] in
  let index1 := if three then [xmax; ymax; zmax] else [xmax; ymax] in
  let shape := zip_with (fun hi lo => hi - lo + 1) index1 index0 in
  let corner0 := zip_with Qplus v0 (zip_with (fun i x => (inject_Z i * x)%Q) index0 d) in
  let corner1 := zip_with Qplus v1 (zip_with (fun i x => (inject_Z i * x)%Q) index1 d) in
  let lower_left := zip_with Qmin corner0 corner1 in
  let! flat := ints (w_ids w) in
  let! a := reshape shape flat in
  let a1 := if axis_lt0 d 0 then flip_x a else a in
  let a2 := if axis_lt0 d 1 then flip_y a1 else a1 in
  let a3 := if negb (bool_decide (side_z s = [])) && axis_lt0 d 2 then flip_z a2 else a2 in
  Ok {| g_v1 := v1; g_v0 := v0; g_index0 := index0; g_index1 := index1;
        g_listed := flat; g_pitch := pitch; g_lower_left := lower_left;
        g_shape := shape; g_univ_ids := a3; g_inf := w_inf w |}.

(** *** Reading a lattice geometry

    Along axis [i] the element with MCNP index [k] lies between the
    planes [v0 + k*d] and [v1 + k*d], where [d = v1 - v0]; the array
    position [j] of an OpenMC lattice lies between
    [lower_left + j*pitch] and [lower_left + (j+1)*pitch]. *)

Definition axis_d (g : geometry) (i : nat) : Q :=
  (nth i (g_v1 g) 0 - nth i (g_v0 g) 0)%Q.

Definition axis_lo (g : geometry) (i : nat) : Z := nth i (g_index0 g) 0.
Definition axis_hi (g : geometry) (i : nat) : Z := nth i (g_index1 g) 0.
Definition axis_extent (g : geometry) (i : nat) : Z := axis_hi g i - axis_lo g i + 1.

Definition is_3d (g : geometry) : bool := (length (g_pitch g) =? 3)%nat.

(** The array position, along axis [i], of the element with MCNP index
    [k]: counted from the other end when the axis is listed backwards. *)
Definition stored_index (g : geometry) (i : nat) (k : Z) : Z :=
  if Qltb (axis_d g i) 0 then axis_hi g i - k else k - axis_lo g i.

(** The place of the element (kx, ky, kz) in the fill text, where x
    varies fastest. *)
Definition listed_index (g : geometry) (kx ky kz : Z) : Z :=
  ((if is_3d g then kz - axis_lo g 2 else 0) * axis_extent g 1 + (ky - axis_lo g 1))
  * axis_extent g 0 + (kx - axis_lo g 0).

Definition arr_get (a : ndarray) (jz jy jx : nat) : option Z :=
  match a with
  | Arr2 rows =>
      match rows !! jy with Some row => row !! jx | None => None end
  | Arr3 planes =>
      match planes !! jz with
      | Some rows => match rows !! jy with Some row => row !! jx | None => None end
      | None => None
      end
  end.

(** The lower face of the element with MCNP index [k]. *)
Definition element_low (g : geometry) (i : nat) (k : Z) : Q :=
  Qmin (nth i (g_v0 g) 0 + inject_Z k * axis_d g i)%Q
       (nth i (g_v1 g) 0 + inject_Z k * axis_d g i)%Q.

(** The lower and upper face of the array position [j]. *)
Definition position_low (g : geometry) (i : nat) (j : Z) : Q :=
  (nth i (g_lower_left g) 0 + inject_Z j * nth i (g_pitch g) 0)%Q.

Definition position_high (g : geometry) (i : nat) (j : Z) : Q :=
  position_low g i (j + 1).

(** The distance from the coordinate [x] to the array position [j]. *)
Definition distance_to (g : geometry) (i : nat) (x : Q) (j : Z) : Q :=
  if Qltb x (position_low g i j) then (position_low g i j - x)%Q
  else if Qltb (position_high g i j) x then (x - position_high g i j)%Q
  else 0%Q.

(** Array position [j] is, among all positions of axis [i], one that is
    nearest to the coordinate [x]. *)
Definition nearest_to (g : geometry) (i : nat) (x : Q) (j : Z) : Prop :=
  forall j', 0 <= j' < axis_extent g i ->
    (distance_to g i x j <= distance_to g i x j')%Q.

(** The lattice of the pitch-and-flip example: bounding planes x = 0 and
    x = 10 listed in this order, y = -5 and y = 5, and three universes
    7, 8, 9 for the indices 0, 1, 2 along x. *)
Definition example_sides : sides :=
  {| side_x := [0; 10]%Q; side_y := [-5; 5]%Q; side_z := [] |}.

Definition example_fill : string := "0:2 0:0 0:0 7 8 9".

(** *** Auxiliary universes (lines 721-746) *)

(** The lattice fills an element with the universe of its own cell: an
    extra cell filled with [mat] is wrapped in a new universe. *)
Definition self_fill (uid : Z) (a : ndarray) (st : conv_state)
    : result (ndarray * conv_state) :=
  if existsb (Z.eqb uid) (arr_flat a) then
    match cs_mat st with
    | None => Raise UnboundLocalError
    | Some m =>
        let '(u, st') := wrap_in_universe (FillMaterial m) None st in
        Ok (arr_replace uid u a, st')
    end
  else Ok (a, st).

(** [center = np.zeros(3); center[:v0.size] = (v0 + v1)/2] *)
Definition center (v0 v1 : list Q) : list Q :=
  let c := zip_with (fun a b => ((a + b) / 2)%Q) v0 v1 in
  c ++ replicate (3 - length c) 0%Q.

Definition centered (c : list Q) : bool := forallb (fun x => Qeq_bool x 0) c.

(** [np.unique(a)]: the distinct values in increasing order. *)
Definition unique (a : ndarray) : list Z :=
  merge_sort Z.le (remove_dups (arr_flat a)).

(** [for uid in np.unique(univ_ids)]: every universe of the grid is
    wrapped in a translated universe. *)
Fixpoint translate_universes (shift : list Q) (uids : list Z) (a : ndarray)
    (st : conv_state) : ndarray * conv_state :=
  match uids with
  | [] => (a, st)
  | uid :: uids' =>
      let st1 := get_universe uid st in
      let '(u, st2) := wrap_in_universe (FillUniverse uid) (Some shift) st1 in
      translate_universes shift uids' (arr_replace uid u a) st2
  end.

(** [np.vectorize(get_universe)(univ_ids)] *)
Definition get_universes (a : ndarray) (st : conv_state) : conv_state :=
  fold_left (fun st uid => get_universe uid st) (arr_flat a) st.

Definition set_lattice (uid : Z) (d : lattice_data) (st : conv_state) : conv_state :=
  set_universes st
    (alter (fun u => {| u_is_lattice := u_is_lattice u; u_cells := u_cells u;
                        u_lattice := Some d |}) uid (cs_universes st)).

(** *** The whole block

    The result carries the new state and whether the loop variable [c]
    has been rebound to an [openmc.Cell] on the way. *)
Definition build_lattice (c : cell) (cell_region : region) (st : conv_state)
    : result (conv_state * bool) :=
  let params := c_parameters c in
  let! lat := (match params !! "lat" with
               | Some l => Py.int l | None => Raise KeyError end) in
  if lat =? 2 then Raise (NotImplementedError "Hexagonal lattices not supported") else
  let! uid := (match universe_tag c with Some r => r | None => Raise KeyError end) in
  let st0 := match cs_universes st !! uid with
             | Some _ => st
             | None => create_universe uid new_lattice st
             end in
  let! nodes := region_nodes cell_region in
  if (length nodes <? 4)%nat then
    Raise (NotImplementedError "One-dimensional lattices not supported") else
  let! s := collect_sides (cs_surfaces st) nodes
              {| side_x := []; side_y := []; side_z := [] |} in
  if bool_decide (side_x s = []) || bool_decide (side_y s = []) then
    Raise (NotImplementedError "2D lattice with basis other than x-y not supported") else
  (* [v1, v0 = ...] is unpacked before the fill text is looked up *)
  let! _ := bounding_vectors s in
  let! fill_text := (match params !! "fill" with
                     | Some f => Ok f | None => Raise KeyError end) in
  let! g := lattice_geometry s fill_text in
  let! ast := self_fill uid (g_univ_ids g) st0 in
  let '(a1, st1) := ast in
  let filled := existsb (Z.eqb uid) (arr_flat (g_univ_ids g)) in
  let ctr := center (g_v0 g) (g_v1 g) in
  let '(a2, st2) :=
    if centered ctr then (a1, st1)
    else translate_universes (map Qopp ctr) (unique a1) a1 st1 in
  let st3 := get_universes a2 st2 in
  let data := {| lat_pitch := g_pitch g; lat_lower_left := g_lower_left g;
                 lat_dimension := g_shape g; lat_universes := flip_y a2;
                 lat_outer := if g_inf g then head (arr_flat a2) else None |} in
  Ok (set_lattice uid data st3, filled || negb (centered ctr)).

(** Every object in the tables has its id registered as used. *)
Definition ids_consistent (st : conv_state) : Prop :=
  dom (cs_universes st) ⊆ used_ids (cs_universe_ids st) /\
  dom (cs_cells st) ⊆ used_ids (cs_cell_ids st).

(** [st'] keeps every universe and every cell of [st]. *)
Definition extends (st st' : conv_state) : Prop :=
  (forall k u, cs_universes st !! k = Some u -> cs_universes st' !! k = Some u) /\
  (forall k x, cs_cells st !! k = Some x -> cs_cells st' !! k = Some x) /\
  next_id (cs_universe_ids st) <= next_id (cs_universe_ids st') /\
  cs_mat st' = cs_mat st /\ cs_surfaces st' = cs_surfaces st.

(** Lines 616-758 for a lattice-defining cell: the material is bound,
    then the lattice is built. *)
Definition lattice_cell (materials : gmap Z (gmap string Z)) (c : cell)
    (cell_region : region) (st : conv_state) : result (conv_state * bool) :=
  let! st1 := bind_material materials c st in
  build_lattice c cell_region st1.

Definition single_cell_universe (cid : Z) : universe :=
  {| u_is_lattice := false; u_cells := {[ cid ]}; u_lattice := None |}.

Definition material_cell (m : Z) : ocell :=
  {| oc_region := None; oc_fill := FillMaterial m; oc_translation := None |}.

(** The end of the loop body for a lattice-defining cell (lines
    803-807).  The test ['vol' in c["parameters"]] subscripts [c]; once
    [c] has been rebound to an [openmc.Cell] this raises [TypeError].
    The cell carries [_lattice], so it is not entered in
    [openmc_cells]. *)
Definition finish_lattice_cell (materials : gmap Z (gmap string Z)) (c : cell)
    (cell_region : region) (st : conv_state) : result conv_state :=
  let! r := lattice_cell materials c cell_region st in
  let '(st', rebound) := r in
  if rebound then Raise TypeError
  else
    match c_parameters c !! "vol" with
    | Some v => let! _ := Py.float v in Ok st'
    | None => Ok st'
    end.

(** A lattice cell of universe 5 and material 1 whose fill names its own
    universe twice, between the planes x = 0, x = 10, y = -5, y = 5. *)
Definition self_fill_cell : cell :=
  {| c_id := 10; c_material := 1; c_density := "1.0"; c_region := "1 -2 3 -4";
     c_parameters := {[ "u" := "5"; "lat" := "1"; "fill" := "0:2 0:0 0:0 5 8 5" ]} |}.

Definition self_fill_region : region :=
  Intersection [Halfspace 1 true; Halfspace 2 false; Halfspace 3 true; Halfspace 4 false].

Definition self_fill_materials : gmap Z (gmap string Z) :=
  {[ 1 := {[ "1.0" := 3 ]} ]}.

Definition self_fill_state : conv_state :=
  {| cs_universes := {[ 0 := new_universe ]};
     cs_cells := ∅;
     cs_surfaces := {[ 1 := Primitive (AxisPlane AxisX 0) transmission;
                       2 := Primitive (AxisPlane AxisX 10) transmission;
                       3 := Primitive (AxisPlane AxisY (-5)) transmission;
                       4 := Primitive (AxisPlane AxisY 5) transmission ]};
     cs_cell_ids := {| next_id := 11; used_ids := {[ 10 ]} |};
     cs_universe_ids := {| next_id := 6; used_ids := {[ 0 ]} |};
     cs_mat := None;
     cs_openmc_cells := [] |}.

(** The same cell between the planes x = -5, x = 5, y = -5, y = 5, so
    that the lattice element is centred on the origin and no universe
    is translated. *)
Definition centred_state : conv_state :=
  {| cs_universes := {[ 0 := new_universe ]};
     cs_cells := ∅;
     cs_surfaces := {[ 1 := Primitive (AxisPlane AxisX (-5)) transmission;
                       2 := Primitive (AxisPlane AxisX 5) transmission;
                       3 := Primitive (AxisPlane AxisY (-5)) transmission;
                       4 := Primitive (AxisPlane AxisY 5) transmission ]};
     cs_cell_ids := {| next_id := 11; used_ids := {[ 10 ]} |};
     cs_universe_ids := {| next_id := 6; used_ids := {[ 0 ]} |};
     cs_mat := None;
     cs_openmc_cells := [] |}.


End Lattice.

(** ** The final pass over the constructed cells ([replace_complement]) *)

Module FinalPass.
Import Regions.

(** The region of a constructed cell.  The pass assigns to the [node]
    attribute of a [Complement] object the region object of another
    cell; that object stays shared with its cell, so the attribute is
    either a subtree the node owns or a reference to the region of the
    cell with a given id. *)
Inductive cregion : Type :=
| CHalfspace (surface_id : Z) (positive : bool)
| CIntersection (nodes : list cregion)
| CUnion (nodes : list cregion)
| CComplement (node : cregion)
| CComplementOfCell (cell_id : Z).

(** The region as the parser built it. *)
Fixpoint of_region (r : region) : cregion :=
  match r with
  | Halfspace s p => CHalfspace s p
  | Intersection l => CIntersection (map of_region l)
  | Union l => CUnion (map of_region l)
  | Complement n => CComplement (of_region n)
  end.

(** [openmc_cells]: cell id and region, in insertion order. *)
Definition cell_table : Type := list (Z * cregion).

Fixpoint cells_get (cells : cell_table) (cid : Z) : option cregion :=
  match cells with
  | [] => None
  | (k, r) :: cells' => if k =? cid then Some r else cells_get cells' cid
  end.

Fixpoint cells_set (cells : cell_table) (cid : Z) (r : cregion) : cell_table :=
  match cells with
  | [] => [(cid, r)]
  | (k, r') :: cells' =>
      if k =? cid then (k, r) :: cells' else (k, r') :: cells_set cells' cid r
  end.

(** [region.node = cells[sid].region]: the lookup fails with
    [KeyError] when no constructed cell has that id. *)
Definition redirect_to (cells : cell_table) (sid : Z) : result cregion :=
  match cells_get cells sid with
  | Some _ => Ok (CComplementOfCell sid)
  | None => Raise KeyError
  end.

(** [for n in region: f(n)], where [f] changes the node in place. *)
Fixpoint for_each (f : cregion -> result cregion) (l : list cregion)
    : result (list cregion) :=
  match l with
  | [] => Ok []
  | n :: l' =>
      let! n' := f n in
      let! l'' := for_each f l' in
      Ok (n' :: l'')
  end.

Fixpoint replace_complement (cells : cell_table) (r : cregion) : result cregion :=
  match r with
  | CIntersection l =>
      let! l' := for_each (replace_complement cells) l in Ok (CIntersection l')
  | CUnion l =>
      let! l' := for_each (replace_complement cells) l in Ok (CUnion l')
  | CComplement (CHalfspace sid _) => redirect_to cells sid
  | CComplementOfCell cid =>
      match cells_get cells cid with
      | Some (CHalfspace sid _) => redirect_to cells sid
      | _ => Ok r
      end
  | _ => Ok r
  end.

(** [for cell in openmc_cells.values(): replace_complement(cell.region,
    openmc_cells)]; [todo] lists the ids still to visit. *)
Fixpoint final_pass (todo : list Z) (cells : cell_table) : result cell_table :=
  match todo with
  | [] => Ok cells
  | cid :: todo' =>
      match cells_get cells cid with
      | None => final_pass todo' cells
      | Some r =>
          let! r' := replace_complement cells r in
          final_pass todo' (cells_set cells cid r')
      end
  end.

Definition expand_shorthand (cells : cell_table) : result cell_table :=
  final_pass (map fst cells) cells.

(** The surfaces [N] of the complement nodes [~N] that the traversal
    reaches: it descends through intersections and unions only. *)
Fixpoint reached (r : region) : list Z :=
  match r with
  | Intersection l | Union l => flat_map reached l
  | Complement (Halfspace sid _) => [sid]
  | _ => []
  end.

(** What the pass is meant to produce: every reached complement of a
    half-space of surface [N] becomes the complement of the region of
    cell [N]. *)
Fixpoint expand (r : region) : cregion :=
  match r with
  | Intersection l => CIntersection (map expand l)
  | Union l => CUnion (map expand l)
  | Complement (Halfspace sid _) => CComplementOfCell sid
  | _ => of_region r
  end.

(** The table of constructed cells, from the regions the parser built. *)
Definition table_of (regions : list (Z * region)) : cell_table :=
  map (fun kr => (fst kr, of_region (snd kr))) regions.

Definition expanded_table (regions : list (Z * region)) : cell_table :=
  map (fun kr => (fst kr, expand (snd kr))) regions.

End FinalPass.

(** ** Surfaces handed to the comparator ([get_surfaces_to_be_compared]
    and the head of [compare_surfaces]) *)

Module SurfaceGroups.
Import SurfaceBuilder Regions.

Definition axis_letter (ax : axis) : string :=
  match ax with AxisX => "x" | AxisY => "y" | AxisZ => "z" end.

(** [surface.type] of the primitive classes; the composite classes
    ([isinstance(surface, CompositeSurface)]) have [None]. *)
Definition surface_type (s : surface) : option string :=
  match s with
  | Plane _ _ _ _ => Some "plane"
  | AxisPlane ax _ => Some (axis_letter ax +:+ "-plane")
  | Sphere _ _ _ _ => Some "sphere"
  | Cylinder ax _ _ _ => Some (axis_letter ax +:+ "-cylinder")
  | Cone ax _ _ _ _ => Some (axis_letter ax +:+ "-cone")
  | Quadric _ => Some "quadric"
  | Torus ax _ _ _ _ _ _ => Some (axis_letter ax +:+ "-torus")
  | ConeOneSided _ _ _ _ _ _ | RCC _ _ _ _ | RCCRotated _ _ _ | RPP _ | Box _ _ _ _ => None
  end.

(** [list(surf.coefficients.values())] *)
Definition coefficients (s : surface) : list Q :=
  match s with
  | Plane a b c d => [a; b; c; d]
  | AxisPlane _ x0 => [x0]
  | Sphere x0 y0 z0 r => [x0; y0; z0; r]
  | Cylinder _ c1 c2 r => [c1; c2; r]
  | Cone _ x0 y0 z0 r2 => [x0; y0; z0; r2]
  | Quadric cs => cs
  | Torus _ x0 y0 z0 a b c => [x0; y0; z0; a; b; c]
  | ConeOneSided _ _ _ _ _ _ | RCC _ _ _ _ | RCCRotated _ _ _ | RPP _ | Box _ _ _ _ => []
  end.

(** [type.replace('x-plane', 'plane').replace('y-plane', 'plane')
    .replace('z-plane', 'plane')] *)
Definition merged_type (t : string) : string :=
  Py.replace "z-plane" "plane" (Py.replace "y-plane" "plane" (Py.replace "x-plane" "plane" t)).

(** A dict from the type name to the list of surfaces, in insertion
    order; a surface is kept with its id. *)
Definition groups : Type := list (string * list (Z * surface)).

(** [d[t] += [x]] if [t] is a key, [d[t] = [x]] otherwise. *)
Fixpoint group_add (t : string) (x : Z * surface) (d : groups) : groups :=
  match d with
  | [] => [(t, [x])]
  | (t', l) :: d' =>
      if String.eqb t' t then (t', l ++ [x]) :: d' else (t', l) :: group_add t x d'
  end.

Fixpoint group_get (t : string) (d : groups) : list (Z * surface) :=
  match d with
  | [] => []
  | (t', l) :: d' => if String.eqb t' t then l else group_get t d'
  end.

(** One iteration of [for i, surface in surfaces.items()]. *)
Definition compared_step (d : groups) (entry : Z * surface_entry) : groups :=
  match snd entry with
  | Composite _ _ => d
  | Primitive k bt =>
      match surface_type k with
      | None => d
      | Some t =>
          match bt with
          | transmission => group_add (merged_type t) (fst entry, k) d
          | _ => d
          end
      end
  end.

(** The surface table is read in its insertion order. *)
Definition get_surfaces_to_be_compared (surfaces : list (Z * surface_entry)) : groups :=
  fold_left compared_step surfaces [].

(** An entry of the dicts given to the comparator. *)
Record compared : Type := {
  cmp_id : Z;
  cmp_kind : string;
  cmp_coefficients : list Q
}.

(** [d[k] = v] on a dict in insertion order. *)
Fixpoint assoc_set (d : list (Z * compared)) (k : Z) (v : compared) : list (Z * compared) :=
  match d with
  | [] => [(k, v)]
  | (k', v') :: d' => if k' =? k then (k', v) :: d' else (k', v') :: assoc_set d' k v
  end.

Definition add_compared (tipo : string) (d : list (Z * compared)) (x : Z * surface)
    : list (Z * compared) :=
  assoc_set d (fst x)
    {| cmp_id := fst x; cmp_kind := tipo; cmp_coefficients := coefficients (snd x) |}.

(** The loop [for tipo, surfs in surfaces_openmc_comparison.items()]:
    the dicts [surfaces_planes] and [surfaces_others]. *)
Fixpoint split_groups (d : groups) (planes others : list (Z * compared))
    : list (Z * compared) * list (Z * compared) :=
  match d with
  | [] => (planes, others)
  | (tipo, surfs) :: d' =>
      if String.eqb tipo "plane"
      then split_groups d' (fold_left (add_compared "plane") surfs planes) others
      else split_groups d' planes (fold_left (add_compared tipo) surfs others)
  end.

(** [compare_surfaces] up to the two calls of the comparator: what is
    compared as planes and what as other surfaces. *)
Definition comparator_inputs (surfaces : list (Z * surface_entry))
    : list (Z * compared) * list (Z * compared) :=
  split_groups (get_surfaces_to_be_compared surfaces) [] [].

(** The surfaces the grouping loop puts under the type [t]: the
    primitive surfaces of the table with a transmission boundary whose
    type name is [t] once the plane classes are merged. *)
Definition eligible (t : string) (x : Z * surface) (surfaces : list (Z * surface_entry)) : Prop :=
  In (fst x, Primitive (snd x) transmission) surfaces /\
  exists ty, surface_type (snd x) = Some ty /\ merged_type ty = t.

Definition mk_compared (i : Z) (tipo : string) (k : surface) : compared :=
  {| cmp_id := i; cmp_kind := tipo; cmp_coefficients := coefficients k |}.

(** The surface is an instance of one of the four plane classes. *)
Definition is_plane (s : surface) : bool :=
  match s with Plane _ _ _ _ | AxisPlane _ _ => true | _ => false end.

(** A table with a general plane, an axis-aligned plane, a sphere, a
    reflective plane and a macrobody. *)
Definition mixed_table : list (Z * surface_entry) :=
  [(1, Primitive (Plane 1 0 0 2) transmission);
   (2, Primitive (AxisPlane AxisZ 3) transmission);
   (3, Primitive (Sphere 0 0 0 1) transmission);
   (4, Primitive (Plane 0 1 0 5) reflective);
   (5, Composite (Intersection [Halfspace 6 false; Halfspace 7 true])
                 (Union [Halfspace 6 true; Halfspace 7 false]))].

End SurfaceGroups.

(** ** Faces of macrobodies (lines 328-340) *)

Module Faces.
Import SurfaceBuilder Regions.

(** The rewriting of a face [s] of a macrobody: an axis-aligned plane
    becomes a new general [openmc.Plane] with the id of the face; the new
    object has the default boundary type. *)
Definition generalize_face (e : surface_entry) : surface_entry :=
  match e with
  | Primitive (AxisPlane AxisX x0) _ => Primitive (Plane 1 0 0 x0) transmission
  | Primitive (AxisPlane AxisY y0) _ => Primitive (Plane 0 1 0 y0) transmission
  | Primitive (AxisPlane AxisZ z0) _ => Primitive (Plane 0 0 1 z0) transmission
  | _ => e
  end.

(** [for i, s in surfaces_macrobodies.items(): ... openmc_surfaces[i] = s] *)
Definition add_faces (faces : list (Z * surface_entry)) (surfaces : surface_table)
    : surface_table :=
  fold_left (fun t f => <[fst f := generalize_face (snd f)]> t) faces surfaces.

(** The mnemonics the builder knows. *)
Definition supported_mnemonics : list string :=
  ["p"; "px"; "py"; "pz"; "so"; "s"; "sx"; "sy"; "sz"; "c/x"; "c/y"; "c/z";
   "cx"; "cy"; "cz"; "k/x"; "k/y"; "k/z"; "kx"; "ky"; "kz"; "gq"; "tx"; "ty"; "tz";
   "x"; "y"; "z"; "rcc"; "rpp"; "box"].

Definition axis_plane_mnemonic (ax : axis) : string :=
  match ax with AxisX => "px" | AxisY => "py" | AxisZ => "pz" end.

End Faces.

(** ** The order of the cells with a cell complement *)

Module Ordering.
Import Regions Resolver.

(** In [ordered] every cell comes after the cells with a cell
    complement that its own region refers to. *)
Definition dependencies_first (idx : gmap Z cell) (has_cc ordered : list cell) : Prop :=
  forall i c m other,
    ordered !! i = Some c -> In m (complement_findall (c_region c)) ->
    idx !! m = Some other -> cell_in other has_cc = true ->
    exists j other', (j < i)%nat /\ ordered !! j = Some other' /\ c_id other' = c_id other.

(** A cell with a cell complement that carries a transformation in
    degrees. *)
Definition degrees_cells : list cell :=
  [mk_cell 1 "-1";
   {| c_id := 2; c_material := 0; c_density := "0"; c_region := "#1";
      c_parameters := {[ "*trcl" := "(1 0 0)" ]} |}].

End Ordering.

(** ** Reserved ids and the universe of a cell *)

Module Placement.
Import Regions Resolver Universes.

(** [openmc.Cell.next_id = max(c['id'] for c in cells) + 1] *)
Definition reserved_cell_id (cells : list cell) : result Z :=
  match max_list (map c_id cells) with
  | Some m => Ok (m + 1)
  | None => Raise (ValueError "max() arg is an empty sequence")
  end.

(** The cell [cid] is one of the cells of the universe [uid]. *)
Definition member (cid uid : Z) (st : conv_state) : Prop :=
  exists u, cs_universes st !! uid = Some u /\ cid ∈ u_cells u.

(** No cell declares the universe [uid]. *)
Definition undeclared (cells : list cell) (uid : Z) : Prop :=
  forall c, In c cells ->
    universe_tag c = None \/ exists u, universe_tag c = Some (Ok u) /\ u <> uid.

End Placement.

(** ** Shape of a lattice *)

Module LatticeShape.
Import Regions Resolver Universes Lattice.

Definition product (l : list Z) : Z := fold_right Z.mul 1 l.

(** The cell a translated universe holds. *)
Definition translated_cell (uid : Z) (shift : list Q) : ocell :=
  {| oc_region := None; oc_fill := FillUniverse uid; oc_translation := Some shift |}.

End LatticeShape.

(** ** Regions the parser builds *)

Module Parsed.
Import Regions FinalPass.

(** The regions that [-surf] and [+surf] evaluate to for the
    macrobodies of the table hold no complement of a half-space that the
    final pass would reach. *)
Definition plain_table (surfaces : surface_table) : Prop :=
  forall k n p, surfaces !! k = Some (Composite n p) -> reached n = [] /\ reached p = [].

Definition plain_token (t : token) : Prop :=
  match t with TRegion r => reached r = [] | _ => True end.

End Parsed.

(** ** Materials ([get_openmc_materials]) *)

Module Materials.
Import Resolver Universes.

(** A material of the MCNP data block: [m['id']] and [m['sab']] may be
    absent. *)
Record mcnp_material : Type := {
  m_id : option Z;
  m_nuclides : list (string * Q);
  m_sab : option (list string)
}.

Inductive percent_type : Type := ao | wo.

(** What was added to an [openmc.Material]: [add_nuclide] and
    [add_element] with their arguments. *)
Inductive component : Type :=
| Nuclide (name : string) (percent : Q) (kind : percent_type)
| Element (name : string) (percent : Q) (kind : percent_type).

Inductive units : Type := atom_b_cm | g_cm3.

(** An [openmc.Material]; its name [f'M{mcnp_mat_id} with density
    {density}'] is kept as the pair of the two values. *)
Record material : Type := {
  mat_id : Z;
  mat_name : Z * string;
  mat_components : list component;
  mat_sab : list string;
  mat_density : option (units * Q)
}.

(** *** The pairs of material and density

    A density is kept as its text [f'{density}'], which determines the
    float; two densities are equal floats when their texts are equal or
    when both are a zero. *)

Definition is_zero (text : string) : bool :=
  match Py.float text with
  | Ok x => Qeq_bool (Py.f_magnitude x) 0
  | Raise _ => false
  end.

Definition same_density (a b : string) : bool :=
  String.eqb a b || (is_zero a && is_zero b).

Definition same_key (x y : Z * string) : bool :=
  (fst x =? fst y) && same_density (snd x) (snd y).

(** [sorted(l, key=...)]: a stable sort. *)
Fixpoint insert_by {A : Type} (key : A -> Z) (x : A) (l : list A) : list A :=
  match l with
  | [] => [x]
  | y :: l' => if key x <=? key y then x :: l else y :: insert_by key x l'
  end.

Definition sort_by {A : Type} (key : A -> Z) (l : list A) : list A :=
  fold_right (insert_by key) [] l.

(** The keys of [itertools.groupby]: a new group starts when the key
    differs from the key of the running group. *)
Fixpoint group_keys (current : option (Z * string)) (l : list (Z * string))
    : list (Z * string) :=
  match l with
  | [] => []
  | k :: l' =>
      match current with
      | Some p => if same_key p k then group_keys current l' else k :: group_keys (Some k) l'
      | None => k :: group_keys (Some k) l'
      end
  end.

(** The elements of [set(l)]: of equal elements the first one stays. *)
Fixpoint distinct (seen l : list (Z * string)) : list (Z * string) :=
  match l with
  | [] => []
  | k :: l' =>
      if existsb (same_key k) seen then distinct seen l'
      else k :: distinct (k :: seen) l'
  end.

(** *** Composition of a new material *)

Definition sum_abs (nuclides : list (string * Q)) : Q :=
  fold_left (fun acc p => (acc + Qabs (snd p))%Q) nuclides 0%Q.

Fixpoint percent_get (d : list (string * Q)) (k : string) : option Q :=
  match d with
  | [] => None
  | (k', v) :: d' => if String.eqb k' k then Some v else percent_get d' k
  end.

Fixpoint percent_set (d : list (string * Q)) (k : string) (v : Q) : list (string * Q) :=
  match d with
  | [] => [(k, v)]
  | (k', v') :: d' =>
      if String.eqb k' k then (k', v) :: d' else (k', v') :: percent_set d' k v
  end.

(** The loop that fills [nuclide_percent]; the float division raises
    for a zero [norm_factor]. *)
Fixpoint accumulate (norm_factor : Q) (nuclides : list (string * Q))
    (d : list (string * Q)) : result (list (string * Q)) :=
  match nuclides with
  | [] => Ok d
  | (nuclide, percent) :: rest =>
      if Qeq_bool norm_factor 0 then Raise ZeroDivisionError
      else
        let share := (percent / norm_factor)%Q in
        accumulate norm_factor rest
          (match percent_get d nuclide with
           | None => percent_set d nuclide share
           | Some old => percent_set d nuclide (old + share)%Q
           end)
  end.

Definition nuclide_percent (nuclides : list (string * Q)) : result (list (string * Q)) :=
  accumulate (sum_abs nuclides) nuclides [].

Fixpoint count_dots (s : string) : nat :=
  match s with
  | EmptyString => O
  | String c s' => ((if Ascii.eqb c "." then 1 else 0) + count_dots s')%nat
  end.

Fixpoint before_dot (s : string) : string :=
  match s with
  | EmptyString => EmptyString
  | String c s' => if Ascii.eqb c "." then EmptyString else String c (before_dot s')
  end.

(** [if '.' in s: name, xs = s.split('.') else: name = s] *)
Definition split_dot (s : string) : result string :=
  match count_dots s with
  | O => Ok s
  | S O => Ok (before_dot s)
  | _ => Raise (ValueError "too many values to unpack")
  end.

Section WithData.

(** [openmc.data.ace.get_metadata(zaid, 'mcnp')], reduced to the name,
    the element and the mass number it returns, and
    [openmc.data.get_thermal_name]. *)
Variable get_metadata : Z -> result (string * string * Z).
Variable get_thermal_name : string -> result string.

(** The order in which the elements of a set are listed. *)
Variable set_order : list (Z * string) -> list (Z * string).

Definition add_component (nuclide : string) (percent : Q) : result component :=
  let! zaid := split_dot nuclide in
  let! z := Py.int zaid in
  let! meta := get_metadata z in
  let '(name, element, A) := meta in
  Ok (if Qltb percent 0
      then (if 0 <? A then Nuclide name (Qabs percent) wo
            else Element element (Qabs percent) wo)
      else (if 0 <? A then Nuclide name percent ao
            else Element element percent ao)).

Fixpoint add_components (d : list (string * Q)) : result (list component) :=
  match d with
  | [] => Ok []
  | (nuclide, percent) :: d' =>
      let! c := add_component nuclide percent in
      let! cs := add_components d' in
      Ok (c :: cs)
  end.

Fixpoint add_sab (l : list string) : result (list string) :=
  match l with
  | [] => Ok []
  | sab :: l' =>
      let! name := split_dot sab in
      let! t := get_thermal_name name in
      let! ts := add_sab l' in
      Ok (t :: ts)
  end.

(** [material.set_density('atom/b-cm', density)] for a positive density,
    [material.set_density('g/cm3', abs(density))] otherwise. *)
Definition density_of (text : string) : result (units * Q) :=
  let! x := Py.float text in
  Ok (if negb (Py.f_negative x) && Qltb 0 (Py.f_magnitude x)
      then (atom_b_cm, Py.f_magnitude x)
      else (g_cm3, Py.f_magnitude x)).

(** [openmc_materials]: a dict of dicts, both in insertion order. *)
Definition by_density : Type := list (string * material).
Definition material_dict : Type := list (Z * by_density).

Fixpoint outer_get (D : material_dict) (id : Z) : option by_density :=
  match D with
  | [] => None
  | (i, d) :: D' => if i =? id then Some d else outer_get D' id
  end.

Fixpoint inner_get (d : by_density) (text : string) : option material :=
  match d with
  | [] => None
  | (t, m) :: d' => if String.eqb t text then Some m else inner_get d' text
  end.

Fixpoint inner_set (d : by_density) (text : string) (m : material) : by_density :=
  match d with
  | [] => [(text, m)]
  | (t, m') :: d' =>
      if String.eqb t text then (t, m) :: d' else (t, m') :: inner_set d' text m
  end.

Fixpoint outer_set (D : material_dict) (id : Z) (d : by_density) : material_dict :=
  match D with
  | [] => [(id, d)]
  | (i, d') :: D' => if i =? id then (i, d) :: D' else (i, d') :: outer_set D' id d
  end.

Definition lookup_material (D : material_dict) (id : Z) (text : string) : option material :=
  match outer_get D id with
  | Some d => inner_get d text
  | None => None
  end.

(** One iteration of [for mcnp_mat_id, density in materials_densities]. *)
Definition material_step (materials : gmap Z mcnp_material)
    (state : material_dict * id_manager) (key : Z * string)
    : result (material_dict * id_manager) :=
  let '(D, ids) := state in
  let '(mcnp_mat_id, density) := key in
  if mcnp_mat_id =? 0 then Ok state else
  match materials !! mcnp_mat_id with
  | None => Raise KeyError
  | Some m =>
      match m_id m with
      | None => Ok state
      | Some own_id =>
          let! made :=
            (match outer_get D mcnp_mat_id with
             | Some d =>
                 match d with
                 | [] => Raise IndexError
                 | (_, first) :: _ =>
                     let '(new_id, ids') := auto_id ids in
                     Ok ({| mat_id := new_id; mat_name := (mcnp_mat_id, density);
                            mat_components := mat_components first;
                            mat_sab := mat_sab first;
                            mat_density := mat_density first |}, ids')
                 end
             | None =>
                 let! shares := nuclide_percent (m_nuclides m) in
                 let! components := add_components shares in
                 let! sab := (match m_sab m with
                              | Some l => add_sab l
                              | None => Ok []
                              end) in
                 Ok ({| mat_id := own_id; mat_name := (mcnp_mat_id, density);
                        mat_components := components; mat_sab := sab;
                        mat_density := None |}, explicit_id own_id ids)
             end) in
          let '(mat, ids1) := made in
          let! dens := density_of density in
          let mat' := {| mat_id := mat_id mat; mat_name := mat_name mat;
                         mat_components := mat_components mat; mat_sab := mat_sab mat;
                         mat_density := Some dens |} in
          Ok (match outer_get D mcnp_mat_id with
              | None => outer_set D mcnp_mat_id [(density, mat')]
              | Some d => outer_set D mcnp_mat_id (inner_set d density mat')
              end, ids1)
      end
  end.

Fixpoint material_loop (materials : gmap Z mcnp_material)
    (keys : list (Z * string)) (state : material_dict * id_manager)
    : result (material_dict * id_manager) :=
  match keys with
  | [] => Ok state
  | k :: keys' =>
      let! state' := material_step materials state k in
      material_loop materials keys' state'
  end.

(** [materials_densities] as the loop reads it. *)
Definition materials_densities (cells : list cell) : list (Z * string) :=
  let sorted_cells := sort_by c_material cells in
  let groups := group_keys None (map (fun c => (c_material c, c_density c)) sorted_cells) in
  sort_by fst (set_order (distinct [] groups)).

(** [used] holds the material ids in use when the function is called. *)
Definition get_openmc_materials (materials : gmap Z mcnp_material) (cells : list cell)
    (used : gset Z) : result (material_dict * id_manager) :=
  let keys := materials_densities cells in
  match max_list (map fst keys) with
  | None => Raise (ValueError "max() arg is an empty sequence")
  | Some m =>
      material_loop materials keys ([], {| next_id := m + 1; used_ids := used |})
  end.

End WithData.

(** What holds of every material in the dict. *)
Definition dict_ok (D : material_dict) : Prop :=
  (forall id text mat, lookup_material D id text = Some mat ->
     mat_name mat = (id, text) /\
     (exists dens, density_of text = Ok dens /\ mat_density mat = Some dens) /\
     id <> 0) /\
  (forall id t1 t2 m1 m2,
     lookup_material D id t1 = Some m1 -> lookup_material D id t2 = Some m2 ->
     mat_components m1 = mat_components m2 /\ mat_sab m1 = mat_sab m2) /\
  (forall id d, outer_get D id = Some d ->
     match d with (t, first) :: _ => lookup_material D id t = Some first | [] => True end).

Definition qsum (l : list Q) : Q := fold_right Qplus 0%Q l.

(** An MCNP material of two nuclides, one of them listed twice. *)
Definition example_nuclides : list (string * Q) :=
  [("1001.80c", 2); ("8016.80c", 1); ("1001.80c", 1)]%Q.

Definition example_metadata (zaid : Z) : result (string * string * Z) :=
  Ok ("nuclide", "element", zaid mod 1000).

Definition example_thermal (name : string) : result string := Ok name.

Definition example_materials : gmap Z mcnp_material :=
  {[ 1 := {| m_id := Some 1; m_nuclides := example_nuclides; m_sab := None |} ]}.

Definition fuel_cell (id : Z) (density : string) : cell :=
  {| c_id := id; c_material := 1; c_density := density; c_region := "-1";
     c_parameters := ∅ |}.

Definition example_cells : list cell :=
  [fuel_cell 1 "-10.5"; mk_cell 2 "1"; fuel_cell 3 "0.07"; fuel_cell 4 "-10.5"].

End Materials.

(** ** Rotation of one direction onto another ([rotate_vector])

    The function takes square roots, so its numbers are real numbers
    here. *)

Module Rotation.
Import Reals.
Local Open Scope R_scope.

Definition vec : Type := (R * R * R)%type.

(** A 3x3 matrix, as its three rows. *)
Definition matrix : Type := (vec * vec * vec)%type.

(** [np.linalg.norm(v)] *)
Definition norm (v : vec) : R :=
  let '(x, y, z) := v in sqrt (x * x + y * y + z * z).

Definition vscale (k : R) (v : vec) : vec :=
  let '(x, y, z) := v in (x * k, y * k, z * k).

Definition dot (a b : vec) : R :=
  let '(a1, a2, a3) := a in let '(b1, b2, b3) := b in a1 * b1 + a2 * b2 + a3 * b3.

(** [np.outer(a, b)] *)
Definition outer (a b : vec) : matrix :=
  let '(a1, a2, a3) := a in (vscale a1 b, vscale a2 b, vscale a3 b).

Definition vadd (a b : vec) : vec :=
  let '(a1, a2, a3) := a in let '(b1, b2, b3) := b in (a1 + b1, a2 + b2, a3 + b3).

Definition vsub (a b : vec) : vec :=
  let '(a1, a2, a3) := a in let '(b1, b2, b3) := b in (a1 - b1, a2 - b2, a3 - b3).

Definition madd (m n : matrix) : matrix :=
  let '(m1, m2, m3) := m in let '(n1, n2, n3) := n in (vadd m1 n1, vadd m2 n2, vadd m3 n3).

Definition msub (m n : matrix) : matrix :=
  let '(m1, m2, m3) := m in let '(n1, n2, n3) := n in (vsub m1 n1, vsub m2 n2, vsub m3 n3).

Definition mscale (k : R) (m : matrix) : matrix :=
  let '(m1, m2, m3) := m in (vscale k m1, vscale k m2, vscale k m3).

Definition identity : matrix := ((1, 0, 0), (0, 1, 0), (0, 0, 1)).

Definition mopp (m : matrix) : matrix := mscale (-1) m.

Definition column (m : matrix) (j : nat) : vec :=
  let pick (v : vec) := let '(x, y, z) := v in
                        match j with O => x | S O => y | _ => z end in
  let '(m1, m2, m3) := m in (pick m1, pick m2, pick m3).

(** [m @ n] *)
Definition mmul (m n : matrix) : matrix :=
  let row (r : vec) := (dot r (column n 0), dot r (column n 1), dot r (column n 2)) in
  let '(m1, m2, m3) := m in (row m1, row m2, row m3).

(** The product of a matrix and a column vector. *)
Definition mvmul (m : matrix) (v : vec) : vec :=
  let '(m1, m2, m3) := m in (dot m1 v, dot m2 v, dot m3 v).

Definition eps : R := 1 / 10000000000.

Definition rotate_vector (v1 v2 : vec) : matrix :=
  let u := vscale (/ norm v1) v1 in
  let Ru := vscale (/ norm v2) v2 in
  let c := dot u Ru in
  if Rlt_dec (Rabs (c - 1)) eps then identity
  else if Rlt_dec (Rabs (c + 1)) eps then mopp identity
  else
    let K := msub (outer Ru u) (outer u Ru) in
    madd (madd identity K) (mscale (/ (1 + c)) (mmul K K)).

(** The square of the distance between two points. *)
Definition dist2 (a b : vec) : R := dot (vsub a b) (vsub a b).

End Rotation.

(** ** Lattices the constructor refuses *)

Module Refusals.
Import Regions Resolver Universes Lattice.

(** A void cell that declares a lattice of the kind [lat] in universe 5
    with the given fill. *)
Definition lattice_of (lat fill : string) : cell :=
  {| c_id := 10; c_material := 0; c_density := "0"; c_region := "1 -2 3 -4";
     c_parameters := {[ "u" := "5"; "lat" := lat; "fill" := fill ]} |}.

(** The start of the first pass. *)
Definition first_pass_start (surfaces : surface_table) : resolver_state :=
  {| st_cells := []; st_regions := ∅; st_surfaces := surfaces;
     st_has_cell_complement := [] |}.

End Refusals.

(** * Properties *)

(** ** Helper lemmas *)

Lemma bind_ok {A B : Type} (r : result A) (k : A -> result B) (b : B) :
  bind r k = Ok b -> exists a, r = Ok a /\ k a = Ok b.
Proof. destruct r as [a|e]; simpl; intros H; [eauto | discriminate]. Qed.

Lemma Qltb_lt (x y : Q) : Qltb x y = true <-> (x < y)%Q.
Proof.
  unfold Qltb. rewrite negb_true_iff. split.
  - intros H. apply Qnot_le_lt. intros Hle.
    apply Qle_bool_iff in Hle. congruence.
  - intros H. destruct (Qle_bool y x) eqn:E; [|reflexivity].
    apply Qle_bool_iff in E. exfalso. apply (Qlt_not_le _ _ H E).
Qed.

Lemma Qltb_ge (x y : Q) : Qltb x y = false <-> (y <= x)%Q.
Proof.
  unfold Qltb. rewrite negb_false_iff. apply Qle_bool_iff.
Qed.

Lemma Qneb_neq (x y : Q) : Qneb x y = true <-> ~ (x == y)%Q.
Proof.
  unfold Qneb. rewrite negb_true_iff. split.
  - intros H Heq. apply Qeq_bool_iff in Heq. congruence.
  - intros H. destruct (Qeq_bool x y) eqn:E; [|reflexivity].
    apply Qeq_bool_iff in E. contradiction.
Qed.

Lemma Qneb_eq (x y : Q) : Qneb x y = false <-> (x == y)%Q.
Proof.
  unfold Qneb. rewrite negb_false_iff. apply Qeq_bool_iff.
Qed.


(** ** Surface builder *)

Section SurfaceBuilderProperties.
Import SurfaceBuilder.
Local Open Scope Q_scope.

Lemma allclose0_false_nonzero (n : vec3) :
  allclose0 n = false ->
  let '(a, b, c) := n in ~ (a == 0 /\ b == 0 /\ c == 0).
Proof.
  destruct n as [[a b] c]. unfold allclose0. intros H [Ha [Hb Hc]].
  assert (Hz : forall x, x == 0 -> Qle_bool (Qabs x) atol = true).
  { intros x Hx. apply Qle_bool_iff. rewrite Hx. simpl. unfold atol.
    unfold Qle. simpl. lia. }
  rewrite (Hz a Ha), (Hz b Hb), (Hz c Hc) in H. discriminate.
Qed.

Lemma enforce_sense_ok (p : Q * Q * Q * Q) :
  (let '(a, b, c, d) := p in ~ (a == 0 /\ b == 0 /\ c == 0)) ->
  exists p', enforce_sense p = Ok p' /\ first_nonzero_positive p' /\
             (p' = p \/ p' = flip_sense p).
Proof.
  destruct p as [[[a b] c] d]. intros Hnz. unfold enforce_sense.
  destruct (Qneb d 0) eqn:Ed.
  { apply Qneb_neq in Ed. destruct (Qltb d 0) eqn:Ld.
    - apply Qltb_lt in Ld. eexists. split; [reflexivity|]. split; [|right; reflexivity].
      simpl. left. lra.
    - apply Qltb_ge in Ld. eexists. split; [reflexivity|]. split; [|left; reflexivity].
      simpl. left. destruct (Qlt_le_dec 0 d) as [?|Hle]; [assumption|].
      exfalso. apply Ed. lra. }
  apply Qneb_eq in Ed.
  destruct (Qneb c 0) eqn:Ec.
  { apply Qneb_neq in Ec. destruct (Qltb c 0) eqn:Lc.
    - apply Qltb_lt in Lc. eexists. split; [reflexivity|]. split; [|right; reflexivity].
      simpl. right. left. split; lra.
    - apply Qltb_ge in Lc. eexists. split; [reflexivity|]. split; [|left; reflexivity].
      simpl. right. left. split; [assumption|].
      destruct (Qlt_le_dec 0 c) as [?|Hle]; [assumption|]. exfalso. apply Ec. lra. }
  apply Qneb_eq in Ec.
  destruct (Qneb b 0) eqn:Eb.
  { apply Qneb_neq in Eb. destruct (Qltb b 0) eqn:Lb.
    - apply Qltb_lt in Lb. eexists. split; [reflexivity|]. split; [|right; reflexivity].
      simpl. right. right. left. repeat split; lra.
    - apply Qltb_ge in Lb. eexists. split; [reflexivity|]. split; [|left; reflexivity].
      simpl. right. right. left. repeat split; try assumption.
      destruct (Qlt_le_dec 0 b) as [?|Hle]; [assumption|]. exfalso. apply Eb. lra. }
  apply Qneb_eq in Eb.
  destruct (Qneb a 0) eqn:Ea.
  { apply Qneb_neq in Ea. destruct (Qltb a 0) eqn:La.
    - apply Qltb_lt in La. eexists. split; [reflexivity|]. split; [|right; reflexivity].
      simpl. right. right. right. repeat split; lra.
    - apply Qltb_ge in La. eexists. split; [reflexivity|]. split; [|left; reflexivity].
      simpl. right. right. right. repeat split; try assumption.
      destruct (Qlt_le_dec 0 a) as [?|Hle]; [assumption|]. exfalso. apply Ea. lra. }
  apply Qneb_eq in Ea. exfalso. apply Hnz. auto.
Qed.

Lemma build_plane_unfold (s : surface_record) (p1 p2 p3 : vec3) :
  s_mnemonic s = "p" ->
  s_coefficients s = point_coefficients p1 p2 p3 ->
  build_surface s =
    (let! p := from_points p1 p2 p3 in let! p' := enforce_sense p in Ok (mk_plane p')).
Proof.
  destruct p1 as [[x1 y1] z1], p2 as [[x2 y2] z2], p3 as [[x3 y3] z3].
  intros Hm Hc. unfold build_surface. rewrite Hm, Hc. reflexivity.
Qed.

Lemma build_plane_ok (s : surface_record) (p1 p2 p3 : vec3) :
  s_mnemonic s = "p" ->
  s_coefficients s = point_coefficients p1 p2 p3 ->
  allclose0 (cross (vsub p2 p1) (vsub p3 p1)) = false ->
  exists p', build_surface s = Ok (mk_plane p') /\ first_nonzero_positive p' /\
    let n := cross (vsub p2 p1) (vsub p3 p1) in
    let p := (fst (fst n), snd (fst n), snd n, dot n p1) in
    (p' = p \/ p' = flip_sense p).
Proof.
  intros Hm Hc Hn. rewrite (build_plane_unfold s p1 p2 p3 Hm Hc).
  unfold from_points. rewrite Hn.
  pose proof (allclose0_false_nonzero _ Hn) as Hnz.
  destruct (cross (vsub p2 p1) (vsub p3 p1)) as [[a b] c] eqn:En.
  remember (dot (a, b, c) p1) as dd eqn:Edd.
  destruct (enforce_sense_ok (a, b, c, dd) Hnz) as (p' & Hp' & Hs & Hor).
  exists p'. cbn [bind fst snd]. rewrite Hp'. cbn [bind]. auto.
Qed.





(** C8. An 'x', 'y' or 'z' record with the four coefficients
    (x1, r1, x2, r2) is built as the axis-aligned plane at x1 when the
    axial positions are equal, otherwise as the axis-aligned cylinder of
    radius r1 when the radii are equal, and otherwise as a one-sided cone
    whose [up] flag tells whether the slope grad = (x2-x1)/(r2-r1) is
    non-negative, whose apex lies at x2 - grad*r2 on the axis and whose
    squared-slope parameter is (1/grad)^2. *)
Theorem two_point_surface_classification
    (s : surface_record) (ax : axis) (x1 r1 x2 r2 : Q) :
  axis_of_mnemonic s.(s_mnemonic) = Some ax ->
  s.(s_coefficients) = [x1; r1; x2; r2] ->
  (x1 == x2 -> build_surface s = Ok (AxisPlane ax x1)) /\
  (~ x1 == x2 -> r1 == r2 -> build_surface s = Ok (Cylinder ax 0 0 r1)) /\
  (~ x1 == x2 -> ~ r1 == r2 ->
   let grad := (x2 - x1) / (r2 - r1) in
   exists x0 y0 z0 k up,
     build_surface s = Ok (ConeOneSided ax x0 y0 z0 k up) /\
     (up = true <-> 0 <= grad) /\
     axial_offset (ConeOneSided ax x0 y0 z0 k up) = Some (x2 - grad * r2) /\
     k == (1 / grad) ^ 2).
Proof.
  intros Hax Hc.
  assert (Hb : build_surface s = build_xyz ax [x1; r1; x2; r2]).
  { unfold build_surface. rewrite Hc. unfold axis_of_mnemonic in Hax.
    destruct (s_mnemonic s) as [|c0 [|c1 m]]; try discriminate.
    - destruct c0 as [[] [] [] [] [] [] [] []]; simpl in Hax |- *;
        try discriminate; inversion Hax; reflexivity.
    - destruct c0 as [[] [] [] [] [] [] [] []]; simpl in Hax; discriminate. }
  rewrite Hb. unfold build_xyz.
  split; [|split].
  - intros E. apply Qeq_bool_iff in E. rewrite E. reflexivity.
  - intros N E.
    destruct (Qeq_bool x1 x2) eqn:E1; [apply Qeq_bool_iff in E1; contradiction|].
    apply Qeq_bool_iff in E. rewrite E. reflexivity.
  - intros N1 N2.
    destruct (Qeq_bool x1 x2) eqn:E1; [apply Qeq_bool_iff in E1; contradiction|].
    destruct (Qeq_bool r1 r2) eqn:E2; [apply Qeq_bool_iff in E2; contradiction|].
    assert (Hk : (- (1) / ((x2 - x1) / (r2 - r1))) ^ 2
                 == (1 / ((x2 - x1) / (r2 - r1))) ^ 2).
    { simpl. field. split; intros H; [apply N2 | apply N1]; lra. }
    destruct ax; simpl; do 5 eexists;
      (split; [reflexivity|]; split; [apply Qle_bool_iff|];
       split; [reflexivity | exact Hk]).
Qed.

(** The record [z 0 1 2 2]: a cone that opens upwards with slope 2. *)
Lemma two_point_surface_classification_witness :
  let s := {| s_id := 7; s_mnemonic := "z"; s_coefficients := [0; 1; 2; 2];
              s_reflective := false; s_tr := None |} in
  let grad := (2 - 0) / (2 - 1) in
  exists x0 y0 z0 k up,
    build_surface s = Ok (ConeOneSided AxisZ x0 y0 z0 k up) /\
    (up = true <-> 0 <= grad) /\
    axial_offset (ConeOneSided AxisZ x0 y0 z0 k up) = Some (2 - grad * 2) /\
    k == (1 / grad) ^ 2.
Proof.
  intros s grad.
  destruct (two_point_surface_classification s AxisZ 0 1 2 2 eq_refl eq_refl)
    as (_ & _ & H).
  apply H; intros E; discriminate E.
Defined.

End SurfaceBuilderProperties.

(** ** Surface canonicalizer *)

Section CanonicalizerProperties.
Import Canonicalizer.

(** C7 (fails on the code). When the comparator reports 1 = 2, 3 = 4 and
    then 2 = 3, the closure loop returns the map 1 -> 3, 3 -> 4, 2 -> 4:
    surface 1 is sent to surface 3 although 3 is itself sent to 4, so the
    map is neither closed under chaining nor canonical on its targets. *)
Theorem closure_misses_merged_chain :
  close_map merging_chains = Ok [(1, 3); (3, 4); (2, 4)] /\
  (forall d, close_map merging_chains = Ok d ->
     ~ transitively_closed d /\ ~ targets_canonical d).
Proof.
  split; [reflexivity|].
  intros d Hd. vm_compute in Hd. inversion Hd; subst d; clear Hd. split.
  - intros H. specialize (H 1 3 4 eq_refl eq_refl). discriminate H.
  - intros H. destruct (H 1 3 eq_refl) as [H'|H']; discriminate H'.
Qed.

(** The loop does close a simple chain reported front to back. *)
Example closure_simple_chain :
  close_map [(1, 2); (2, 3); (3, -4)] = Ok [(1, -4); (2, -4); (3, -4)].
Proof. reflexivity. Qed.

End CanonicalizerProperties.

(** ** Region resolver *)

Section ResolverProperties.
Import Regions Resolver.

Lemma unique_by_id (cells : list cell) (a b : cell) :
  List.NoDup (map c_id cells) -> In a cells -> In b cells -> c_id a = c_id b -> a = b.
Proof.
  induction cells as [|c cells IH]; simpl; intros Hnd Ha Hb E; [contradiction|].
  inversion Hnd as [|? ? Hnot Hnd']; subst.
  destruct Ha as [<-|Ha], Hb as [<-|Hb]; auto.
  - exfalso. apply Hnot. rewrite E. apply in_map. exact Hb.
  - exfalso. apply Hnot. rewrite <- E. apply in_map. exact Ha.
Qed.

Lemma cell_in_spec (c : cell) (l : list cell) :
  cell_in c l = true <-> exists c', In c' l /\ c_id c' = c_id c.
Proof.
  unfold cell_in. rewrite existsb_exists. split; intros (c' & Hin & E); exists c'.
  - split; [exact Hin | lia].
  - split; [exact Hin | lia].
Qed.

Lemma cell_in_ids (c : cell) (l : list cell) :
  cell_in c l = true <-> In (c_id c) (map c_id l).
Proof.
  rewrite cell_in_spec. rewrite in_map_iff. split; intros (c' & H1 & H2); exists c'; tauto.
Qed.

Lemma index_cells_in (cells : list cell) (k : Z) (c : cell) :
  index_cells cells !! k = Some c -> In c cells /\ c_id c = k.
Proof.
  unfold index_cells.
  assert (G : forall (m0 : gmap Z cell),
             foldl (fun m c => <[c_id c := c]> m) m0 cells !! k = Some c ->
             (In c cells /\ c_id c = k) \/ m0 !! k = Some c).
  { induction cells as [|c0 cells IH]; simpl; intros m0 H; [right; exact H|].
    destruct (IH _ H) as [[Hin E]|Hm].
    - left. split; [right; exact Hin | exact E].
    - destruct (decide (c_id c0 = k)) as [E|N].
      + subst k. rewrite lookup_insert_eq in Hm. inversion Hm; subst. left. auto.
      + rewrite lookup_insert_ne in Hm by exact N. right. exact Hm. }
  intros H. destruct (G ∅ H) as [?|Hm]; [assumption|].
  rewrite lookup_empty in Hm. discriminate.
Qed.


Section WithTransform.
Variable tr : string -> bool -> region -> surface_table -> result (region * surface_table).

Lemma first_pass_cell_inv (done : list cell) (st st' : resolver_state) (c : cell) :
  first_pass_inv done st ->
  first_pass_cell tr st c = Ok st' ->
  first_pass_inv (done ++ [c]) st'.
Proof.
  intros [Hcc Hreg] H. unfold first_pass_cell in H.
  assert (Hold : forall k r, st_regions st !! k = Some r ->
            exists c0, In c0 (done ++ [c]) /\ c_id c0 = k /\
                       complement_search (c_region c0) = false).
  { intros k r Hk. destruct (Hreg k r Hk) as (c0 & Hin & E & Hs).
    exists c0. split; [apply in_or_app; left; exact Hin | auto]. }
  destruct (complement_search (c_region c)) eqn:Es.
  - inversion H; subst st'; clear H. split; simpl.
    + rewrite List.filter_app. simpl. rewrite Es. rewrite Hcc. reflexivity.
    + exact Hold.
  - apply bind_ok in H. destruct H as (r & Hr & H).
    assert (Hnew : forall (r' : region) k r0,
              <[c_id c := r']> (st_regions st) !! k = Some r0 ->
              exists c0, In c0 (done ++ [c]) /\ c_id c0 = k /\
                         complement_search (c_region c0) = false).
    { intros r' k r0 Hk. destruct (decide (c_id c = k)) as [E|N].
      - exists c. split; [apply in_or_app; right; left; reflexivity | auto].
      - rewrite lookup_insert_ne in Hk by exact N. exact (Hold k r0 Hk). }
    assert (Hf : List.filter (fun c0 => complement_search (c_region c0)) (done ++ [c])
                 = st_has_cell_complement st).
    { rewrite List.filter_app. simpl. rewrite Es. rewrite app_nil_r. symmetry. exact Hcc. }
    destruct (has_key "trcl" (c_parameters c) || has_key "*trcl" (c_parameters c)).
    + destruct (negb (starts_with_paren _)); [discriminate|].
      apply bind_ok in H. destruct H as (rs & Hrs & H).
      inversion H; subst st'; clear H. split; simpl; [symmetry; exact Hf | apply Hnew].
    + inversion H; subst st'; clear H. split; simpl; [symmetry; exact Hf | apply Hnew].
Qed.

Lemma first_pass_inv_all (cells done : list cell) (st st' : resolver_state) :
  first_pass_inv done st ->
  first_pass tr st cells = Ok st' ->
  first_pass_inv (done ++ cells) st'.
Proof.
  revert done st. induction cells as [|c cells IH]; simpl; intros done st Hinv H.
  - inversion H; subst. rewrite app_nil_r. exact Hinv.
  - apply bind_ok in H. destruct H as (st1 & H1 & H).
    replace (done ++ c :: cells) with ((done ++ [c]) ++ cells)
      by (rewrite <- app_assoc; reflexivity).
    apply (IH _ st1); [|exact H].
    apply (first_pass_cell_inv done st); assumption.
Qed.


Lemma cell_in_app (x : cell) (l1 l2 : list cell) :
  cell_in x (l1 ++ l2) = cell_in x l1 || cell_in x l2.
Proof. unfold cell_in. apply existsb_app. Qed.

Section Ordering.
Variables (cells has_cc : list cell) (idx : gmap Z cell).
Hypothesis Hnd : List.NoDup (map c_id cells).
Hypothesis Hidx : forall k c, idx !! k = Some c -> In c cells /\ c_id c = k.
Hypothesis Hsub : forall c, In c has_cc -> In c cells.

Lemma add_to_ordered_inv (fuel : nat) :
  forall (ordered ordered' : list cell) (c : cell),
    In c has_cc ->
    ordered_inv has_cc ordered ->
    add_to_ordered fuel idx has_cc ordered c = Ok ordered' ->
    ordered_inv has_cc ordered' /\
    cell_in c ordered' = true /\
    (forall x, cell_in x ordered = true -> cell_in x ordered' = true).
Proof.
  induction fuel as [|fuel IH]; intros ordered ordered' c Hc Hinv H; [discriminate|].
  simpl in H. apply bind_ok in H. destruct H as (ordered1 & Hvisit & H).
  assert (Hv : ordered_inv has_cc ordered1 /\
               (forall x, cell_in x ordered = true -> cell_in x ordered1 = true)).
  { clear H. revert ordered Hinv Hvisit.
    induction (complement_findall (c_region c)) as [|other_id ms IHms];
      intros ordered Hinv Hvisit.
    - inversion Hvisit; subst. auto.
    - destruct (idx !! other_id) as [other_cell|] eqn:Eo; [|discriminate].
      apply bind_ok in Hvisit. destruct Hvisit as (ordered2 & H2 & Hvisit).
      destruct (cell_in other_cell has_cc) eqn:Ein.
      + assert (Hother : In other_cell has_cc).
        { apply cell_in_spec in Ein. destruct Ein as (c' & Hin' & E').
          destruct (Hidx _ _ Eo) as [Hoc _].
          rewrite <- (unique_by_id cells c' other_cell Hnd (Hsub _ Hin') Hoc E').
          exact Hin'. }
        destruct (IH _ _ _ Hother Hinv H2) as (Hinv2 & _ & Hmono2).
        destruct (IHms _ Hinv2 Hvisit) as (Hinv1 & Hmono1).
        split; [exact Hinv1 | auto].
      + inversion H2; subst ordered2. apply IHms; assumption. }
  destruct Hv as [[Hall Hnodup] Hmono].
  destruct (cell_in c ordered1) eqn:Ec; inversion H; subst ordered'; clear H.
  - repeat split; auto.
  - repeat split.
    + apply Forall_app. split; [exact Hall | constructor; [exact Hc | constructor]].
    + rewrite map_app. simpl.
      apply NoDup_ListNoDup. apply NoDup_app. split; [|split].
      * apply NoDup_ListNoDup. exact Hnodup.
      * intros k Hk Hk'. apply list_elem_of_In in Hk, Hk'.
        simpl in Hk'. destruct Hk' as [<-|[]].
        apply cell_in_ids in Hk. congruence.
      * apply NoDup_singleton.
    + rewrite cell_in_app. apply orb_true_iff. right.
      unfold cell_in. simpl. rewrite Z.eqb_refl. reflexivity.
    + intros x Hx. rewrite cell_in_app. rewrite (Hmono x Hx). reflexivity.
Qed.

Lemma order_cells_inv (fuel : nat) :
  forall (todo ordered ordered' : list cell),
    (forall c, In c todo -> In c has_cc) ->
    ordered_inv has_cc ordered ->
    order_cells fuel idx has_cc todo ordered = Ok ordered' ->
    ordered_inv has_cc ordered' /\
    (forall c, In c todo -> cell_in c ordered' = true) /\
    (forall x, cell_in x ordered = true -> cell_in x ordered' = true).
Proof.
  induction todo as [|c todo IH]; simpl; intros ordered ordered' Htodo Hinv H.
  - inversion H; subst. split; [exact Hinv | split; [intros c [] | auto]].
  - apply bind_ok in H. destruct H as (ordered1 & H1 & H).
    destruct (add_to_ordered_inv fuel _ _ _ (Htodo c (or_introl eq_refl)) Hinv H1)
      as (Hinv1 & Hc1 & Hmono1).
    destruct (IH _ _ (fun c' Hc' => Htodo c' (or_intror Hc')) Hinv1 H)
      as (Hinv' & Hcov & Hmono).
    split; [exact Hinv' | split; [|auto]].
    intros c' [<-|Hc']; auto.
Qed.

End Ordering.

Lemma substitute_complements_mono (idx : gmap Z cell) (regs regs' : gmap Z region)
    (ms : list Z) :
  (forall k r, regs !! k = Some r -> regs' !! k = Some r) ->
  forall text text',
    substitute_complements idx regs ms text = Ok text' ->
    substitute_complements idx regs' ms text = Ok text'.
Proof.
  intros Hsub. induction ms as [|m ms IH]; simpl; intros text text' H; [exact H|].
  destruct (idx !! m) as [other|]; [|discriminate].
  destruct (regs !! c_id other) as [r|] eqn:Er; [|discriminate].
  rewrite (Hsub _ _ Er). apply IH. exact H.
Qed.

(** Every reference that was substituted had a resolved region. *)
Lemma substitute_complements_resolved (idx : gmap Z cell) (regs : gmap Z region)
    (ms : list Z) :
  forall text text',
    substitute_complements idx regs ms text = Ok text' ->
    forall m, In m ms -> exists other r, idx !! m = Some other /\ regs !! c_id other = Some r.
Proof.
  induction ms as [|m0 ms IH]; simpl; intros text text' H m Hm; [contradiction|].
  destruct (idx !! m0) as [other|] eqn:Eo; [|discriminate].
  destruct (regs !! c_id other) as [r|] eqn:Er; [|discriminate].
  destruct Hm as [<-|Hm]; [eauto|].
  apply (IH _ _ H m Hm).
Qed.

Lemma second_pass_cell_ok (idx : gmap Z cell) (surfaces : surface_table)
    (regs regs' : gmap Z region) (c : cell) :
  second_pass_cell idx surfaces regs c = Ok regs' ->
  exists text r,
    substitute_complements idx regs (complement_findall (c_region c)) (c_region c)
      = Ok text /\
    parse_region (rewrite_operators text) surfaces = Ok r /\
    regs' = <[c_id c := r]> regs.
Proof.
  unfold second_pass_cell. intros H.
  destruct (negb (bool_decide (complement_findall (c_region c) = []))); [|discriminate].
  apply bind_ok in H. destruct H as (text & Ht & H).
  apply bind_ok in H. destruct H as (r & Hr & H).
  destruct (negb (has_key "trcl" (c_parameters c))); [|discriminate].
  inversion H; subst. eauto.
Qed.

Lemma second_pass_resolved (idx : gmap Z cell) (surfaces : surface_table) :
  forall (ordered : list cell) (regs regs' : gmap Z region),
    List.NoDup (map c_id ordered) ->
    (forall c, In c ordered -> regs !! c_id c = None) ->
    second_pass idx surfaces regs ordered = Ok regs' ->
    (forall k r, regs !! k = Some r -> regs' !! k = Some r) /\
    (forall c, In c ordered -> resolved_from idx surfaces regs' c).
Proof.
  induction ordered as [|c ordered IH]; simpl; intros regs regs' Hnd Hfresh H.
  - inversion H; subst. split; [auto | intros c []].
  - apply bind_ok in H. destruct H as (regs1 & H1 & H).
    destruct (second_pass_cell_ok _ _ _ _ _ H1) as (text & r & Ht & Hr & ->).
    inversion Hnd as [|? ? Hnot Hnd']; subst.
    assert (Hext : forall k r0, regs !! k = Some r0 ->
                   <[c_id c := r]> regs !! k = Some r0).
    { intros k r0 Hk. rewrite lookup_insert_ne; [exact Hk|].
      intros <-. rewrite (Hfresh c (or_introl eq_refl)) in Hk. discriminate. }
    destruct (IH (<[c_id c := r]> regs) regs' Hnd') as [Hmono Hres]; [|exact H|].
    { intros c' Hc'. rewrite lookup_insert_ne.
      - apply Hfresh. right. exact Hc'.
      - intros E. apply Hnot. rewrite E. apply in_map. exact Hc'. }
    split; [auto|].
    intros c' [<-|Hc']; [|auto].
    exists text, r. split; [|split; [exact Hr|]].
    + apply (substitute_complements_mono idx regs); [auto | exact Ht].
    + apply Hmono. apply lookup_insert_eq.
Qed.

Lemma resolution_uses_resolved_regions
    (fuel : nat) (cells : list cell) (surfaces : surface_table) (st : resolver_state) :
  List.NoDup (map c_id cells) ->
  resolve_regions tr fuel cells surfaces = Ok st ->
  forall c, In c cells -> complement_search (c_region c) = true ->
    resolved_from (index_cells cells) (st_surfaces st) (st_regions st) c.
Proof.
  intros Hnd H c Hc Hs. unfold resolve_regions in H.
  apply bind_ok in H. destruct H as (st1 & H1 & H).
  apply bind_ok in H. destruct H as (ordered & Ho & H).
  apply bind_ok in H. destruct H as (regs & H2 & H).
  inversion H; subst st; clear H. simpl.
  assert (Hinv : first_pass_inv ([] ++ cells) st1).
  { eapply (first_pass_inv_all cells []); [|exact H1].
    split; simpl; [reflexivity|]. intros k r Hk. rewrite lookup_empty in Hk. discriminate. }
  simpl in Hinv. destruct Hinv as [Hcc Hreg].
  assert (Hsub : forall x, In x (st_has_cell_complement st1) -> In x cells).
  { intros x Hx. rewrite Hcc in Hx. apply List.filter_In in Hx. tauto. }
  destruct (order_cells_inv cells (st_has_cell_complement st1) (index_cells cells)
              Hnd (index_cells_in cells) Hsub fuel _ [] ordered
              (fun x Hx => Hx)) as ([Hall Hnodup] & Hcov & _); [|exact Ho|].
  { split; constructor. }
  assert (Hin : In c ordered).
  { assert (Hc' : In c (st_has_cell_complement st1)).
    { rewrite Hcc. apply List.filter_In. auto. }
    specialize (Hcov c Hc'). apply cell_in_spec in Hcov.
    destruct Hcov as (c' & Hin' & E).
    rewrite List.Forall_forall in Hall.
    rewrite <- (unique_by_id cells c' c Hnd (Hsub _ (Hall _ Hin')) Hc E). exact Hin'. }
  destruct (second_pass_resolved (index_cells cells) (st_surfaces st1) ordered
              (st_regions st1) regs Hnodup) as [_ Hres]; [|exact H2|auto].
  intros x Hx. destruct (st_regions st1 !! c_id x) as [r|] eqn:Er; [|reflexivity].
  exfalso. destruct (Hreg _ _ Er) as (c0 & Hc0 & E0 & Hs0).
  rewrite List.Forall_forall in Hall. specialize (Hall _ Hx).
  assert (Hxs : complement_search (c_region x) = true).
  { rewrite Hcc in Hall. apply List.filter_In in Hall. tauto. }
  rewrite (unique_by_id cells c0 x Hnd Hc0 (Hsub _ Hall) E0) in Hs0. congruence.
Qed.


End WithTransform.

(** C1. Cells 1, 2, 3 with the regions "-1", "#1", "#2" resolve (at any
    recursion depth of at least two), and the region of cell 3 is the
    region of cell 1: the two complements cancel.  In general, when the
    regions resolve, the region of every cell with a cell complement is
    the parse of its text in which each reference was replaced by the
    text of the inverted, fully resolved region of the referenced cell,
    the region that cell has at the end, transformations included; in
    particular every referenced cell has a resolved region. *)
Theorem complement_resolution_order :
  (forall tr n, exists st,
     resolve_regions tr (S (S n)) chain_cells one_surface = Ok st /\
     st_regions st !! 1 = Some (Halfspace 1 false) /\
     st_regions st !! 2 = Some (Halfspace 1 true) /\
     st_regions st !! 3 = Some (Halfspace 1 false)) /\
  (forall tr fuel cells surfaces st,
     List.NoDup (map c_id cells) ->
     resolve_regions tr fuel cells surfaces = Ok st ->
     forall c, In c cells -> complement_search (c_region c) = true ->
       resolved_from (index_cells cells) (st_surfaces st) (st_regions st) c /\
       forall m, In m (complement_findall (c_region c)) ->
         exists other r, index_cells cells !! m = Some other /\
                         st_regions st !! c_id other = Some r).
Proof.
  split.
  - intros tr n. eexists. split; [vm_compute; reflexivity|].
    repeat split; reflexivity.
  - intros tr fuel cells surfaces st Hnd H c Hc Hs.
    pose proof (resolution_uses_resolved_regions tr fuel cells surfaces st Hnd H c Hc Hs)
      as Hres.
    split; [exact Hres|].
    destruct Hres as (text & r & Ht & _ & _).
    apply (substitute_complements_resolved _ _ _ _ _ Ht).
Qed.

(** The chain of the example, at recursion depth 5. *)
Lemma complement_resolution_order_witness :
  resolved_from (index_cells chain_cells) one_surface
    {[ 1 := Halfspace 1 false; 2 := Halfspace 1 true; 3 := Halfspace 1 false ]}
    (mk_cell 3 "#2").
Proof.
  assert (Hnd : List.NoDup (map c_id chain_cells)).
  { repeat constructor; simpl; intuition discriminate. }
  destruct (proj2 complement_resolution_order no_transform 5%nat chain_cells one_surface
              _ Hnd eq_refl (mk_cell 3 "#2")) as [H _].
  - simpl. auto.
  - reflexivity.
  - exact H.
Defined.

Lemma cycle_exhausts_fuel (idx : gmap Z cell) (has_cc : list cell) :
  idx !! 1 = Some (mk_cell 1 "#3") ->
  idx !! 2 = Some (mk_cell 2 "#1") ->
  idx !! 3 = Some (mk_cell 3 "#2") ->
  cell_in (mk_cell 1 "#3") has_cc = true ->
  cell_in (mk_cell 2 "#1") has_cc = true ->
  cell_in (mk_cell 3 "#2") has_cc = true ->
  forall fuel ordered c,
    In c cyclic_cells ->
    add_to_ordered fuel idx has_cc ordered c = Raise RecursionError.
Proof.
  intros I1 I2 I3 H1 H2 H3 fuel.
  induction fuel as [|fuel IH]; intros ordered c Hc; [reflexivity|].
  simpl in Hc. destruct Hc as [<-|[<-|[<-|[]]]]; simpl.
  - change (10 * 0 + Py.digit_val "3") with 3.
    rewrite I3, H3. rewrite IH; [reflexivity | simpl; auto].
  - change (10 * 0 + Py.digit_val "1") with 1.
    rewrite I1, H1. rewrite IH; [reflexivity | simpl; auto].
  - change (10 * 0 + Py.digit_val "2") with 2.
    rewrite I2, H2. rewrite IH; [reflexivity | simpl; auto].
Qed.

(** C2 (fails on the code). With cell 1 redefined to complement cell 3,
    the cells 1, 2, 3 complement one another in a cycle.  [add_to_ordered]
    has no guard against a cell that is being visited, so it descends
    until the interpreter's recursion limit is hit: whatever depth is
    allowed, the conversion ends with [RecursionError] and never reaches
    the "nested cell-complements" error. *)
Theorem cyclic_complement_recursion_error
    (tr : string -> bool -> region -> surface_table -> result (region * surface_table))
    (fuel : nat) :
  resolve_regions tr fuel cyclic_cells one_surface = Raise RecursionError.
Proof.
  unfold resolve_regions.
  assert (Hfp : first_pass tr {| st_cells := []; st_regions := ∅;
                                 st_surfaces := one_surface;
                                 st_has_cell_complement := [] |} cyclic_cells
                = Ok {| st_cells := cyclic_cells; st_regions := ∅;
                        st_surfaces := one_surface;
                        st_has_cell_complement := cyclic_cells |}) by reflexivity.
  rewrite Hfp. cbn [bind st_has_cell_complement].
  assert (Ho : order_cells fuel (index_cells cyclic_cells) cyclic_cells
                 (mk_cell 1 "#3" :: [mk_cell 2 "#1"; mk_cell 3 "#2"]) []
               = Raise RecursionError).
  { cbn [order_cells].
    rewrite (cycle_exhausts_fuel (index_cells cyclic_cells) cyclic_cells);
      try reflexivity.
    simpl. auto. }
  change (mk_cell 1 "#3" :: [mk_cell 2 "#1"; mk_cell 3 "#2"]) with cyclic_cells in Ho.
  rewrite Ho. reflexivity.
Qed.

(** A cell that complements itself is the shortest cycle. *)
Example self_complement_recursion_error :
  resolve_regions no_transform 1000 [mk_cell 1 "#1"] one_surface = Raise RecursionError.
Proof. vm_compute. reflexivity. Qed.

End ResolverProperties.

(** ** Cells and universes *)

Section UniverseProperties.
Import Regions Resolver Universes Lattice.











Lemma boundary_of_alter (k s : Z) (S : surface_table) :
  boundary_of (alter to_vacuum k S) s =
    if decide (k = s) then
      match boundary_of S s with
      | Some transmission => Some vacuum
      | b => b
      end
    else boundary_of S s.
Proof.
  unfold boundary_of. rewrite lookup_alter. destruct (decide (k = s)) as [->|N].
  - destruct (S !! s) as [[k' []|]|]; reflexivity.
  - reflexivity.
Qed.

Lemma make_vacuum_other (nodes : list region) (S : surface_table) (s : Z) :
  ~ In s (omap surface_of nodes) \/ boundary_of S s <> Some transmission ->
  boundary_of (make_vacuum nodes S) s = boundary_of S s.
Proof.
  revert S. induction nodes as [|n nodes IH]; simpl; intros S H; [reflexivity|].
  destruct n as [k p| | |]; simpl in *; try (apply IH; exact H).
  rewrite IH.
  - rewrite boundary_of_alter. destruct (decide (k = s)) as [->|N]; [|reflexivity].
    destruct H as [H|H]; [exfalso; apply H; left; reflexivity|].
    destruct (boundary_of S s) as [[]|]; congruence.
  - destruct H as [H|H].
    + left. intros Hin. apply H. right. exact Hin.
    + right. rewrite boundary_of_alter. destruct (decide (k = s)); [|exact H].
      destruct (boundary_of S s) as [[]|]; congruence.
Qed.

Lemma make_vacuum_member (nodes : list region) (S : surface_table) (s : Z) :
  In s (omap surface_of nodes) ->
  boundary_of S s = Some transmission ->
  boundary_of (make_vacuum nodes S) s = Some vacuum.
Proof.
  revert S. induction nodes as [|n nodes IH]; simpl; intros S Hin Hb; [contradiction|].
  destruct n as [k p| | |]; simpl in *; try (apply IH; assumption).
  destruct (decide (k = s)) as [->|N].
  - rewrite make_vacuum_other.
    + rewrite boundary_of_alter, decide_True by reflexivity. rewrite Hb. reflexivity.
    + right. rewrite boundary_of_alter, decide_True by reflexivity. rewrite Hb. discriminate.
  - destruct Hin as [E|Hin]; [contradiction|].
    apply IH; [exact Hin|]. rewrite boundary_of_alter, decide_False by exact N. exact Hb.
Qed.

Lemma drop_from_root_absent (c : cell) (st : conv_state) :
  ~ in_root (c_id c) (drop_from_root c st).
Proof.
  intros (root & Hr & Hin). unfold drop_from_root in Hr. simpl in Hr.
  rewrite lookup_alter, decide_True in Hr by reflexivity.
  destruct (cs_universes st !! 0) as [u|]; simpl in Hr; [|discriminate].
  inversion Hr; subst root. simpl in Hin. set_solver.
Qed.

(** C6 (amended). For a cell whose region is a union of half-spaces or
    a single half-space and whose importance prints as 0.00000 with five
    decimals, every constituent surface with a transmission boundary
    becomes a vacuum boundary, no other boundary changes, and the cell
    is taken out of the root universe.  A cell whose importance is
    absent or does not print as 0.00000 changes nothing, and neither
    does a cell whose region is an intersection. *)
Theorem vacuum_boundary_detection (c : cell) (r : region) (st : conv_state) :
  (union_of_halfspaces r -> zero_importance c = Ok true ->
   exists st', vacuum_boundary c r st = Ok st' /\
     (forall s, In s (region_surfaces r) ->
        boundary_of (cs_surfaces st) s = Some transmission ->
        boundary_of (cs_surfaces st') s = Some vacuum) /\
     (forall s, ~ In s (region_surfaces r) \/
                boundary_of (cs_surfaces st) s <> Some transmission ->
        boundary_of (cs_surfaces st') s = boundary_of (cs_surfaces st) s) /\
     ~ in_root (c_id c) st') /\
  (zero_importance c = Ok false -> vacuum_boundary c r st = Ok st) /\
  (forall nodes, r = Intersection nodes -> vacuum_boundary c r st = Ok st).
Proof.
  split; [|split].
  - intros Hr Hz. destruct r as [s p|nodes|nodes|n]; simpl in Hr; try contradiction.
    + simpl. rewrite Hz. simpl. eexists. split; [reflexivity|]. split; [|split].
      * intros s' [<-|[]] Hb. simpl.
        rewrite boundary_of_alter, decide_True by reflexivity. rewrite Hb. reflexivity.
      * intros s' H. simpl. rewrite boundary_of_alter.
        destruct (decide (s = s')) as [->|N]; [|reflexivity].
        destruct H as [H|H]; [exfalso; apply H; left; reflexivity|].
        destruct (boundary_of (cs_surfaces st) s') as [[]|]; congruence.
      * apply drop_from_root_absent.
    + simpl. rewrite Hr, Hz. simpl. eexists. split; [reflexivity|]. split; [|split].
      * intros s Hin Hb. simpl. apply make_vacuum_member; assumption.
      * intros s H. simpl. apply make_vacuum_other. exact H.
      * apply drop_from_root_absent.
  - intros Hz. destruct r as [s p|nodes|nodes|n]; simpl; try reflexivity.
    + rewrite Hz. reflexivity.
    + destruct (forallb is_halfspace nodes); [|reflexivity]. rewrite Hz. reflexivity.
  - intros nodes ->. reflexivity.
Qed.

(** A cell with importance 0 and the region +5. *)
Lemma vacuum_boundary_detection_witness :
  exists st', vacuum_boundary (importance_cell 1 "0") (Halfspace 5 true)
                two_surfaces_state = Ok st' /\
    boundary_of (cs_surfaces st') 5 = Some vacuum /\
    boundary_of (cs_surfaces st') 6 = Some transmission /\
    ~ in_root 1 st'.
Proof.
  destruct (vacuum_boundary_detection (importance_cell 1 "0") (Halfspace 5 true)
              two_surfaces_state) as (H & _ & _).
  destruct (H I eq_refl) as (st' & Hst & Hv & Ho & Hroot).
  exists st'. split; [exact Hst|]. split; [|split; [|exact Hroot]].
  - apply Hv; [left; reflexivity | reflexivity].
  - rewrite Ho; [reflexivity|]. left. simpl. intros [E|[]]. discriminate E.
Defined.

(** C6 as stated fails twice.  A cell of importance 0 whose region is
    the intersection of +5 and -6 leaves both surfaces with their
    transmission boundary and stays in the root universe; and a cell of
    the non-zero importance 0.000001 with the region +5 turns surface 5
    into a vacuum boundary. *)
Lemma vacuum_claim_counterexample :
  (exists st',
     place_cell (importance_cell 1 "0")
       (Intersection [Halfspace 5 true; Halfspace 6 false]) two_surfaces_state = Ok st' /\
     boundary_of (cs_surfaces st') 5 = Some transmission /\
     boundary_of (cs_surfaces st') 6 = Some transmission /\
     in_root 1 st') /\
  (exists x st',
     Py.float "0.000001" = Ok x /\ ~ (Py.f_magnitude x == 0)%Q /\
     place_cell (importance_cell 1 "0.000001") (Halfspace 5 true) two_surfaces_state
       = Ok st' /\
     boundary_of (cs_surfaces st') 5 = Some vacuum).
Proof.
  split.
  - eexists. split; [reflexivity|]. split; [reflexivity|]. split; [reflexivity|].
    eexists. split; [reflexivity|]. simpl. set_solver.
  - eexists. eexists. split; [reflexivity|]. split; [|split; reflexivity].
    simpl. intros E. discriminate E.
Qed.

End UniverseProperties.

(** ** Lattice constructor *)

Section LatticeProperties.
Import SurfaceBuilder Regions Resolver Universes Lattice.


Lemma chunks_length {A : Type} (count size : nat) (l : list A) :
  length (chunks count size l) = count.
Proof. revert l. induction count as [|count IH]; simpl; intros l; [reflexivity|]. rewrite IH. reflexivity. Qed.

Lemma chunks_lookup {A : Type} (count size : nat) (l : list A) (i : nat) :
  (i < count)%nat ->
  chunks count size l !! i = Some (take size (drop (i * size) l)).
Proof.
  revert l i. induction count as [|count IH]; intros l i Hi; [lia|].
  destruct i as [|i]; simpl; [reflexivity|].
  rewrite IH by lia. rewrite drop_drop. reflexivity.
Qed.

Lemma chunk_lookup {A : Type} (size n j : nat) (l : list A) :
  (j < size)%nat -> take size (drop n l) !! j = l !! (n + j)%nat.
Proof. intros Hj. rewrite lookup_take_lt by exact Hj. apply lookup_drop. Qed.

Lemma chunk_length {A : Type} (size n : nat) (l : list A) :
  (n + size <= length l)%nat -> length (take size (drop n l)) = size.
Proof. intros H. rewrite length_take_le; [reflexivity|]. rewrite length_drop. lia. Qed.

(** Reading a list that was reversed when the axis is backwards. *)
Lemma flip_lookup {A : Type} (b : bool) (l : list A) (lo hi k : Z) :
  Z.of_nat (length l) = hi - lo + 1 -> lo <= k <= hi ->
  (if b then reverse l else l) !! Z.to_nat (if b then hi - k else k - lo)
  = l !! Z.to_nat (k - lo).
Proof.
  intros Hlen Hk. destruct b; [|reflexivity].
  rewrite reverse_lookup by lia. f_equal. lia.
Qed.

Lemma map_lookup {A B : Type} (f : A -> B) (l : list A) (i : nat) :
  map f l !! i = f <$> l !! i.
Proof. revert i. induction l as [|x l IH]; intros [|i]; simpl; auto. Qed.

Lemma axis_lt0_nth (d : list Q) (i : nat) :
  axis_lt0 d i = Qltb (nth i d 0%Q) 0.
Proof.
  unfold axis_lt0. revert i. induction d as [|x d IH]; intros [|i]; simpl; auto.
Qed.

(** The arithmetic of one axis. *)
Lemma axis_position (v1 v0 : Q) (lo hi k : Z) :
  lo <= hi -> lo <= k <= hi ->
  let d := (v1 - v0)%Q in
  let j := if Qltb d 0 then hi - k else k - lo in
  (Qmin (v0 + inject_Z lo * d) (v1 + inject_Z hi * d) + inject_Z j * Qabs d
   == Qmin (v0 + inject_Z k * d) (v1 + inject_Z k * d))%Q.
Proof.
  intros Hlh Hk d j. subst j.
  assert (Hlo : (inject_Z lo <= inject_Z k)%Q) by (rewrite <- Zle_Qle; lia).
  assert (Hhi : (inject_Z k <= inject_Z hi)%Q) by (rewrite <- Zle_Qle; lia).
  assert (Hlohi : (inject_Z lo <= inject_Z hi)%Q) by (rewrite <- Zle_Qle; lia).
  unfold Qmin.
  destruct (Qltb d 0) eqn:Ed.
  - apply Qltb_lt in Ed.
    rewrite (Qabs_neg d) by lra.
    unfold Z.sub. rewrite inject_Z_plus, inject_Z_opp.
    assert (E1 : Qle_bool (v0 + inject_Z lo * d) (v1 + inject_Z hi * d) = false).
    { apply not_true_is_false. intros E. apply Qle_bool_iff in E.
      assert (v1 - v0 == d)%Q by reflexivity. nra. }
    assert (E2 : Qle_bool (v0 + inject_Z k * d) (v1 + inject_Z k * d) = false).
    { apply not_true_is_false. intros E. apply Qle_bool_iff in E.
      assert (v1 - v0 == d)%Q by reflexivity. lra. }
    rewrite E1, E2. assert (v1 - v0 == d)%Q by reflexivity. lra.
  - apply Qltb_ge in Ed.
    rewrite (Qabs_pos d) by lra.
    unfold Z.sub. rewrite inject_Z_plus, inject_Z_opp.
    assert (E1 : Qle_bool (v0 + inject_Z lo * d) (v1 + inject_Z hi * d) = true).
    { apply Qle_bool_iff. assert (v1 - v0 == d)%Q by reflexivity. nra. }
    assert (E2 : Qle_bool (v0 + inject_Z k * d) (v1 + inject_Z k * d) = true).
    { apply Qle_bool_iff. assert (v1 - v0 == d)%Q by reflexivity. lra. }
    rewrite E1, E2. ring.
Qed.


Lemma fill_window_ordered (fill_text : string) (w : window) :
  fill_window fill_text = Ok w ->
  let '(xmin, ymin, zmin) := w_min w in
  let '(xmax, ymax, zmax) := w_max w in
  xmin <= xmax /\ ymin <= ymax /\ zmin <= zmax.
Proof.
  unfold fill_window. intros H.
  destruct (length (Py.split fill_text) =? 1)%nat.
  - inversion H; subst; simpl. lia.
  - destruct (find_ranges 0 fill_text) as [|p0 ps]; [discriminate|].
    apply bind_ok in H. destruct H as ([x0 x1] & _ & H).
    apply bind_ok in H. destruct H as ([y0 y1] & _ & H).
    apply bind_ok in H. destruct H as ([z0 z1] & _ & H).
    simpl in H.
    destruct (x0 <=? x1) eqn:Ex; [|discriminate].
    destruct (y0 <=? y1) eqn:Ey; [|discriminate].
    destruct (z0 <=? z1) eqn:Ez; [|discriminate].
    inversion H; subst; simpl. lia.
Qed.

Lemma to_nat_index3 (A B C D E : Z) :
  0 <= A -> 0 <= B -> 0 <= C -> 0 <= D -> 0 <= E ->
  Z.to_nat ((A * B + C) * D + E)
  = (Z.to_nat A * (Z.to_nat B * Z.to_nat D) + Z.to_nat C * Z.to_nat D + Z.to_nat E)%nat.
Proof.
  intros HA HB HC HD HE.
  assert (0 <= A * B) by (apply Z.mul_nonneg_nonneg; assumption).
  assert (0 <= (A * B + C) * D) by (apply Z.mul_nonneg_nonneg; lia).
  rewrite Z2Nat.inj_add, Z2Nat.inj_mul, Z2Nat.inj_add, Z2Nat.inj_mul by lia.
  rewrite Nat.mul_add_distr_r, Nat.mul_assoc. reflexivity.
Qed.

Lemma grid_lookup (flat : list Z) (nx ny : nat) (fx fy : bool) (ix iy : nat) :
  length flat = (ny * nx)%nat -> (ix < nx)%nat -> (iy < ny)%nat ->
  let rows := chunks ny nx flat in
  let rows1 := if fx then map (@reverse Z) rows else rows in
  let rows2 := if fy then reverse rows1 else rows1 in
  match rows2 !! (if fy then ny - 1 - iy else iy)%nat with
  | Some row => row !! (if fx then nx - 1 - ix else ix)%nat
  | None => None
  end = flat !! (iy * nx + ix)%nat.
Proof.
  intros Hlen Hix Hiy rows rows1 rows2.
  assert (Hl1 : length rows1 = ny).
  { subst rows1 rows. destruct fx; rewrite ?length_map, chunks_length; reflexivity. }
  assert (E2 : rows2 !! (if fy then ny - 1 - iy else iy)%nat = rows1 !! iy).
  { subst rows2. destruct fy; [|reflexivity].
    rewrite reverse_lookup by lia. f_equal. lia. }
  rewrite E2.
  assert (Hrow : rows !! iy = Some (take nx (drop (iy * nx) flat))).
  { subst rows. apply chunks_lookup. exact Hiy. }
  assert (Hrl : length (take nx (drop (iy * nx) flat)) = nx).
  { apply chunk_length. nia. }
  subst rows1. destruct fx.
  - rewrite map_lookup, Hrow. simpl.
    rewrite reverse_lookup by lia. rewrite Hrl.
    replace (nx - S (nx - 1 - ix))%nat with ix by lia.
    apply chunk_lookup. exact Hix.
  - rewrite Hrow. apply chunk_lookup. exact Hix.
Qed.

Lemma grid3_lookup (flat : list Z) (nx ny nz : nat) (fx fy fz : bool) (ix iy iz : nat) :
  length flat = (nz * (ny * nx))%nat -> (ix < nx)%nat -> (iy < ny)%nat -> (iz < nz)%nat ->
  let planes := map (chunks ny nx) (chunks nz (ny * nx) flat) in
  let planes1 := if fx then map (map (@reverse Z)) planes else planes in
  let planes2 := if fy then map (@reverse (list Z)) planes1 else planes1 in
  let planes3 := if fz then reverse planes2 else planes2 in
  match planes3 !! (if fz then nz - 1 - iz else iz)%nat with
  | Some rows =>
      match rows !! (if fy then ny - 1 - iy else iy)%nat with
      | Some row => row !! (if fx then nx - 1 - ix else ix)%nat
      | None => None
      end
  | None => None
  end = flat !! (iz * (ny * nx) + iy * nx + ix)%nat.
Proof.
  intros Hlen Hix Hiy Hiz planes planes1 planes2 planes3.
  assert (Hl2 : length planes2 = nz).
  { subst planes2 planes1 planes.
    destruct fy, fx; rewrite ?length_map, chunks_length; reflexivity. }
  assert (E3 : planes3 !! (if fz then nz - 1 - iz else iz)%nat = planes2 !! iz).
  { subst planes3. destruct fz; [|reflexivity].
    rewrite reverse_lookup by lia. f_equal. lia. }
  rewrite E3.
  set (flat_z := take (ny * nx) (drop (iz * (ny * nx)) flat)).
  assert (Hplane : planes !! iz = Some (chunks ny nx flat_z)).
  { subst planes. rewrite map_lookup, chunks_lookup by exact Hiz. reflexivity. }
  assert (Hfz : length flat_z = (ny * nx)%nat).
  { subst flat_z. apply chunk_length. nia. }
  assert (E : planes2 !! iz =
              Some (let rows := chunks ny nx flat_z in
                    let rows1 := if fx then map (@reverse Z) rows else rows in
                    if fy then reverse rows1 else rows1)).
  { subst planes2 planes1. destruct fy, fx; rewrite ?map_lookup, Hplane; reflexivity. }
  rewrite E.
  pose proof (grid_lookup flat_z nx ny fx fy ix iy Hfz Hix Hiy) as G. simpl in G.
  simpl. rewrite G. subst flat_z.
  rewrite chunk_lookup by nia. f_equal. lia.
Qed.

(** C3 (amended). For every lattice the code builds, the pitch along
    each axis is the absolute difference of the two bounding-plane
    offsets.  The element with MCNP index k along an axis is stored at
    array position k - min, or at max - k when the first listed plane
    lies on the smaller-coordinate side (first minus second negative),
    and the lower face of that array position, lower_left + position *
    pitch, is the lower face of the element: the stored array is in
    increasing-coordinate order.  The id stored at the position of the
    element (kx, ky, kz) is the id the fill lists for it. *)
Theorem lattice_pitch_and_order (s : sides) (fill_text : string) (g : geometry) :
  lattice_geometry s fill_text = Ok g ->
  g_pitch g = map Qabs (vsub (g_v1 g) (g_v0 g)) /\
  (forall i k, (i < length (g_pitch g))%nat ->
     axis_lo g i <= k <= axis_hi g i ->
     0 <= stored_index g i k < axis_extent g i /\
     (position_low g i (stored_index g i k) == element_low g i k)%Q) /\
  (forall kx ky kz,
     axis_lo g 0 <= kx <= axis_hi g 0 ->
     axis_lo g 1 <= ky <= axis_hi g 1 ->
     (is_3d g = true -> axis_lo g 2 <= kz <= axis_hi g 2) ->
     arr_get (g_univ_ids g)
       (Z.to_nat (if is_3d g then stored_index g 2 kz else 0))
       (Z.to_nat (stored_index g 1 ky))
       (Z.to_nat (stored_index g 0 kx))
     = g_listed g !! Z.to_nat (listed_index g kx ky kz)).
Proof.
  unfold lattice_geometry. intros H.
  apply bind_ok in H. destruct H as ([v1 v0] & Hv & H).
  apply bind_ok in H. destruct H as (w & Hw & H).
  pose proof (fill_window_ordered _ _ Hw) as Hord.
  destruct (w_min w) as [[xmin ymin] zmin].
  destruct (w_max w) as [[xmax ymax] zmax].
  apply bind_ok in H. destruct H as (flat & Hflat & H).
  apply bind_ok in H. destruct H as (a & Ha & H).
  unfold bounding_vectors in Hv.
  apply bind_ok in Hv. destruct Hv as ([x1 x0] & Hx & Hv).
  apply bind_ok in Hv. destruct Hv as ([y1 y0] & Hy & Hv).
  destruct (side_z s) as [|z zs] eqn:Ez.
  - inversion Hv; subst v1 v0; clear Hv.
    cbn -[Qabs Qminus Qplus Qmult Qmin inject_Z Z.add Z.sub Z.mul Z.of_nat Z.to_nat
          chunks axis_lt0] in H, Ha.
    rewrite !axis_lt0_nth in H. cbn [nth] in H.
    destruct (Z.of_nat (length flat) =? (xmax - xmin + 1) * (ymax - ymin + 1)) eqn:El;
      [|discriminate].
    apply Z.eqb_eq in El.
    inversion Ha; subst a; clear Ha. inversion H; subst g; clear H.
    destruct Hord as (Hox & Hoy & Hoz).
    split; [reflexivity|]. split.
    + intros i k Hi Hk. cbn [g_pitch length map vsub zip_with] in Hi.
      unfold stored_index, axis_extent, axis_lo, axis_hi, position_low, element_low,
        axis_d in *.
      destruct i as [|[|i]]; [| |simpl in Hi; lia];
        cbn [nth g_index0 g_index1 g_v1 g_v0 g_pitch g_lower_left map vsub zip_with] in *.
      * split; [destruct (Qltb (x1 - x0) 0); lia|].
        apply (axis_position x1 x0 xmin xmax k); [lia | exact Hk].
      * split; [destruct (Qltb (y1 - y0) 0); lia|].
        apply (axis_position y1 y0 ymin ymax k); [lia | exact Hk].
    + intros kx ky kz Hkx Hky _.
      unfold stored_index, listed_index, axis_extent, axis_lo, axis_hi, axis_d, is_3d in *.
      cbn [nth g_index0 g_index1 g_v1 g_v0 g_pitch g_univ_ids g_listed length
           map vsub zip_with Nat.eqb] in *.
      set (fx := Qltb (x1 - x0) 0). set (fy := Qltb (y1 - y0) 0).
      pose proof (grid_lookup flat (Z.to_nat (xmax - xmin + 1)) (Z.to_nat (ymax - ymin + 1))
                    fx fy (Z.to_nat (kx - xmin)) (Z.to_nat (ky - ymin))) as G.
      simpl in G.
      replace (Z.to_nat (if fy then ymax - ky else ky - ymin))
        with (if fy then Z.to_nat (ymax - ymin + 1) - 1 - Z.to_nat (ky - ymin)
              else Z.to_nat (ky - ymin))%nat by (destruct fy; lia).
      replace (Z.to_nat (if fx then xmax - kx else kx - xmin))
        with (if fx then Z.to_nat (xmax - xmin + 1) - 1 - Z.to_nat (kx - xmin)
              else Z.to_nat (kx - xmin))%nat by (destruct fx; lia).
      replace (Z.to_nat ((0 * (ymax - ymin + 1) + (ky - ymin)) * (xmax - xmin + 1)
                         + (kx - xmin)))
        with (Z.to_nat (ky - ymin) * Z.to_nat (xmax - xmin + 1)
              + Z.to_nat (kx - xmin))%nat by nia.
      rewrite <- G; [|nia|lia|lia].
      destruct fy, fx; reflexivity.
  - apply bind_ok in Hv. destruct Hv as ([z1 z0] & Hz & Hv).
    inversion Hv; subst v1 v0; clear Hv.
    cbn -[Qabs Qminus Qplus Qmult Qmin inject_Z Z.add Z.sub Z.mul Z.of_nat Z.to_nat
          chunks axis_lt0] in H, Ha.
    rewrite !axis_lt0_nth in H. cbn [nth] in H.
    destruct (Z.of_nat (length flat)
              =? (xmax - xmin + 1) * (ymax - ymin + 1) * (zmax - zmin + 1)) eqn:El;
      [|discriminate].
    apply Z.eqb_eq in El.
    inversion Ha; subst a; clear Ha. inversion H; subst g; clear H.
    destruct Hord as (Hox & Hoy & Hoz).
    split; [reflexivity|]. split.
    + intros i k Hi Hk. cbn [g_pitch length map vsub zip_with] in Hi.
      unfold stored_index, axis_extent, axis_lo, axis_hi, position_low, element_low,
        axis_d in *.
      destruct i as [|[|[|i]]]; [| | |simpl in Hi; lia];
        cbn [nth g_index0 g_index1 g_v1 g_v0 g_pitch g_lower_left map vsub zip_with] in *.
      * split; [destruct (Qltb (x1 - x0) 0); lia|].
        apply (axis_position x1 x0 xmin xmax k); [lia | exact Hk].
      * split; [destruct (Qltb (y1 - y0) 0); lia|].
        apply (axis_position y1 y0 ymin ymax k); [lia | exact Hk].
      * split; [destruct (Qltb (z1 - z0) 0); lia|].
        apply (axis_position z1 z0 zmin zmax k); [lia | exact Hk].
    + intros kx ky kz Hkx Hky Hkz.
      unfold stored_index, listed_index, axis_extent, axis_lo, axis_hi, axis_d, is_3d in *.
      cbn [nth g_index0 g_index1 g_v1 g_v0 g_pitch g_univ_ids g_listed length
           map vsub zip_with Nat.eqb] in *.
      specialize (Hkz eq_refl).
      set (fx := Qltb (x1 - x0) 0). set (fy := Qltb (y1 - y0) 0).
      set (fz := Qltb (z1 - z0) 0).
      pose proof (grid3_lookup flat (Z.to_nat (xmax - xmin + 1))
                    (Z.to_nat (ymax - ymin + 1)) (Z.to_nat (zmax - zmin + 1))
                    fx fy fz (Z.to_nat (kx - xmin)) (Z.to_nat (ky - ymin))
                    (Z.to_nat (kz - zmin))) as G.
      simpl in G.
      replace (Z.to_nat (if fz then zmax - kz else kz - zmin))
        with (if fz then Z.to_nat (zmax - zmin + 1) - 1 - Z.to_nat (kz - zmin)
              else Z.to_nat (kz - zmin))%nat by (destruct fz; lia).
      replace (Z.to_nat (if fy then ymax - ky else ky - ymin))
        with (if fy then Z.to_nat (ymax - ymin + 1) - 1 - Z.to_nat (ky - ymin)
              else Z.to_nat (ky - ymin))%nat by (destruct fy; lia).
      replace (Z.to_nat (if fx then xmax - kx else kx - xmin))
        with (if fx then Z.to_nat (xmax - xmin + 1) - 1 - Z.to_nat (kx - xmin)
              else Z.to_nat (kx - xmin))%nat by (destruct fx; lia).
      replace (Z.to_nat (((kz - zmin) * (ymax - ymin + 1) + (ky - ymin))
                         * (xmax - xmin + 1) + (kx - xmin)))
        with (Z.to_nat (kz - zmin)
              * (Z.to_nat (ymax - ymin + 1) * Z.to_nat (xmax - xmin + 1))
              + Z.to_nat (ky - ymin) * Z.to_nat (xmax - xmin + 1)
              + Z.to_nat (kx - xmin))%nat by (symmetry; apply to_nat_index3; lia).
      assert (Hsz : Z.to_nat ((xmax - xmin + 1) * (ymax - ymin + 1))
                    = (Z.to_nat (ymax - ymin + 1) * Z.to_nat (xmax - xmin + 1))%nat).
      { rewrite Z2Nat.inj_mul by lia. apply Nat.mul_comm. }
      rewrite <- G; [| |lia|lia|lia].
      2:{ apply Nat2Z.inj. rewrite El. rewrite !Nat2Z.inj_mul, !Z2Nat.id by lia. ring. }
      rewrite Hsz.
      destruct fz, fy, fx; reflexivity.
Qed.

(** The lattice of the example: the element with MCNP index 0 is stored
    at array position 2. *)
Lemma lattice_pitch_and_order_witness :
  exists g,
    lattice_geometry example_sides example_fill = Ok g /\
    g_pitch g = map Qabs (Lattice.vsub (g_v1 g) (g_v0 g)) /\
    stored_index g 0 0 = 2 /\
    (position_low g 0 (stored_index g 0 0) == element_low g 0 0)%Q /\
    arr_get (g_univ_ids g) 0 (Z.to_nat (stored_index g 1 0))
      (Z.to_nat (stored_index g 0 0)) = g_listed g !! Z.to_nat (listed_index g 0 0 0).
Proof.
  destruct (lattice_geometry example_sides example_fill) as [g|e] eqn:E;
    [|vm_compute in E; discriminate E].
  exists g. split; [reflexivity|].
  destruct (lattice_pitch_and_order example_sides example_fill g E) as (Hp & Hpos & Harr).
  assert (Eg : Ok g = lattice_geometry example_sides example_fill) by (symmetry; exact E).
  vm_compute in Eg. injection Eg as Eg.
  split; [exact Hp|].
  split; [rewrite Eg; reflexivity|].
  split.
  - apply Hpos; rewrite Eg; [cbn; lia | vm_compute; split; discriminate].
  - subst g.
    exact (Harr 0 0 0 ltac:(vm_compute; split; discriminate)
             ltac:(vm_compute; split; discriminate)
             ltac:(intros H; vm_compute in H; discriminate H)).
Defined.

(** C3 as stated fails on its example.  With the planes x = 0 and x = 10
    listed in this order and the universes 7, 8, 9 for the indices 0, 1,
    2, the stored row is 9, 8, 7: array position 0 spans x = -20 to
    x = -10 and is not a position nearest to x = 0; the universe of index
    0 is stored at array position 2, which spans x = 0 to x = 10 and is
    one. *)
Lemma lattice_index0_not_nearest_origin :
  exists g,
    lattice_geometry example_sides example_fill = Ok g /\
    g_univ_ids g = Arr2 [[9; 8; 7]] /\
    (position_low g 0 0 == -20)%Q /\ (position_high g 0 0 == -10)%Q /\
    (position_low g 0 2 == 0)%Q /\ (position_high g 0 2 == 10)%Q /\
    ~ nearest_to g 0 0 0 /\
    nearest_to g 0 0 2.
Proof.
  eexists. split; [vm_compute; reflexivity|].
  split; [reflexivity|].
  split; [vm_compute; reflexivity|]. split; [vm_compute; reflexivity|].
  split; [vm_compute; reflexivity|]. split; [vm_compute; reflexivity|].
  split.
  - intros H.
    assert (H2 := H 2 ltac:(vm_compute; split; [discriminate | reflexivity])).
    vm_compute in H2. apply H2. reflexivity.
  - intros j Hj.
    assert (Hcases : j = 0 \/ j = 1 \/ j = 2) by (change (0 <= j < 3) in Hj; lia).
    destruct Hcases as [->|[->| ->]]; vm_compute; discriminate.
Qed.





Lemma skip_used_ge (fuel : nat) (used : gset Z) (n : Z) :
  n <= skip_used fuel used n.
Proof.
  revert n. induction fuel as [|fuel IH]; simpl; intros n; [lia|].
  destruct (decide (n ∈ used)); [|lia]. specialize (IH (n + 1)). lia.
Qed.

Lemma skip_used_fresh (fuel : nat) (used : gset Z) (n : Z) :
  (size (filter (fun x : Z => (n <= x)%Z) used) < fuel)%nat ->
  skip_used fuel used n ∉ used.
Proof.
  revert n. induction fuel as [|fuel IH]; simpl; intros n Hsize; [lia|].
  destruct (decide (n ∈ used)) as [Hin|Hout]; [|exact Hout].
  apply IH.
  assert (Hsub : filter (fun x : Z => (n + 1 <= x)%Z) used ⊂ filter (fun x : Z => (n <= x)%Z) used).
  { split.
    - intros x Hx. apply elem_of_filter in Hx. apply elem_of_filter.
      destruct Hx as [Hx1 Hx2]. split; [lia | exact Hx2].
    - intros Hsup. assert (Hn : n ∈ filter (fun x : Z => (n + 1 <= x)%Z) used).
      { apply Hsup. apply elem_of_filter. split; [lia | exact Hin]. }
      apply elem_of_filter in Hn. lia. }
  apply subset_size in Hsub. lia.
Qed.

Lemma auto_id_spec (m m' : id_manager) (n : Z) :
  auto_id m = (n, m') ->
  (n ∉ used_ids m) /\ next_id m <= n /\ next_id m' = n /\
  used_ids m' = {[ n ]} ∪ used_ids m.
Proof.
  unfold auto_id.
  assert (Hs : (size (filter (fun x : Z => (next_id m <= x)%Z) (used_ids m))
                < S (size (used_ids m)))%nat).
  { apply Nat.lt_succ_r, subseteq_size. intros x Hx.
    apply elem_of_filter in Hx. tauto. }
  remember (S (size (used_ids m))) as fuel eqn:Ef. clear Ef.
  intros H. injection H as Hn Hm. subst n m'. cbn [next_id used_ids].
  split; [apply skip_used_fresh; exact Hs|].
  split; [apply skip_used_ge | split; reflexivity].
Qed.


Lemma extends_refl (st : conv_state) : extends st st.
Proof. unfold extends. repeat split; auto. lia. Qed.

Lemma extends_trans (st1 st2 st3 : conv_state) :
  extends st1 st2 -> extends st2 st3 -> extends st1 st3.
Proof.
  intros (A1 & B1 & C1 & D1 & E1) (A2 & B2 & C2 & D2 & E2).
  unfold extends. repeat split; auto; try lia; congruence.
Qed.

Lemma wrap_in_universe_spec (f : fill) (t : option (list Q)) (st st' : conv_state) (u : Z) :
  ids_consistent st ->
  wrap_in_universe f t st = (u, st') ->
  exists cid,
    cs_universes st !! u = None /\ cs_cells st !! cid = None /\
    cs_universes st' = <[u := single_cell_universe cid]> (cs_universes st) /\
    cs_cells st' = <[cid := {| oc_region := None; oc_fill := f;
                               oc_translation := t |}]> (cs_cells st) /\
    next_id (cs_universe_ids st) <= u /\ next_id (cs_universe_ids st') = u /\
    ids_consistent st' /\ extends st st'.
Proof.
  intros [Hu Hc] H. unfold wrap_in_universe in H.
  destruct (auto_id (cs_cell_ids st)) as [cid cids] eqn:Ec.
  destruct (auto_id (cs_universe_ids st)) as [uid uids] eqn:Eu.
  apply auto_id_spec in Ec. destruct Ec as (Hc1 & Hc2 & Hc3 & Hc4).
  apply auto_id_spec in Eu. destruct Eu as (Hu1 & Hu2 & Hu3 & Hu4).
  injection H as <- <-. exists cid.
  assert (Hnu : cs_universes st !! uid = None).
  { apply not_elem_of_dom. intros Hin. apply Hu1, Hu, Hin. }
  assert (Hnc : cs_cells st !! cid = None).
  { apply not_elem_of_dom. intros Hin. apply Hc1, Hc, Hin. }
  cbn [cs_universes cs_cells cs_universe_ids cs_cell_ids].
  split; [exact Hnu|]. split; [exact Hnc|]. split; [reflexivity|].
  split; [reflexivity|]. split; [exact Hu2|]. split; [exact Hu3|]. split.
  - split; cbn [cs_universes cs_cells cs_universe_ids cs_cell_ids].
    + rewrite dom_insert_L, Hu4. set_solver.
    + rewrite dom_insert_L, Hc4. set_solver.
  - unfold extends. cbn. repeat split; try reflexivity.
    + intros k x Hk. rewrite lookup_insert_ne; [exact Hk | congruence].
    + intros k x Hk. rewrite lookup_insert_ne; [exact Hk | congruence].
    + lia.
Qed.

Lemma get_universe_spec (uid : Z) (st : conv_state) :
  ids_consistent st ->
  ids_consistent (get_universe uid st) /\ extends st (get_universe uid st) /\
  is_Some (cs_universes (get_universe uid st) !! uid) /\
  next_id (cs_universe_ids (get_universe uid st)) = next_id (cs_universe_ids st).
Proof.
  intros [Hu Hc]. unfold get_universe.
  destruct (cs_universes st !! uid) as [u|] eqn:E.
  - split; [split; assumption|]. split; [apply extends_refl|].
    split; [rewrite E; eauto | reflexivity].
  - split; [|split; [|split]].
    + split; cbn; [|exact Hc]. rewrite dom_insert_L. set_solver.
    + unfold extends. cbn. repeat split; auto; try lia.
      intros k x Hk. rewrite lookup_insert_ne; [exact Hk | congruence].
    + cbn. rewrite lookup_insert_eq. eauto.
    + reflexivity.
Qed.

Lemma arr_flat_map (f : Z -> Z) (a : ndarray) :
  arr_flat (arr_map f a) = map f (arr_flat a).
Proof.
  destruct a as [rows|planes]; simpl.
  - induction rows as [|r rows IH]; simpl; [reflexivity|].
    rewrite map_app, IH. reflexivity.
  - induction planes as [|p planes IH]; simpl; [reflexivity|].
    rewrite map_app, <- IH. f_equal.
    induction p as [|r p IHp]; simpl; [reflexivity|].
    rewrite map_app, IHp. reflexivity.
Qed.

Lemma in_concat_reverse {A : Type} (x : A) (l : list (list A)) :
  In x (concat (reverse l)) <-> In x (concat l).
Proof.
  rewrite !in_concat. split; intros (r & Hr & Hx); exists r; split; auto.
  - apply list_elem_of_In. apply list_elem_of_In in Hr.
    rewrite elem_of_reverse in Hr. exact Hr.
  - apply list_elem_of_In. rewrite elem_of_reverse. apply list_elem_of_In. exact Hr.
Qed.

Lemma in_arr_flat_flip_y (x : Z) (a : ndarray) :
  In x (arr_flat (flip_y a)) <-> In x (arr_flat a).
Proof.
  destruct a as [rows|planes]; simpl.
  - apply in_concat_reverse.
  - induction planes as [|p planes IH]; simpl; [reflexivity|].
    rewrite !in_app_iff, IH, in_concat_reverse. reflexivity.
Qed.

Lemma arr_replace_fresh (old new U : Z) (a : ndarray) :
  new <> U -> (forall x, In x (arr_flat a) -> x <> U \/ x = old) ->
  forall x, In x (arr_flat (arr_replace old new a)) -> x <> U.
Proof.
  intros Hnew Ha x Hx. unfold arr_replace in Hx. rewrite arr_flat_map in Hx.
  apply in_map_iff in Hx. destruct Hx as (y & <- & Hy).
  destruct (y =? old) eqn:E; [exact Hnew|].
  destruct (Ha y Hy) as [Hne | ->]; [exact Hne|]. rewrite Z.eqb_refl in E. discriminate.
Qed.

Lemma translate_universes_spec (U : Z) (shift : list Q) :
  forall (uids : list Z) (a a' : ndarray) (st st' : conv_state),
    ids_consistent st ->
    U < next_id (cs_universe_ids st) ->
    (forall x, In x (arr_flat a) -> x <> U) ->
    translate_universes shift uids a st = (a', st') ->
    ids_consistent st' /\ extends st st' /\
    (forall x, In x (arr_flat a') -> x <> U).
Proof.
  induction uids as [|uid uids IH]; intros a a' st st' Hc HU Ha H;
    cbn [translate_universes] in H.
  - injection H as <- <-. split; [exact Hc|]. split; [apply extends_refl | exact Ha].
  - destruct (get_universe_spec uid st Hc) as (Hc1 & He1 & _ & Hn1).
    destruct (wrap_in_universe (FillUniverse uid) (Some shift) (get_universe uid st))
      as [u st2] eqn:Ew.
    destruct (wrap_in_universe_spec _ _ _ _ _ Hc1 Ew)
      as (cid & _ & _ & _ & _ & Hge & Hnext & Hc2 & He2).
    destruct (IH (arr_replace uid u a) a' st2 st' Hc2) as (Hc' & He' & Ha'); auto.
    + lia.
    + apply arr_replace_fresh; [lia|]. intros x Hx. left. apply Ha. exact Hx.
    + split; [exact Hc'|]. split; [|exact Ha'].
      eapply extends_trans; [exact He1|]. eapply extends_trans; [exact He2 | exact He'].
Qed.

Lemma get_universes_spec (a : ndarray) (st : conv_state) :
  ids_consistent st ->
  ids_consistent (get_universes a st) /\ extends st (get_universes a st).
Proof.
  unfold get_universes. generalize (arr_flat a) as l. intros l. revert st.
  induction l as [|uid l IH]; simpl; intros st Hc.
  - split; [exact Hc | apply extends_refl].
  - destruct (get_universe_spec uid st Hc) as (Hc1 & He1 & _).
    destruct (IH _ Hc1) as (Hc2 & He2).
    split; [exact Hc2 | eapply extends_trans; eauto].
Qed.


Lemma geometry_has_sides (s : sides) (fill_text : string) (g : geometry) :
  lattice_geometry s fill_text = Ok g ->
  bool_decide (side_x s = []) || bool_decide (side_y s = []) = false.
Proof.
  unfold lattice_geometry, bounding_vectors. intros H.
  apply bind_ok in H. destruct H as (vs & Hv & _).
  apply bind_ok in Hv. destruct Hv as (x & Hx & Hv).
  apply bind_ok in Hv. destruct Hv as (y & Hy & _).
  destruct (side_x s) as [|? [|? [|]]]; try discriminate.
  destruct (side_y s) as [|? [|? [|]]]; try discriminate.
  reflexivity.
Qed.

Lemma geometry_bounds (s : sides) (fill_text : string) (g : geometry) :
  lattice_geometry s fill_text = Ok g -> exists vs, bounding_vectors s = Ok vs.
Proof.
  unfold lattice_geometry. intros H.
  apply bind_ok in H. destruct H as (vs & Hv & _). eauto.
Qed.

(** The run of the block on a lattice that names its own universe, in
    a state whose ids are registered and for a cell with a material: the
    auxiliary universe is new and differs from U, holds one new cell
    filled with the material, and the array stored on the lattice has no
    element equal to U. *)
Lemma lattice_self_fill_run
    (materials : gmap Z (gmap string Z)) (c : cell) (r : region) (st : conv_state)
    (U lat : Z) (lat_text fill_text : string) (by_density : gmap string Z) (m : Z)
    (nodes : list region) (s : sides) (g : geometry) :
  ids_consistent st ->
  0 < c_material c ->
  materials !! c_material c = Some by_density ->
  by_density !! c_density c = Some m ->
  c_parameters c !! "lat" = Some lat_text -> Py.int lat_text = Ok lat -> lat <> 2 ->
  universe_tag c = Some (Ok U) ->
  U < next_id (cs_universe_ids st) ->
  region_nodes r = Ok nodes -> (4 <= length nodes)%nat ->
  collect_sides (cs_surfaces st) nodes {| side_x := []; side_y := []; side_z := [] |}
    = Ok s ->
  c_parameters c !! "fill" = Some fill_text ->
  lattice_geometry s fill_text = Ok g ->
  In U (arr_flat (g_univ_ids g)) ->
  exists st' aux cid lat_u data,
    lattice_cell materials c r st = Ok (st', true) /\
    aux <> U /\ cs_universes st !! aux = None /\ cs_cells st !! cid = None /\
    cs_universes st' !! aux = Some (single_cell_universe cid) /\
    cs_cells st' !! cid = Some (material_cell m) /\
    cs_universes st' !! U = Some lat_u /\ u_lattice lat_u = Some data /\
    (forall x, In x (arr_flat (lat_universes data)) -> x <> U) /\
    (centered (center (g_v0 g) (g_v1 g)) = true ->
     lat_universes data = flip_y (arr_replace U aux (g_univ_ids g))).
Proof.
  intros Hc Hmat Hm1 Hm2 Hlat Hint Hne Htag HU Hnodes Hlen Hsides Hfill Hg HinU.
  unfold lattice_cell, bind_material.
  assert (E : 0 <? c_material c = true) by (apply Z.ltb_lt; exact Hmat).
  rewrite E, Hm1, Hm2. cbn [bind].
  set (st1 := set_mat st (Some m)).
  assert (Hc1 : ids_consistent st1) by exact Hc.
  unfold build_lattice. rewrite Hlat, Hint. cbn [bind].
  assert (E2 : lat =? 2 = false) by (apply Z.eqb_neq; exact Hne). rewrite E2.
  rewrite Htag. cbn [bind]. rewrite Hnodes. cbn [bind].
  assert (E4 : (length nodes <? 4)%nat = false) by (apply Nat.ltb_ge; exact Hlen).
  rewrite E4.
  change (cs_surfaces st1) with (cs_surfaces st). rewrite Hsides. cbn [bind].
  rewrite (geometry_has_sides _ _ _ Hg).
  destruct (geometry_bounds _ _ _ Hg) as [vs Hvs]. rewrite Hvs. cbn [bind].
  rewrite Hfill. cbn [bind]. rewrite Hg. cbn [bind].
  set (st0 := match cs_universes st1 !! U with
              | Some _ => st1
              | None => create_universe U new_lattice st1
              end).
  assert (H0 : ids_consistent st0 /\ extends st1 st0 /\
               is_Some (cs_universes st0 !! U) /\
               next_id (cs_universe_ids st0) = next_id (cs_universe_ids st) /\
               cs_mat st0 = Some m).
  { subst st0. destruct (cs_universes st1 !! U) as [u|] eqn:EU.
    - split; [exact Hc1|]. split; [|split; [rewrite EU; eauto | split; reflexivity]].
      unfold extends. cbn. repeat split; auto. lia.
    - destruct Hc as [Hcu Hcc]. split; [|split; [|split; [|split; reflexivity]]].
      + split; cbn; [|exact Hcc]. rewrite dom_insert_L.
        intros x Hx. apply elem_of_union in Hx. apply elem_of_union.
        destruct Hx as [Hx|Hx]; [left; exact Hx | right; apply Hcu; exact Hx].
      + unfold extends. cbn. repeat split; auto; try lia.
        intros k x Hk. rewrite lookup_insert_ne; [exact Hk|].
        intros <-. cbn in EU. congruence.
      + cbn. rewrite lookup_insert_eq. eauto. }
  clearbody st0. destruct H0 as (Hc0 & He0 & [lat0 HU0] & Hn0 & Hmat0).
  assert (Hex : existsb (Z.eqb U) (arr_flat (g_univ_ids g)) = true).
  { apply existsb_exists. exists U. split; [exact HinU | apply Z.eqb_refl]. }
  unfold self_fill. rewrite Hex, Hmat0.
  destruct (wrap_in_universe (FillMaterial m) None st0) as [aux st2] eqn:Ew.
  destruct (wrap_in_universe_spec _ _ _ _ _ Hc0 Ew)
    as (cid & Hfa & Hfc & Hu2 & Hcell2 & Hge & Hnext & Hc2 & He2).
  cbn [bind].
  set (a1 := arr_replace U aux (g_univ_ids g)).
  assert (Haux : aux <> U) by lia.
  assert (Ha1 : forall x, In x (arr_flat a1) -> x <> U).
  { apply arr_replace_fresh; [exact Haux|]. intros x _.
    destruct (decide (x = U)); [right | left]; assumption. }
  assert (H3 : exists a2 st3,
            (if centered (center (g_v0 g) (g_v1 g)) then (a1, st2)
             else translate_universes (map Qopp (center (g_v0 g) (g_v1 g)))
                    (unique a1) a1 st2) = (a2, st3) /\
            ids_consistent st3 /\ extends st2 st3 /\
            (forall x, In x (arr_flat a2) -> x <> U) /\
            (centered (center (g_v0 g) (g_v1 g)) = true -> a2 = a1)).
  { destruct (centered (center (g_v0 g) (g_v1 g))).
    - exists a1, st2. split; [reflexivity|]. split; [exact Hc2|].
      split; [apply extends_refl|]. split; [exact Ha1 | reflexivity].
    - destruct (translate_universes (map Qopp (center (g_v0 g) (g_v1 g)))
                  (unique a1) a1 st2) as [a2 st3] eqn:Et.
      destruct (translate_universes_spec U _ _ _ _ _ _ Hc2 ltac:(lia) Ha1 Et)
        as (Hc3 & He3 & Ha2).
      exists a2, st3. split; [reflexivity|]. split; [exact Hc3|].
      split; [exact He3|]. split; [exact Ha2 | discriminate]. }
  destruct H3 as (a2 & st3 & -> & Hc3 & He3 & Ha2 & Hcen).
  destruct (get_universes_spec a2 st3 Hc3) as (Hc4 & He4).
  set (st4 := get_universes a2 st3) in *.
  assert (He24 : extends st2 st4) by (eapply extends_trans; eauto).
  assert (He04 : extends st0 st4) by (eapply extends_trans; eauto).
  destruct He24 as (Hu24 & Hc24 & _).
  destruct He04 as (Hu04 & _).
  destruct He0 as (Hu0 & Hcl0 & _).
  change (cs_universes st1) with (cs_universes st) in Hu0.
  change (cs_cells st1) with (cs_cells st) in Hcl0.
  eexists _, aux, cid, _, _.
  split; [reflexivity|]. split; [exact Haux|].
  split.
  { destruct (cs_universes st !! aux) as [x|] eqn:Ex; [|reflexivity].
    rewrite (Hu0 _ _ Ex) in Hfa. discriminate. }
  split.
  { destruct (cs_cells st !! cid) as [x|] eqn:Ex; [|reflexivity].
    rewrite (Hcl0 _ _ Ex) in Hfc. discriminate. }
  cbn [set_lattice set_universes cs_universes cs_cells].
  split.
  { rewrite lookup_alter_ne by congruence. apply Hu24. rewrite Hu2.
    apply lookup_insert_eq. }
  split.
  { apply Hc24. rewrite Hcell2. apply lookup_insert_eq. }
  split.
  { rewrite lookup_alter_eq. rewrite (Hu04 _ _ HU0). reflexivity. }
  split; [reflexivity|].
  cbn [lat_universes]. split.
  - intros x Hx. rewrite in_arr_flat_flip_y in Hx. apply Ha2. exact Hx.
  - intros Hcd. rewrite (Hcen Hcd). reflexivity.
Qed.

Lemma self_fill_state_consistent : ids_consistent self_fill_state.
Proof.
  split; cbn.
  - rewrite dom_singleton_L. reflexivity.
  - rewrite dom_empty_L. apply empty_subseteq.
Qed.

Lemma bind_material_keeps (materials : gmap Z (gmap string Z)) (c : cell)
    (st st1 : conv_state) :
  bind_material materials c st = Ok st1 ->
  cs_surfaces st1 = cs_surfaces st /\ cs_universes st1 = cs_universes st /\
  cs_cells st1 = cs_cells st.
Proof.
  unfold bind_material. intros H.
  destruct (0 <? c_material c).
  - destruct (materials !! c_material c) as [d|]; [|discriminate].
    destruct (d !! c_density c) as [m|]; [|discriminate].
    inversion H; subst st1. repeat split.
  - inversion H; subst st1. repeat split.
Qed.

(** C4 (fails on the code). A lattice whose grid names the universe U
    of its own cell is never completed.  When [mat] is bound, by this cell or left over
    from an earlier one, the block makes the auxiliary universe, but it
    has rebound the loop variable [c] to the new cell, and the test for
    a volume that ends the loop body raises [TypeError]; when [mat] is
    not bound the block itself raises [UnboundLocalError].  So the
    conversion of a model with such a lattice never returns. *)
Theorem self_filling_lattice_aborts
    (materials : gmap Z (gmap string Z)) (c : cell) (r : region) (st : conv_state)
    (U lat : Z) (lat_text fill_text : string)
    (nodes : list region) (s : sides) (g : geometry) :
  c_parameters c !! "lat" = Some lat_text -> Py.int lat_text = Ok lat -> lat <> 2 ->
  universe_tag c = Some (Ok U) ->
  region_nodes r = Ok nodes -> (4 <= length nodes)%nat ->
  collect_sides (cs_surfaces st) nodes {| side_x := []; side_y := []; side_z := [] |}
    = Ok s ->
  c_parameters c !! "fill" = Some fill_text ->
  lattice_geometry s fill_text = Ok g ->
  In U (arr_flat (g_univ_ids g)) ->
  (forall st', finish_lattice_cell materials c r st <> Ok st') /\
  (forall st1, bind_material materials c st = Ok st1 ->
     (cs_mat st1 = None ->
      finish_lattice_cell materials c r st = Raise UnboundLocalError) /\
     (is_Some (cs_mat st1) ->
      (exists st', lattice_cell materials c r st = Ok (st', true)) /\
      finish_lattice_cell materials c r st = Raise TypeError)).
Proof.
  intros Hlat Hint Hne Htag Hnodes Hlen Hsides Hfill Hg HinU.
  assert (Hex : existsb (Z.eqb U) (arr_flat (g_univ_ids g)) = true).
  { apply existsb_exists. exists U. split; [exact HinU | apply Z.eqb_refl]. }
  assert (Hrun : forall st1, bind_material materials c st = Ok st1 ->
            (cs_mat st1 = None -> build_lattice c r st1 = Raise UnboundLocalError) /\
            (is_Some (cs_mat st1) -> exists st', build_lattice c r st1 = Ok (st', true))).
  { intros st1 Hb. destruct (bind_material_keeps _ _ _ _ Hb) as (Hs1 & _ & _).
    unfold build_lattice. rewrite Hlat, Hint. cbn [bind].
    assert (E2 : (lat =? 2) = false) by (apply Z.eqb_neq; exact Hne). rewrite E2.
    rewrite Htag. cbn [bind]. rewrite Hnodes. cbn [bind].
    assert (E4 : (length nodes <? 4)%nat = false) by (apply Nat.ltb_ge; exact Hlen).
    rewrite E4, Hs1, Hsides. cbn [bind].
    rewrite (geometry_has_sides _ _ _ Hg).
  destruct (geometry_bounds _ _ _ Hg) as [vs Hvs]. rewrite Hvs. cbn [bind].
  rewrite Hfill. cbn [bind]. rewrite Hg. cbn [bind].
    set (st0 := match cs_universes st1 !! U with
                | Some _ => st1
                | None => create_universe U new_lattice st1
                end).
    assert (Hm0 : cs_mat st0 = cs_mat st1).
    { subst st0. destruct (cs_universes st1 !! U); reflexivity. }
    unfold self_fill. rewrite Hex, Hm0. split.
    - intros ->. reflexivity.
    - intros [m ->].
      destruct (wrap_in_universe (FillMaterial m) None st0) as [aux st2]. cbn [bind].
      destruct (if centered (center (g_v0 g) (g_v1 g))
                then (arr_replace U aux (g_univ_ids g), st2)
                else translate_universes (map Qopp (center (g_v0 g) (g_v1 g)))
                       (unique (arr_replace U aux (g_univ_ids g)))
                       (arr_replace U aux (g_univ_ids g)) st2) as [a2 st3].
      eexists. reflexivity. }
  assert (Hcases : forall st1, bind_material materials c st = Ok st1 ->
            (cs_mat st1 = None ->
             finish_lattice_cell materials c r st = Raise UnboundLocalError) /\
            (is_Some (cs_mat st1) ->
             (exists st', lattice_cell materials c r st = Ok (st', true)) /\
             finish_lattice_cell materials c r st = Raise TypeError)).
  { intros st1 Hb. destruct (Hrun st1 Hb) as [Hnone Hsome].
    unfold finish_lattice_cell, lattice_cell. rewrite Hb. cbn [bind]. split.
    - intros Hn. rewrite (Hnone Hn). reflexivity.
    - intros Hs. destruct (Hsome Hs) as [st' E]. rewrite E. cbn [bind].
      split; [eauto | reflexivity]. }
  split; [|exact Hcases].
  intros st' H.
  destruct (bind_material materials c st) as [st1|e] eqn:Hb.
  - destruct (Hcases st1 eq_refl) as [Hnone Hsome].
    destruct (cs_mat st1) as [m|] eqn:Em.
    + destruct (Hsome ltac:(eauto)) as [_ E]. rewrite E in H. discriminate H.
    + rewrite (Hnone eq_refl) in H. discriminate H.
  - unfold finish_lattice_cell, lattice_cell in H. rewrite Hb in H. discriminate H.
Qed.

(** The lattice of universe 5 whose fill lists 5, 8, 5, centred on the
    origin: the material is bound, the auxiliary universe is made, and
    the conversion ends with [TypeError]. *)
Lemma self_filling_lattice_aborts_witness :
  (exists st', lattice_cell self_fill_materials self_fill_cell self_fill_region centred_state
               = Ok (st', true)) /\
  finish_lattice_cell self_fill_materials self_fill_cell self_fill_region centred_state
  = Raise TypeError.
Proof.
  destruct (lattice_geometry {| side_x := [-5; 5]%Q; side_y := [-5; 5]%Q; side_z := [] |}
              "0:2 0:0 0:0 5 8 5") as [g|e] eqn:Eg; [|vm_compute in Eg; discriminate Eg].
  assert (Hin : In 5 (arr_flat (g_univ_ids g))).
  { vm_compute in Eg. inversion Eg; subst g. simpl. auto. }
  destruct (self_filling_lattice_aborts self_fill_materials self_fill_cell self_fill_region
              centred_state 5 1 "1" "0:2 0:0 0:0 5 8 5"
              [Halfspace 1 true; Halfspace 2 false; Halfspace 3 true; Halfspace 4 false]
              {| side_x := [-5; 5]%Q; side_y := [-5; 5]%Q; side_z := [] |} g
              eq_refl eq_refl ltac:(discriminate) eq_refl eq_refl ltac:(simpl; lia)
              eq_refl eq_refl Eg Hin) as [_ Hcases].
  destruct (Hcases (set_mat centred_state (Some 3)) eq_refl) as [_ Hsome].
  refine (Hsome _). exists 3. reflexivity.
Defined.

Example self_fill_example_aborts :
  finish_lattice_cell self_fill_materials self_fill_cell self_fill_region self_fill_state
  = Raise TypeError.
Proof. vm_compute. reflexivity. Qed.

End LatticeProperties.

(** ** Final pass *)

Section FinalPassProperties.
Import Regions FinalPass.


(** Induction over regions that reaches the nodes of intersections and
    unions. *)
Lemma region_nested_ind (P : region -> Prop) :
  (forall s p, P (Halfspace s p)) ->
  (forall l, Forall P l -> P (Intersection l)) ->
  (forall l, Forall P l -> P (Union l)) ->
  (forall n, P n -> P (Complement n)) ->
  forall r, P r.
Proof.
  intros Hh Hi Hu Hc.
  fix IH 1. intros [s p|l|l|n].
  - apply Hh.
  - apply Hi. induction l as [|x l IHl]; constructor; [apply IH | exact IHl].
  - apply Hu. induction l as [|x l IHl]; constructor; [apply IH | exact IHl].
  - apply Hc. apply IH.
Qed.

Lemma cells_get_keys (cells : cell_table) (k : Z) :
  is_Some (cells_get cells k) <-> In k (map fst cells).
Proof.
  induction cells as [|[k' r] cells IH]; simpl.
  - split; [intros [x Hx]; discriminate | contradiction].
  - destruct (k' =? k) eqn:E.
    + apply Z.eqb_eq in E. split; [auto | eauto].
    + apply Z.eqb_neq in E. rewrite IH. split; [auto | intros [?|?]; [contradiction | assumption]].
Qed.

Lemma redirect_to_present (cells : cell_table) (sid : Z) :
  In sid (map fst cells) -> redirect_to cells sid = Ok (CComplementOfCell sid).
Proof.
  intros H. apply cells_get_keys in H. destruct H as [x Hx].
  unfold redirect_to. rewrite Hx. reflexivity.
Qed.

Lemma redirect_to_absent (cells : cell_table) (sid : Z) :
  ~ In sid (map fst cells) -> redirect_to cells sid = Raise KeyError.
Proof.
  intros H. unfold redirect_to.
  destruct (cells_get cells sid) eqn:E; [|reflexivity].
  exfalso. apply H. apply cells_get_keys. eauto.
Qed.

Lemma reached_dec (keys : list Z) (l : list Z) :
  (forall N, In N l -> In N keys) \/ (exists N, In N l /\ ~ In N keys).
Proof.
  induction l as [|x l IH].
  - left. intros N [].
  - destruct (in_dec Z.eq_dec x keys) as [Hx|Hx].
    + destruct IH as [IH|(N & HN & HN')].
      * left. intros N [<-|HN]; auto.
      * right. exists N. split; [right; exact HN | exact HN'].
    + right. exists x. split; [left; reflexivity | exact Hx].
Qed.

Lemma for_each_outcome (cells : cell_table) (l : list region) :
  Forall (fun r =>
     ((forall N, In N (reached r) -> In N (map fst cells)) ->
      replace_complement cells (of_region r) = Ok (expand r)) /\
     ((exists N, In N (reached r) /\ ~ In N (map fst cells)) ->
      replace_complement cells (of_region r) = Raise KeyError)) l ->
  ((forall N, In N (flat_map reached l) -> In N (map fst cells)) ->
   for_each (replace_complement cells) (map of_region l) = Ok (map expand l)) /\
  ((exists N, In N (flat_map reached l) /\ ~ In N (map fst cells)) ->
   for_each (replace_complement cells) (map of_region l) = Raise KeyError).
Proof.
  induction 1 as [|r l [Hok Herr] _ [IHok IHerr]]; simpl.
  - split; [reflexivity|]. intros (N & [] & _).
  - split.
    + intros Hall. rewrite Hok, IHok; [reflexivity| |];
        intros N HN; apply Hall; apply in_or_app; auto.
    + intros (N & HN & Hmiss). apply in_app_or in HN.
      destruct (reached_dec (map fst cells) (reached r)) as [Hr|Hr].
      * rewrite (Hok Hr). simpl. destruct HN as [HN|HN].
        { exfalso. apply Hmiss, Hr, HN. }
        rewrite IHerr; [reflexivity|]. exists N. auto.
      * rewrite (Herr Hr). reflexivity.
Qed.

(** The outcome of the traversal of one region. *)
Lemma replace_complement_outcome (cells : cell_table) (r : region) :
  ((forall N, In N (reached r) -> In N (map fst cells)) ->
   replace_complement cells (of_region r) = Ok (expand r)) /\
  ((exists N, In N (reached r) /\ ~ In N (map fst cells)) ->
   replace_complement cells (of_region r) = Raise KeyError).
Proof.
  induction r as [s p|l IH|l IH|n IH] using region_nested_ind.
  - split; [reflexivity|]. intros (N & [] & _).
  - destruct (for_each_outcome cells l IH) as [Hok Herr]. split; intros H; simpl.
    + rewrite (Hok H). reflexivity.
    + rewrite (Herr H). reflexivity.
  - destruct (for_each_outcome cells l IH) as [Hok Herr]. split; intros H; simpl.
    + rewrite (Hok H). reflexivity.
    + rewrite (Herr H). reflexivity.
  - destruct n as [s p|l|l|n]; simpl.
    + split.
      * intros H. apply redirect_to_present. apply H. left. reflexivity.
      * intros (N & [<-|[]] & Hmiss). apply redirect_to_absent. exact Hmiss.
    + split; [reflexivity|]. intros (N & [] & _).
    + split; [reflexivity|]. intros (N & [] & _).
    + split; [reflexivity|]. intros (N & [] & _).
Qed.

Lemma cells_get_app (done todo : cell_table) (k : Z) :
  ~ In k (map fst done) -> cells_get (done ++ todo) k = cells_get todo k.
Proof.
  induction done as [|[k' r] done IH]; simpl; intros H; [reflexivity|].
  destruct (k' =? k) eqn:E.
  - apply Z.eqb_eq in E. exfalso. apply H. left. exact E.
  - apply IH. intros Hin. apply H. right. exact Hin.
Qed.

Lemma cells_set_app (done todo : cell_table) (k : Z) (r : cregion) :
  ~ In k (map fst done) -> cells_set (done ++ todo) k r = done ++ cells_set todo k r.
Proof.
  induction done as [|[k' r'] done IH]; simpl; intros H; [reflexivity|].
  destruct (k' =? k) eqn:E.
  - apply Z.eqb_eq in E. exfalso. apply H. left. exact E.
  - rewrite IH; [reflexivity|]. intros Hin. apply H. right. exact Hin.
Qed.

Lemma final_pass_outcome (keys : list Z) :
  forall (todo done : list (Z * region)),
    List.NoDup (map fst (done ++ todo)) ->
    keys = map fst (done ++ todo) ->
    ((forall k r N, In (k, r) todo -> In N (reached r) -> In N keys) ->
     final_pass (map fst (table_of todo)) (expanded_table done ++ table_of todo)
       = Ok (expanded_table (done ++ todo))) /\
    ((exists k r N, In (k, r) todo /\ In N (reached r) /\ ~ In N keys) ->
     final_pass (map fst (table_of todo)) (expanded_table done ++ table_of todo)
       = Raise KeyError).
Proof.
  induction todo as [|[k r] todo IH]; intros done Hnd Hkeys.
  - simpl. rewrite !app_nil_r. split; [reflexivity|]. intros (k & r & N & [] & _).
  - assert (Hk : ~ In k (map fst (expanded_table done))).
    { unfold expanded_table. rewrite map_map. simpl.
      rewrite map_app in Hnd. simpl in Hnd.
      apply NoDup_remove_2 in Hnd. intros Hin. apply Hnd.
      apply in_or_app. left. exact Hin. }
    assert (Hkeys' : map fst (expanded_table done ++ table_of ((k, r) :: todo)) = keys).
    { rewrite Hkeys. unfold expanded_table, table_of.
      rewrite !map_app, !map_map. reflexivity. }
    cbn [table_of map fst final_pass].
    rewrite cells_get_app by exact Hk. cbn [cells_get snd fst]. rewrite Z.eqb_refl.
    destruct (replace_complement_outcome
                (expanded_table done ++ table_of ((k, r) :: todo)) r) as [Hok Herr].
    rewrite Hkeys' in Hok, Herr.
    change ((k, of_region r) :: map (fun kr => (kr.1, of_region kr.2)) todo)
      with (table_of ((k, r) :: todo)).
    destruct (IH (done ++ [(k, r)])) as [IHok IHerr].
    { rewrite <- app_assoc. exact Hnd. }
    { rewrite <- app_assoc. exact Hkeys. }
    assert (Hstep : cells_set (expanded_table done ++ table_of ((k, r) :: todo)) k (expand r)
                    = expanded_table (done ++ [(k, r)]) ++ table_of todo).
    { rewrite cells_set_app by exact Hk. cbn [table_of map fst snd cells_set].
      rewrite Z.eqb_refl. unfold expanded_table. rewrite map_app, <- app_assoc.
      reflexivity. }
    split.
    + intros Hall. rewrite Hok.
      * cbn [bind]. rewrite Hstep.
        change (map fst (map (fun kr => (kr.1, of_region kr.2)) todo))
          with (map fst (table_of todo)).
        rewrite IHok; [rewrite <- app_assoc; reflexivity|].
        intros k' r' N Hin HN. apply (Hall k' r' N); [right; exact Hin | exact HN].
      * intros N HN. apply (Hall k r N); [left; reflexivity | exact HN].
    + intros (k' & r' & N & Hin & HN & Hmiss).
      destruct (reached_dec keys (reached r)) as [Hr|Hr].
      * rewrite (Hok Hr). cbn [bind]. rewrite Hstep.
        change (map fst (map (fun kr => (kr.1, of_region kr.2)) todo))
          with (map fst (table_of todo)).
        apply IHerr. destruct Hin as [E|Hin].
        { inversion E; subst. exfalso. apply Hmiss, Hr, HN. }
        exists k', r', N. auto.
      * rewrite (Herr Hr). reflexivity.
Qed.




End FinalPassProperties.

(** ** Closure loop of the canonicalizer *)

Section CanonicalizerClosure.
Import Canonicalizer.

Lemma dict_get_none (d : dict) (k : Z) :
  ~ In k (map fst d) -> dict_get d k = None.
Proof.
  induction d as [|[k' v] d IH]; simpl; intros H; [reflexivity|].
  destruct (Z.eqb_spec k' k) as [->|N]; [exfalso; apply H; auto|].
  apply IH. intros Hin. apply H. auto.
Qed.

Lemma dict_set_fresh (d : dict) (k v : Z) :
  ~ In k (map fst d) -> dict_set d k v = d ++ [(k, v)].
Proof.
  induction d as [|[k' v'] d IH]; simpl; intros H; [reflexivity|].
  destruct (Z.eqb_spec k' k) as [->|N]; [exfalso; apply H; auto|].
  rewrite IH; [reflexivity|]. intros Hin. apply H. auto.
Qed.

Lemma dict_set_keys (d : dict) (k v w : Z) :
  map fst (dict_set d k v) = map fst (dict_set d k w).
Proof.
  induction d as [|[k' v'] d IH]; simpl; [reflexivity|].
  destruct (k' =? k); simpl; [reflexivity | rewrite IH; reflexivity].
Qed.

Lemma dict_set_values (d : dict) (k v : Z) (P : Z -> Prop) :
  Forall (fun kv => P (snd kv)) d -> P v -> Forall (fun kv => P (snd kv)) (dict_set d k v).
Proof.
  induction d as [|[k' v'] d IH]; simpl; intros Hd Hv.
  - constructor; [exact Hv | constructor].
  - inversion Hd; subst. destruct (k' =? k); constructor; auto.
Qed.

Lemma dict_get_value (d : dict) (k v : Z) (P : Z -> Prop) :
  Forall (fun kv => P (snd kv)) d -> dict_get d k = Some v -> P v.
Proof.
  induction d as [|[k' v'] d IH]; simpl; intros Hd H; [discriminate|].
  inversion Hd; subst. destruct (k' =? k); [inversion H; subst; assumption | auto].
Qed.

Lemma redirect_nonzero (k v : Z) (d : dict) :
  v <> 0 -> Forall (fun kv => snd kv <> 0) d ->
  exists d', redirect k v d = Ok d' /\ map fst d' = map fst d /\
             Forall (fun kv => snd kv <> 0) d'.
Proof.
  intros Hv. induction d as [|[k2 v2] d IH]; simpl; intros Hd.
  - exists []. auto.
  - inversion Hd as [|? ? Hv2 Hd']; subst. simpl in Hv2.
    destruct (IH Hd') as (d' & E & Hk & Hnz). rewrite E.
    destruct (Z.abs v2 =? Z.abs k).
    + unfold Py.sign_times. destruct (Z.eqb_spec v2 0) as [?|_]; [contradiction|].
      simpl. eexists. split; [reflexivity|]. simpl. split; [congruence|].
      constructor; [|exact Hnz]. simpl. nia.
    + simpl. eexists. split; [reflexivity|]. simpl. split; [congruence|].
      constructor; assumption.
Qed.

Lemma redirect_untouched (k v : Z) (d : dict) :
  Forall (fun kv => Z.abs (snd kv) <> Z.abs k) d -> redirect k v d = Ok d.
Proof.
  induction d as [|[k2 v2] d IH]; simpl; intros Hd; [reflexivity|].
  inversion Hd as [|? ? H2 Hd']; subst. simpl in H2.
  destruct (Z.eqb_spec (Z.abs v2) (Z.abs k)) as [?|_]; [contradiction|].
  rewrite (IH Hd'). reflexivity.
Qed.

Lemma in_values_false (x : Z) (d : dict) :
  Forall (fun kv => snd kv <> x) d -> in_values x d = false.
Proof.
  induction d as [|[k v] d IH]; simpl; intros Hd; [reflexivity|].
  inversion Hd as [|? ? H Hd']; subst. simpl in H.
  destruct (Z.eqb_spec v x) as [?|_]; [contradiction|]. apply IH. exact Hd'.
Qed.

Lemma closure_step_nonzero (d : dict) (k v : Z) :
  v <> 0 -> Forall (fun kv => snd kv <> 0) d ->
  exists d', closure_step d (k, v) = Ok d' /\
             map fst d' = map fst (dict_set d k 0) /\
             Forall (fun kv => snd kv <> 0) d'.
Proof.
  intros Hv Hd. unfold closure_step, Py.sign_times.
  destruct (Z.eqb_spec v 0) as [?|_]; [contradiction|]. cbn [bind].
  set (w := Z.sgn v * default (Z.abs v) (dict_get d (Z.abs v))).
  assert (Hw : w <> 0).
  { unfold w. destruct (dict_get d (Z.abs v)) as [x|] eqn:Ex; simpl.
    - pose proof (dict_get_value d _ _ (fun z => z <> 0) Hd Ex). simpl in H. nia.
    - nia. }
  assert (Hd1 : Forall (fun kv => snd kv <> 0) (dict_set d k w)).
  { apply (dict_set_values d k w (fun z => z <> 0)); assumption. }
  assert (Hk : map fst (dict_set d k w) = map fst (dict_set d k 0)).
  { apply dict_set_keys. }
  destruct (in_values k (dict_set d k w) || in_values (-1 * k) (dict_set d k w)).
  - destruct (redirect_nonzero k v _ Hv Hd1) as (d' & E & Hk' & Hnz).
    exists d'. split; [exact E|]. split; [congruence | exact Hnz].
  - eexists. split; [reflexivity|]. auto.
Qed.

Lemma closure_loop_nonzero (temp : list (Z * Z)) :
  forall d,
    Forall (fun kv => snd kv <> 0) temp -> Forall (fun kv => snd kv <> 0) d ->
    List.NoDup (map fst d ++ map fst temp) ->
    exists d', closure_loop d temp = Ok d' /\ map fst d' = map fst d ++ map fst temp /\
               Forall (fun kv => snd kv <> 0) d'.
Proof.
  induction temp as [|[k v] temp IH]; intros d Ht Hd Hnd; cbn [closure_loop map fst] in *.
  - exists d. rewrite app_nil_r. auto.
  - inversion Ht as [|? ? Hv Ht']; subst. simpl in Hv.
    destruct (closure_step_nonzero d k v Hv Hd) as (d1 & E & Hk & Hnz).
    rewrite E. cbn [bind].
    assert (Hfresh : ~ In k (map fst d)).
    { intros Hin. apply NoDup_ListNoDup in Hnd. apply NoDup_app in Hnd.
      destruct Hnd as (_ & Hdis & _). apply (Hdis k).
      - apply list_elem_of_In. exact Hin.
      - apply list_elem_of_In. simpl. auto. }
    rewrite (dict_set_fresh d k 0 Hfresh), map_app in Hk. simpl in Hk.
    destruct (IH d1 Ht' Hnz) as (d' & E' & Hk' & Hnz').
    { rewrite Hk. rewrite <- app_assoc. exact Hnd. }
    exists d'. split; [exact E'|]. split; [|exact Hnz'].
    rewrite Hk', Hk, <- app_assoc. reflexivity.
Qed.

Lemma closure_loop_zero (temp : list (Z * Z)) :
  forall d,
    Forall (fun kv => snd kv <> 0) d ->
    Exists (fun kv => snd kv = 0) temp ->
    closure_loop d temp = Raise ZeroDivisionError.
Proof.
  induction temp as [|[k v] temp IH]; intros d Hd Hex; cbn [closure_loop];
    [inversion Hex|].
  destruct (Z.eq_dec v 0) as [->|Hv].
  - reflexivity.
  - destruct (closure_step_nonzero d k v Hv Hd) as (d1 & E & _ & Hnz).
    rewrite E. cbn [bind]. apply IH; [exact Hnz|].
    inversion Hex as [? ? H|? ? H]; subst; [simpl in H; contradiction | exact H].
Qed.

(** X1. The closure loop of [compare_surfaces] fails only by a division
    by zero: when every value the comparator reports is non-zero it
    returns a map with exactly the reported keys, in the reported order,
    and with non-zero values; when a reported value is 0 it raises
    [ZeroDivisionError]. *)
Theorem closure_succeeds_unless_zero (temp : list (Z * Z)) :
  List.NoDup (map fst temp) ->
  (Forall (fun kv => snd kv <> 0) temp ->
   exists d, close_map temp = Ok d /\ map fst d = map fst temp /\
             Forall (fun kv => snd kv <> 0) d) /\
  (Exists (fun kv => snd kv = 0) temp -> close_map temp = Raise ZeroDivisionError).
Proof.
  intros Hnd. split.
  - intros Ht. apply (closure_loop_nonzero temp []); [exact Ht | constructor | exact Hnd].
  - intros Hex. apply closure_loop_zero; [constructor | exact Hex].
Qed.

Lemma closure_succeeds_unless_zero_witness :
  (exists d, close_map [(1, -2); (2, -3)] = Ok d /\ map fst d = [1; 2] /\
             Forall (fun kv => snd kv <> 0) d) /\
  close_map [(1, 2); (2, 0)] = Raise ZeroDivisionError.
Proof.
  split.
  - apply (closure_succeeds_unless_zero [(1, -2); (2, -3)]).
    + repeat constructor; simpl; intuition lia.
    + repeat constructor; simpl; lia.
  - apply (closure_succeeds_unless_zero [(1, 2); (2, 0)]).
    + repeat constructor; simpl; intuition lia.
    + right. left. reflexivity.
Defined.

Lemma closure_loop_flat (temp : list (Z * Z)) :
  forall d,
    Forall (fun kv => snd kv <> 0) temp ->
    List.NoDup (map fst d ++ map fst temp) ->
    (forall kv kv', In kv (d ++ temp) -> In kv' (d ++ temp) ->
                    Z.abs (snd kv) <> Z.abs (fst kv')) ->
    closure_loop d temp = Ok (d ++ temp).
Proof.
  induction temp as [|[k v] temp IH]; intros d Ht Hnd Hflat;
    cbn [closure_loop map fst] in *.
  - rewrite app_nil_r. reflexivity.
  - inversion Ht as [|? ? Hv Ht']; subst. simpl in Hv.
    assert (Hfresh : ~ In k (map fst d)).
    { intros Hin. apply NoDup_ListNoDup in Hnd. apply NoDup_app in Hnd.
      destruct Hnd as (_ & Hdis & _). apply (Hdis k).
      - apply list_elem_of_In. exact Hin.
      - apply list_elem_of_In. simpl. auto. }
    assert (Hstep : closure_step d (k, v) = Ok (d ++ [(k, v)])).
    { unfold closure_step, Py.sign_times.
      destruct (Z.eqb_spec v 0) as [?|_]; [contradiction|]. cbn [bind].
      assert (Hget : dict_get d (Z.abs v) = None).
      { apply dict_get_none. intros Hin. apply in_map_iff in Hin.
        destruct Hin as (kv' & E & Hin).
        apply (Hflat (k, v) kv'); [apply in_or_app; right; left; reflexivity
                                 | apply in_or_app; left; exact Hin |].
        simpl. rewrite E. rewrite Z.abs_idemp. reflexivity. }
      rewrite Hget. simpl default.
      replace (Z.sgn v * Z.abs v) with v by lia.
      rewrite (dict_set_fresh d k v Hfresh).
      assert (Hvals : forall x, Z.abs x = Z.abs k ->
                Forall (fun kv => snd kv <> x) (d ++ [(k, v)])).
      { intros x Hx. apply List.Forall_forall. intros kv Hin E.
        apply (Hflat kv (k, v)).
        - apply in_app_or in Hin. apply in_or_app.
          destruct Hin as [Hin|[<-|[]]]; [left; exact Hin | right; left; reflexivity].
        - apply in_or_app. right. left. reflexivity.
        - simpl. rewrite E. exact Hx. }
      rewrite (in_values_false k), (in_values_false (-1 * k)).
      - reflexivity.
      - apply Hvals. lia.
      - apply Hvals. reflexivity. }
    rewrite Hstep. cbn [bind].
    replace (d ++ (k, v) :: temp) with ((d ++ [(k, v)]) ++ temp)
      by (rewrite <- app_assoc; reflexivity).
    apply IH.
    + exact Ht'.
    + rewrite map_app. simpl. rewrite <- app_assoc. exact Hnd.
    + intros kv kv' H1 H2. apply Hflat.
      * rewrite <- app_assoc in H1. exact H1.
      * rewrite <- app_assoc in H2. exact H2.
Qed.

(** X2. When no surface is reported both as a key and (up to sign) as a
    value, the closure loop returns the comparator's map unchanged. *)
Theorem closure_keeps_flat_map (temp : list (Z * Z)) :
  List.NoDup (map fst temp) ->
  Forall (fun kv => snd kv <> 0) temp ->
  (forall kv kv', In kv temp -> In kv' temp -> Z.abs (snd kv) <> Z.abs (fst kv')) ->
  close_map temp = Ok temp.
Proof.
  intros Hnd Hnz Hflat. apply (closure_loop_flat temp []); assumption.
Qed.

Lemma closure_keeps_flat_map_witness :
  close_map [(2, 1); (3, -1); (5, 4)] = Ok [(2, 1); (3, -1); (5, 4)].
Proof.
  apply closure_keeps_flat_map.
  - repeat constructor; simpl; intuition lia.
  - repeat constructor; simpl; lia.
  - intros kv kv' H H'. simpl in H, H'.
    destruct H as [<-|[<-|[<-|[]]]], H' as [<-|[<-|[<-|[]]]]; simpl; lia.
Defined.

Lemma eqb_false (x y : Z) : x <> y -> (x =? y) = false.
Proof. intros H. apply Z.eqb_neq. exact H. Qed.

Lemma closure_step_first (k v : Z) :
  v <> 0 -> Z.abs v <> Z.abs k ->
  closure_step [] (k, v) = Ok [(k, v)].
Proof.
  intros Hv Hkv. unfold closure_step, Py.sign_times.
  rewrite (eqb_false v 0 Hv).
  cbn [bind dict_get default dict_set in_values existsb snd].
  replace (Z.sgn v * Z.abs v) with v by lia.
  rewrite (eqb_false v k), (eqb_false v (-1 * k)) by lia.
  reflexivity.
Qed.

Lemma closure_step_chain_forward (a b c : Z) :
  b <> 0 -> c <> 0 ->
  Z.abs a <> Z.abs b -> Z.abs b <> Z.abs c -> Z.abs c <> Z.abs a ->
  closure_step [(a, b)] (Z.abs b, c) = Ok [(a, Z.sgn b * c); (Z.abs b, c)].
Proof.
  intros Hb Hc Hab Hbc Hca. unfold closure_step, Py.sign_times.
  rewrite (eqb_false c 0 Hc).
  cbn [bind dict_get].
  rewrite (eqb_false a (Z.abs c)) by lia.
  cbn [default dict_set].
  replace (Z.sgn c * Z.abs c) with c by lia.
  rewrite (eqb_false a (Z.abs b)) by lia.
  cbn [dict_set in_values existsb snd].
  assert (Hin : (b =? Z.abs b) || ((c =? Z.abs b) || false)
                || ((b =? -1 * Z.abs b) || ((c =? -1 * Z.abs b) || false)) = true).
  { destruct (Z.eqb_spec b (Z.abs b)), (Z.eqb_spec c (Z.abs b)),
      (Z.eqb_spec b (-1 * Z.abs b)), (Z.eqb_spec c (-1 * Z.abs b));
      simpl; try reflexivity; lia. }
  rewrite Hin. cbn [redirect snd].
  rewrite Z.abs_idemp, Z.eqb_refl.
  unfold Py.sign_times. rewrite (eqb_false b 0 Hb). cbn [bind].
  rewrite (eqb_false (Z.abs c) (Z.abs b)) by lia.
  reflexivity.
Qed.

Lemma closure_step_chain_backward (a b c : Z) :
  b <> 0 -> c <> 0 ->
  Z.abs a <> Z.abs b -> Z.abs b <> Z.abs c -> Z.abs c <> Z.abs a ->
  closure_step [(Z.abs b, c)] (a, b) = Ok [(Z.abs b, c); (a, Z.sgn b * c)].
Proof.
  intros Hb Hc Hab Hbc Hca. unfold closure_step, Py.sign_times.
  rewrite (eqb_false b 0 Hb).
  cbn [bind dict_get].
  rewrite Z.eqb_refl.
  cbn [default dict_set].
  rewrite (eqb_false (Z.abs b) a) by lia.
  cbn [dict_set in_values existsb snd].
  rewrite (eqb_false c a), (eqb_false c (-1 * a)) by lia.
  change (id c) with c.
  rewrite (eqb_false (Z.sgn b * c) a), (eqb_false (Z.sgn b * c) (-1 * a)) by nia.
  reflexivity.
Qed.

(** X3. A chain of two equivalences, a = b and |b| = c, is closed in
    whichever order the two entries are reported: a is sent to c with
    the sign of b composed, and |b| is sent to c. *)
Theorem closure_two_step_chain (a b c : Z) :
  b <> 0 -> c <> 0 ->
  Z.abs a <> Z.abs b -> Z.abs b <> Z.abs c -> Z.abs c <> Z.abs a ->
  close_map [(a, b); (Z.abs b, c)] = Ok [(a, Z.sgn b * c); (Z.abs b, c)] /\
  close_map [(Z.abs b, c); (a, b)] = Ok [(Z.abs b, c); (a, Z.sgn b * c)].
Proof.
  intros Hb Hc Hab Hbc Hca. unfold close_map. cbn [closure_loop]. split.
  - rewrite (closure_step_first a b) by lia. cbn [bind].
    rewrite (closure_step_chain_forward a b c) by assumption. reflexivity.
  - rewrite (closure_step_first (Z.abs b) c) by lia. cbn [bind].
    rewrite (closure_step_chain_backward a b c) by assumption. reflexivity.
Qed.

Lemma closure_two_step_chain_witness :
  close_map [(1, -2); (2, -3)] = Ok [(1, 3); (2, -3)] /\
  close_map [(2, -3); (1, -2)] = Ok [(2, -3); (1, 3)].
Proof. apply (closure_two_step_chain 1 (-2) (-3)); lia. Defined.

End CanonicalizerClosure.

(** ** Surfaces given to the comparator, reduction of planes, builder errors *)

Section SurfaceGroupsProperties.
Import SurfaceBuilder Regions SurfaceGroups.

Lemma group_get_add (t t' : string) (x : Z * surface) (d : groups) :
  group_get t (group_add t' x d)
  = if String.eqb t' t then group_get t d ++ [x] else group_get t d.
Proof.
  induction d as [|[t0 l] d IH]; simpl.
  - destruct (String.eqb t' t); reflexivity.
  - destruct (String.eqb_spec t0 t') as [->|N0]; simpl.
    + destruct (String.eqb t' t); reflexivity.
    + destruct (String.eqb_spec t0 t) as [->|N1].
      * destruct (String.eqb_spec t' t) as [->|_]; [congruence | reflexivity].
      * exact IH.
Qed.

Lemma group_add_keys (t : string) (x : Z * surface) (d : groups) :
  List.NoDup (map fst d) -> List.NoDup (map fst (group_add t x d)) /\
  (forall k, In k (map fst (group_add t x d)) <-> k = t \/ In k (map fst d)).
Proof.
  induction d as [|[t0 l] d IH]; simpl; intros Hnd.
  - split; [apply List.NoDup_cons; [simpl; tauto | apply List.NoDup_nil] | intros k; simpl; intuition congruence].
  - inversion Hnd as [|? ? Hnot Hnd']; subst.
    destruct (String.eqb_spec t0 t) as [->|N]; simpl.
    + split; [exact Hnd | intros k; simpl; intuition congruence].
    + destruct (IH Hnd') as [Hnd1 Hk]. split.
      * constructor; [|exact Hnd1]. rewrite Hk. intros [E|Hin]; [congruence | contradiction].
      * intros k. simpl. rewrite Hk. intuition congruence.
Qed.

Lemma compared_step_get (t : string) (x : Z * surface) (d : groups)
    (entry : Z * surface_entry) :
  In x (group_get t (compared_step d entry)) <->
  In x (group_get t d) \/ eligible t x [entry].
Proof.
  unfold compared_step, eligible. destruct entry as [i e]. simpl.
  destruct e as [k bt|neg pos].
  - destruct (surface_type k) as [ty|] eqn:Ety.
    + destruct bt.
      * rewrite group_get_add.
        destruct (String.eqb_spec (merged_type ty) t) as [E|N].
        -- rewrite in_app_iff. simpl. split.
           ++ intros [H|[<-|[]]]; [left; exact H|]. right. simpl.
              split; [left; reflexivity | eauto].
           ++ intros [H|[[H|[]] _]]; [left; exact H|]. right. left.
              inversion H; subst. destruct x; reflexivity.
        -- split; [tauto|]. intros [H|[[H|[]] (ty' & E1 & E2)]]; [exact H|].
           inversion H; subst. congruence.
      * split; [tauto|]. intros [H|[[H|[]] _]]; [exact H | discriminate H].
      * split; [tauto|]. intros [H|[[H|[]] _]]; [exact H | discriminate H].
    + split; [tauto|]. intros [H|[[H|[]] (ty' & E1 & _)]]; [exact H|].
      inversion H; subst. congruence.
  - split; [tauto|]. intros [H|[[H|[]] _]]; [exact H | discriminate H].
Qed.

Lemma fold_compared_get (t : string) (x : Z * surface)
    (surfaces : list (Z * surface_entry)) :
  forall d,
    In x (group_get t (fold_left compared_step surfaces d)) <->
    In x (group_get t d) \/ eligible t x surfaces.
Proof.
  induction surfaces as [|entry surfaces IH]; simpl; intros d.
  - unfold eligible. simpl. tauto.
  - rewrite IH, compared_step_get. unfold eligible. simpl. split.
    + intros [[H|[[H|[]] He]]|[H He]]; auto.
    + intros [H|[[H|H] He]].
      * left. left. exact H.
      * left. right. split; [left; exact H | exact He].
      * right. split; assumption.
Qed.

Lemma fold_compared_keys (surfaces : list (Z * surface_entry)) :
  forall d, List.NoDup (map fst d) ->
    List.NoDup (map fst (fold_left compared_step surfaces d)).
Proof.
  induction surfaces as [|[i e] surfaces IH]; simpl; intros d Hnd; [exact Hnd|].
  apply IH. unfold compared_step. simpl.
  destruct e as [k bt|]; [|exact Hnd].
  destruct (surface_type k); [|exact Hnd].
  destruct bt; try exact Hnd. apply group_add_keys. exact Hnd.
Qed.

Lemma assoc_set_in (d : list (Z * compared)) (k : Z) (v : compared) (k' : Z) (v' : compared) :
  List.NoDup (map fst d) ->
  List.NoDup (map fst (assoc_set d k v)) /\
  (In (k', v') (assoc_set d k v) <-> (k' = k /\ v' = v) \/ (k' <> k /\ In (k', v') d)).
Proof.
  induction d as [|[k0 v0] d IH]; simpl; intros Hnd.
  - split; [apply List.NoDup_cons; [simpl; tauto | apply List.NoDup_nil]|].
    split; [intros [H|[]]; inversion H; auto | intros [[-> ->]|[_ []]]; auto].
  - inversion Hnd as [|? ? Hnot Hnd']; subst.
    destruct (Z.eqb_spec k0 k) as [->|N]; simpl.
    + split; [exact Hnd|]. split.
      * intros [H|H]; [inversion H; auto|]. right. split; [|auto].
        intros ->. apply Hnot. apply (in_map fst) in H. exact H.
      * intros [[-> ->]|[Hne [H|H]]]; auto. inversion H; subst. contradiction.
    + destruct (IH Hnd') as [Hnd1 Hin]. split.
      * constructor; [|exact Hnd1]. intros Hk0. apply in_map_iff in Hk0.
        destruct Hk0 as ([k1 v1] & E & Hk0). simpl in E. subst k1.
        clear Hin. revert Hk0 Hnot N. clear. induction d as [|[k2 v2] d IH]; simpl.
        -- intros [H|[]] _ N. inversion H; subst. contradiction.
        -- destruct (Z.eqb_spec k2 k) as [->|N2]; simpl.
           ++ intros [H|H] Hnot N; [inversion H; subst; contradiction|].
              apply Hnot. right. apply (in_map fst) in H. exact H.
           ++ intros [H|H] Hnot N; [inversion H; subst; apply Hnot; auto|].
              apply IH; auto.
      * rewrite Hin. split.
        -- intros [H|[H|[Hne H]]]; auto. inversion H; subst. auto.
        -- intros [H|[Hne [H|H]]]; auto.
Qed.

Lemma assoc_set_sound (d : list (Z * compared)) (k : Z) (v : compared) (k' : Z) (v' : compared) :
  In (k', v') (assoc_set d k v) -> (k' = k /\ v' = v) \/ In (k', v') d.
Proof.
  induction d as [|[k0 v0] d IH]; simpl.
  - intros [H|[]]. inversion H; auto.
  - destruct (Z.eqb_spec k0 k) as [->|N]; simpl.
    + intros [H|H]; [inversion H; auto | auto].
    + intros [H|H]; [auto|]. destruct (IH H); auto.
Qed.

Lemma assoc_set_keys (d : list (Z * compared)) (k : Z) (v : compared) (k' : Z) :
  In k' (map fst (assoc_set d k v)) <-> k' = k \/ In k' (map fst d).
Proof.
  induction d as [|[k0 v0] d IH]; simpl.
  - intuition congruence.
  - destruct (Z.eqb_spec k0 k) as [->|N]; simpl; [intuition congruence|].
    rewrite IH. intuition congruence.
Qed.

Lemma fold_add_sound (tipo : string) (surfs : list (Z * surface)) (i : Z) (rec : compared) :
  forall acc,
    In (i, rec) (fold_left (add_compared tipo) surfs acc) ->
    In (i, rec) acc \/ exists k, In (i, k) surfs /\ rec = mk_compared i tipo k.
Proof.
  induction surfs as [|[j k] surfs IH]; simpl; intros acc H; [auto|].
  destruct (IH _ H) as [H1|(k' & Hin & E)].
  - unfold add_compared in H1. simpl in H1.
    destruct (assoc_set_sound _ _ _ _ _ H1) as [[-> ->]|H2]; [|auto].
    right. exists k. split; [auto | reflexivity].
  - right. exists k'. auto.
Qed.

Lemma fold_add_keys (tipo : string) (surfs : list (Z * surface)) (i : Z) :
  forall acc,
    In i (map fst (fold_left (add_compared tipo) surfs acc)) <->
    In i (map fst acc) \/ In i (map fst surfs).
Proof.
  induction surfs as [|[j k] surfs IH]; simpl; intros acc; [tauto|].
  rewrite IH. unfold add_compared. simpl. rewrite assoc_set_keys. intuition congruence.
Qed.

Lemma split_groups_sound (d : groups) (i : Z) (rec : compared) :
  forall planes others,
    (In (i, rec) (fst (split_groups d planes others)) ->
     In (i, rec) planes \/
     exists l k, In ("plane", l) d /\ In (i, k) l /\ rec = mk_compared i "plane" k) /\
    (In (i, rec) (snd (split_groups d planes others)) ->
     In (i, rec) others \/
     exists tipo l k, In (tipo, l) d /\ tipo <> "plane" /\ In (i, k) l /\
                      rec = mk_compared i tipo k).
Proof.
  induction d as [|[tipo surfs] d IH]; simpl; intros planes others; [auto|].
  destruct (String.eqb_spec tipo "plane") as [->|N].
  - destruct (IH (fold_left (add_compared "plane") surfs planes) others) as [IH1 IH2].
    split.
    + intros H. destruct (IH1 H) as [H1|(l & k & Hl & Hk & E)].
      * destruct (fold_add_sound _ _ _ _ _ H1) as [?|(k & Hk & E)]; [auto|].
        right. exists surfs, k. auto.
      * right. exists l, k. auto.
    + intros H. destruct (IH2 H) as [H1|(t & l & k & Hl & Ht & Hk & E)]; [auto|].
      right. exists t, l, k. auto.
  - destruct (IH planes (fold_left (add_compared tipo) surfs others)) as [IH1 IH2].
    split.
    + intros H. destruct (IH1 H) as [H1|(l & k & Hl & Hk & E)]; [auto|].
      right. exists l, k. auto.
    + intros H. destruct (IH2 H) as [H1|(t & l & k & Hl & Ht & Hk & E)].
      * destruct (fold_add_sound _ _ _ _ _ H1) as [?|(k & Hk & E)]; [auto|].
        right. exists tipo, surfs, k. auto.
      * right. exists t, l, k. auto.
Qed.

Lemma split_groups_keys (d : groups) (i : Z) :
  forall planes others,
    ((In i (map fst planes) \/ exists l, In ("plane", l) d /\ In i (map fst l)) ->
     In i (map fst (fst (split_groups d planes others)))) /\
    ((In i (map fst others) \/
      exists tipo l, In (tipo, l) d /\ tipo <> "plane" /\ In i (map fst l)) ->
     In i (map fst (snd (split_groups d planes others)))).
Proof.
  induction d as [|[tipo surfs] d IH]; simpl; intros planes others.
  - split.
    + intros [H|(l & [] & _)]. exact H.
    + intros [H|(t & l & [] & _)]. exact H.
  - destruct (String.eqb_spec tipo "plane") as [->|N].
    + destruct (IH (fold_left (add_compared "plane") surfs planes) others) as [IH1 IH2].
      split.
      * intros [H|(l & [H|H] & Hi)]; apply IH1.
        -- left. apply fold_add_keys. auto.
        -- inversion H; subst. left. apply fold_add_keys. auto.
        -- right. exists l. auto.
      * intros [H|(t & l & [H|H] & Ht & Hi)]; apply IH2; [auto| |].
        -- inversion H; subst. contradiction.
        -- right. exists t, l. auto.
    + destruct (IH planes (fold_left (add_compared tipo) surfs others)) as [IH1 IH2].
      split.
      * intros [H|(l & [H|H] & Hi)]; apply IH1; [auto| |].
        -- inversion H; subst. contradiction.
        -- right. exists l. auto.
      * intros [H|(t & l & [H|H] & Ht & Hi)]; apply IH2.
        -- left. apply fold_add_keys. auto.
        -- inversion H; subst. left. apply fold_add_keys. auto.
        -- right. exists t, l. auto.
Qed.

Lemma group_get_in (t : string) (l : list (Z * surface)) (d : groups) :
  List.NoDup (map fst d) -> In (t, l) d -> group_get t d = l.
Proof.
  induction d as [|[t0 l0] d IH]; simpl; intros Hnd Hin; [contradiction|].
  inversion Hnd as [|? ? Hnot Hnd']; subst.
  destruct Hin as [H|H].
  - inversion H; subst. rewrite String.eqb_refl. reflexivity.
  - destruct (String.eqb_spec t0 t) as [->|N]; [|auto].
    exfalso. apply Hnot. apply (in_map fst) in H. exact H.
Qed.

Lemma group_get_nonempty (t : string) (x : Z * surface) (d : groups) :
  In x (group_get t d) -> In (t, group_get t d) d.
Proof.
  induction d as [|[t0 l0] d IH]; simpl; intros H; [contradiction|].
  destruct (String.eqb_spec t0 t) as [->|N]; [left; reflexivity | right; auto].
Qed.

Lemma merged_plane (k : surface) (ty : string) :
  surface_type k = Some ty ->
  (is_plane k = true -> merged_type ty = "plane") /\
  (is_plane k = false -> merged_type ty = ty /\ ty <> "plane").
Proof.
  destruct k as [a b c d|ax x0|x0 y0 z0 r|ax c1 c2 r|ax x0 y0 z0 r2|ax x0 y0 z0 r2 up
                 |cs|ax x0 y0 z0 a b c|v h r ax|v h r|cs|v a1 a2 a3];
    simpl; intros E; try discriminate E; inversion E; subst; clear E;
    try destruct ax; split; intros H; try discriminate H;
    try (split; [reflexivity | discriminate]); reflexivity.
Qed.

Lemma table_unique (surfaces : list (Z * surface_entry)) (i : Z) (e e' : surface_entry) :
  List.NoDup (map fst surfaces) -> In (i, e) surfaces -> In (i, e') surfaces -> e = e'.
Proof.
  induction surfaces as [|[j e0] surfaces IH]; simpl; intros Hnd H H'; [contradiction|].
  inversion Hnd as [|? ? Hnot Hnd']; subst.
  destruct H as [H|H], H' as [H'|H'].
  - congruence.
  - inversion H; subst. exfalso. apply Hnot. apply (in_map fst) in H'. exact H'.
  - inversion H'; subst. exfalso. apply Hnot. apply (in_map fst) in H. exact H.
  - auto.
Qed.

Lemma key_has_entry (d : list (Z * compared)) (i : Z) :
  In i (map fst d) -> exists rec, In (i, rec) d.
Proof.
  intros H. apply in_map_iff in H. destruct H as ([j rec] & E & H). simpl in E. subst.
  eauto.
Qed.

(** X4. What [compare_surfaces] hands to the comparator: the plane dict
    holds exactly the primitive surfaces with a transmission boundary
    that are instances of one of the four plane classes, all under the
    kind "plane"; the other dict holds exactly the remaining primitive
    surfaces with a transmission boundary, under their own type name.
    Macrobodies and surfaces with a reflective or vacuum boundary are in
    neither. *)
Theorem comparator_inputs_partition (surfaces : list (Z * surface_entry)) :
  List.NoDup (map fst surfaces) ->
  (forall i rec,
     In (i, rec) (fst (comparator_inputs surfaces)) <->
     exists k, In (i, Primitive k transmission) surfaces /\ is_plane k = true /\
               rec = mk_compared i "plane" k) /\
  (forall i rec,
     In (i, rec) (snd (comparator_inputs surfaces)) <->
     exists k ty, In (i, Primitive k transmission) surfaces /\ is_plane k = false /\
                  surface_type k = Some ty /\ rec = mk_compared i ty k).
Proof.
  intros Hnd. unfold comparator_inputs.
  set (G := get_surfaces_to_be_compared surfaces).
  assert (HG : List.NoDup (map fst G)).
  { apply fold_compared_keys. constructor. }
  assert (Hget : forall t x, In x (group_get t G) <-> eligible t x surfaces).
  { intros t x. unfold G, get_surfaces_to_be_compared. rewrite fold_compared_get.
    simpl. tauto. }
  assert (Hp : forall i rec, In (i, rec) (fst (split_groups G [] [])) ->
            exists k, In (i, Primitive k transmission) surfaces /\ is_plane k = true /\
                      rec = mk_compared i "plane" k).
  { intros i rec H.
    destruct (proj1 (split_groups_sound G i rec [] []) H) as [[]|(l & k & Hl & Hk & E)].
    rewrite <- (group_get_in _ _ _ HG Hl) in Hk. apply Hget in Hk.
    destruct Hk as [Hin (ty & Hty & Hm)]. simpl in Hin, Hty.
    exists k. split; [exact Hin|]. split; [|exact E].
    destruct (is_plane k) eqn:Ep; [reflexivity|].
    destruct (proj2 (merged_plane k ty Hty) Ep) as [E1 E2]. congruence. }
  assert (Ho : forall i rec, In (i, rec) (snd (split_groups G [] [])) ->
            exists k ty, In (i, Primitive k transmission) surfaces /\ is_plane k = false /\
                         surface_type k = Some ty /\ rec = mk_compared i ty k).
  { intros i rec H.
    destruct (proj2 (split_groups_sound G i rec [] []) H)
      as [[]|(t & l & k & Hl & Ht & Hk & E)].
    rewrite <- (group_get_in _ _ _ HG Hl) in Hk. apply Hget in Hk.
    destruct Hk as [Hin (ty & Hty & Hm)]. simpl in Hin, Hty.
    destruct (is_plane k) eqn:Ep.
    - rewrite (proj1 (merged_plane k ty Hty) Ep) in Hm. congruence.
    - destruct (proj2 (merged_plane k ty Hty) Ep) as [E1 E2].
      exists k, ty. repeat split; try assumption. congruence. }
  split; intros i rec; split.
  - apply Hp.
  - intros (k & Hin & Ep & ->).
    assert (Hty : exists ty, surface_type k = Some ty).
    { destruct k; try discriminate Ep; simpl; eauto. }
    destruct Hty as (ty & Hty).
    assert (He : In (i, k) (group_get "plane" G)).
    { apply Hget. split; [exact Hin|]. exists ty. split; [exact Hty|].
      apply (merged_plane k ty Hty). exact Ep. }
    assert (Hkey : In i (map fst (fst (split_groups G [] [])))).
    { apply split_groups_keys. right. exists (group_get "plane" G).
      split; [apply (group_get_nonempty _ _ _ He)|].
      apply (in_map fst) in He. exact He. }
    destruct (key_has_entry _ _ Hkey) as (rec & Hrec).
    destruct (Hp _ _ Hrec) as (k' & Hin' & _ & ->).
    assert (E : Primitive k transmission = Primitive k' transmission)
      by (apply (table_unique surfaces i); assumption).
    inversion E; subst. exact Hrec.
  - apply Ho.
  - intros (k & ty & Hin & Ep & Hty & ->).
    destruct (proj2 (merged_plane k ty Hty) Ep) as [Em Hne].
    assert (He : In (i, k) (group_get ty G)).
    { apply Hget. split; [exact Hin|]. exists ty. auto. }
    assert (Hkey : In i (map fst (snd (split_groups G [] [])))).
    { apply split_groups_keys. right. exists ty, (group_get ty G).
      split; [apply (group_get_nonempty _ _ _ He)|]. split; [exact Hne|].
      apply (in_map fst) in He. exact He. }
    destruct (key_has_entry _ _ Hkey) as (rec & Hrec).
    destruct (Ho _ _ Hrec) as (k' & ty' & Hin' & _ & Hty' & ->).
    assert (E : Primitive k transmission = Primitive k' transmission)
      by (apply (table_unique surfaces i); assumption).
    inversion E; subst. rewrite Hty in Hty'. inversion Hty'; subst. exact Hrec.
Qed.

(** A table with a general plane, an axis-aligned plane, a sphere, a
    reflective plane and a macrobody. *)
Lemma comparator_inputs_partition_witness :
  comparator_inputs mixed_table
  = ([(1, mk_compared 1 "plane" (Plane 1 0 0 2)); (2, mk_compared 2 "plane" (AxisPlane AxisZ 3))],
     [(3, mk_compared 3 "sphere" (Sphere 0 0 0 1))]) /\
  (forall i rec,
     In (i, rec) (fst (comparator_inputs mixed_table)) <->
     exists k, In (i, Primitive k transmission) mixed_table /\ is_plane k = true /\
               rec = mk_compared i "plane" k).
Proof.
  split; [reflexivity|].
  apply (comparator_inputs_partition mixed_table).
  repeat (apply List.NoDup_cons; [simpl; intuition discriminate|]). apply List.NoDup_nil.
Defined.

End SurfaceGroupsProperties.

Section ReductionProperties.
Import SurfaceBuilder Regions Universes Lattice Faces.

Lemma reduce_plane_boundary (e : surface_entry) :
  match e, reduce_plane e with
  | Primitive _ b, Primitive _ b' => b = b'
  | Composite n p, Composite n' p' => n = n' /\ p = p'
  | _, _ => False
  end.
Proof.
  destruct e as [k bt|n p]; simpl; [|auto].
  destruct k; simpl; try reflexivity.
  repeat match goal with |- context [if ?b then _ else _] => destruct b end; reflexivity.
Qed.

Lemma reduce_plane_idem (e : surface_entry) : reduce_plane (reduce_plane e) = reduce_plane e.
Proof.
  destruct e as [k bt|n p]; [|reflexivity].
  destruct k; try reflexivity. cbn [reduce_plane].
  destruct (Qeq_bool a 1 && Qeq_bool b 0 && Qeq_bool c 0) eqn:E1; [reflexivity|].
  destruct (Qeq_bool a 0 && Qeq_bool b 1 && Qeq_bool c 0) eqn:E2; [reflexivity|].
  destruct (Qeq_bool a 0 && Qeq_bool b 0 && Qeq_bool c 1) eqn:E3; [reflexivity|].
  cbn [reduce_plane]. rewrite E1, E2, E3. reflexivity.
Qed.

Lemma halfspace_of_reduce (surfaces : surface_table) (j : Z) :
  halfspace_of (reduce_general_plane_to_xyz surfaces) j = halfspace_of surfaces j.
Proof.
  unfold halfspace_of, reduce_general_plane_to_xyz. rewrite lookup_fmap.
  destruct (surfaces !! Z.abs j) as [e|]; simpl; [|reflexivity].
  pose proof (reduce_plane_boundary e) as H.
  destruct e as [k bt|n p], (reduce_plane _) as [k' bt'|n' p']; try contradiction.
  - reflexivity.
  - destruct H as [-> ->]. reflexivity.
Qed.

Lemma tokenize_ext (s1 s2 : surface_table) :
  (forall j, halfspace_of s1 j = halfspace_of s2 j) ->
  forall text word tokens, tokenize s1 text word tokens = tokenize s2 text word tokens.
Proof.
  intros Hh.
  assert (Hf : forall word tokens, flush s1 word tokens = flush s2 word tokens).
  { intros [w|] tokens; simpl; [|reflexivity].
    destruct (Py.int w) as [j|e]; simpl; [|reflexivity]. rewrite Hh. reflexivity. }
  induction text as [|c rest IH]; intros word tokens; simpl; [apply Hf|].
  destruct (is_special c).
  - rewrite Hf. destruct (flush s2 word tokens) as [tokens1|e]; simpl; [|reflexivity].
    match goal with |- bind ?r _ = bind ?r _ => destruct r as [t3|e3]; simpl end;
      [apply IH | reflexivity].
  - destruct (is_word_char c); [apply IH | reflexivity].
Qed.

(** X5. [reduce_general_plane_to_xyz] keeps the ids of the table and the
    boundary type of every surface, doing it twice changes nothing more,
    and every region text parses against the reduced table to the
    region it parses to against the original one. *)
Theorem reduction_keeps_table (surfaces : surface_table) :
  dom (reduce_general_plane_to_xyz surfaces) = dom surfaces /\
  (forall k, boundary_of (reduce_general_plane_to_xyz surfaces) k = boundary_of surfaces k) /\
  reduce_general_plane_to_xyz (reduce_general_plane_to_xyz surfaces)
    = reduce_general_plane_to_xyz surfaces /\
  (forall text, from_expression text (reduce_general_plane_to_xyz surfaces)
                = from_expression text surfaces).
Proof.
  split; [|split; [|split]].
  - unfold reduce_general_plane_to_xyz. apply dom_fmap_L.
  - intros k. unfold boundary_of, reduce_general_plane_to_xyz. rewrite lookup_fmap.
    destruct (surfaces !! k) as [e|]; simpl; [|reflexivity].
    pose proof (reduce_plane_boundary e) as H.
    destruct e as [k0 bt|n p], (reduce_plane _) as [k' bt'|n' p']; try contradiction;
      [congruence | reflexivity].
  - unfold reduce_general_plane_to_xyz. rewrite <- map_fmap_compose.
    apply map_fmap_ext. intros k e _. apply reduce_plane_idem.
  - intros text. unfold from_expression.
    rewrite (tokenize_ext _ surfaces (halfspace_of_reduce surfaces)). reflexivity.
Qed.

(** X6. An axis-aligned face of a macrobody, rewritten as a general plane
    and later reduced, is an axis-aligned plane of the same axis and
    offset again, but with a transmission boundary whatever boundary the
    face had; any other face is stored as it is; and a [px], [py] or
    [pz] record is built as a general plane that the reduction turns
    into the axis-aligned plane at the record's first coefficient. *)
Theorem face_round_trip :
  (forall ax x0 bt,
     reduce_plane (generalize_face (Primitive (AxisPlane ax x0) bt))
     = Primitive (AxisPlane ax x0) transmission) /\
  (forall e, (forall ax x0 bt, e <> Primitive (AxisPlane ax x0) bt) -> generalize_face e = e) /\
  (forall s ax c0 rest,
     s_mnemonic s = axis_plane_mnemonic ax -> s_coefficients s = c0 :: rest ->
     exists p, build_surface s = Ok p /\
       forall bt, reduce_plane (Primitive p bt) = Primitive (AxisPlane ax c0) bt).
Proof.
  split; [|split].
  - intros [] x0 bt; reflexivity.
  - intros e He. destruct e as [k bt|n p]; [|reflexivity].
    destruct k; try reflexivity. exfalso. eapply He. reflexivity.
  - intros s ax c0 rest Hm Hc. unfold build_surface. rewrite Hm, Hc.
    destruct ax; simpl; eexists; (split; [reflexivity|]); intros bt; reflexivity.
Qed.

End ReductionProperties.

Section BuilderErrors.
Import SurfaceBuilder Faces.
Local Open Scope Q_scope.

(** X7. A [p] record with nine coefficients either gives a plane whose
    first non-zero coefficient (in the order d, c, b, a) is positive, or
    is refused with "All three points appear to be in a line."; it is
    refused whenever the normal of the three points is zero.  The
    builder's own error "Plane appears to be a line?" is never raised. *)
Theorem plane_from_points_outcome (s : surface_record) (p1 p2 p3 : vec3) :
  s_mnemonic s = "p" ->
  s_coefficients s = point_coefficients p1 p2 p3 ->
  (vec_eq (cross (vsub p2 p1) (vsub p3 p1)) (0, 0, 0) ->
   build_surface s = Raise (ValueError "All three points appear to be in a line.")) /\
  ((exists p', build_surface s = Ok (mk_plane p') /\ first_nonzero_positive p') \/
   build_surface s = Raise (ValueError "All three points appear to be in a line.")).
Proof.
  intros Hm Hc.
  assert (Hline : allclose0 (cross (vsub p2 p1) (vsub p3 p1)) = true ->
            build_surface s = Raise (ValueError "All three points appear to be in a line.")).
  { intros Hn. rewrite (build_plane_unfold s p1 p2 p3 Hm Hc).
    unfold from_points. rewrite Hn. reflexivity. }
  split.
  - intros Hz. apply Hline.
    destruct (allclose0 _) eqn:E; [reflexivity|].
    apply allclose0_false_nonzero in E.
    destruct (cross (vsub p2 p1) (vsub p3 p1)) as [[a b] c]. simpl in Hz. tauto.
  - destruct (allclose0 (cross (vsub p2 p1) (vsub p3 p1))) eqn:E.
    + right. apply Hline. reflexivity.
    + left. destruct (build_plane_ok s p1 p2 p3 Hm Hc E) as (p' & H1 & H2 & _). eauto.
Qed.

Lemma plane_from_points_outcome_witness :
  build_surface {| s_id := 1; s_mnemonic := "p";
                   s_coefficients := [0; 0; 0; 1; 1; 1; 2; 2; 2];
                   s_reflective := false; s_tr := None |}
  = Raise (ValueError "All three points appear to be in a line.").
Proof.
  apply (plane_from_points_outcome _ (0, 0, 0) (1, 1, 1) (2, 2, 2)); try reflexivity.
  simpl. repeat split; reflexivity.
Defined.

Lemma eqb_not_in (m x : string) (l : list string) :
  ~ In m l -> In x l -> String.eqb m x = false.
Proof.
  intros Hm Hx. apply String.eqb_neq. intros ->. contradiction.
Qed.

(** X8. A record whose mnemonic is none of the thirty-one the builder
    tests for is refused with [NotImplementedError], whatever its
    coefficients. *)
Theorem unsupported_mnemonic (s : surface_record) :
  ~ In (s_mnemonic s) supported_mnemonics ->
  build_surface s = Raise (NotImplementedError "Surface type not supported").
Proof.
  intros H. unfold build_surface.
  repeat match goal with
         | |- context [String.eqb (s_mnemonic s) ?x] =>
             rewrite (eqb_not_in (s_mnemonic s) x supported_mnemonics H) by (simpl; tauto)
         end.
  reflexivity.
Qed.

Lemma unsupported_mnemonic_witness :
  build_surface {| s_id := 1; s_mnemonic := "sq"; s_coefficients := [1; 2; 3];
                   s_reflective := false; s_tr := None |}
  = Raise (NotImplementedError "Surface type not supported").
Proof.
  apply unsupported_mnemonic. simpl. intuition discriminate.
Defined.

End BuilderErrors.

(** ** Ordering of the cells with a cell complement *)

Section OrderingProperties.
Import Regions Resolver Ordering.

Lemma cell_in_lookup (x : cell) (l : list cell) :
  cell_in x l = true <-> exists j x', l !! j = Some x' /\ c_id x' = c_id x.
Proof.
  rewrite cell_in_spec. split.
  - intros (x' & Hin & E). apply list_elem_of_In in Hin.
    apply list_elem_of_lookup in Hin. destruct Hin as (j & Hj). eauto.
  - intros (j & x' & Hj & E). exists x'. split; [|exact E].
    apply list_elem_of_In. apply list_elem_of_lookup. eauto.
Qed.

Lemma dependencies_first_snoc (idx : gmap Z cell) (has_cc ordered : list cell) (c : cell) :
  dependencies_first idx has_cc ordered ->
  (forall m other, In m (complement_findall (c_region c)) -> idx !! m = Some other ->
                   cell_in other has_cc = true -> cell_in other ordered = true) ->
  dependencies_first idx has_cc (ordered ++ [c]).
Proof.
  intros Hd Hc i c' m other Hi Hm Ho Hcc.
  destruct (decide (i < length ordered)%nat) as [Hlt|Hge].
  - rewrite lookup_app_l in Hi by exact Hlt.
    destruct (Hd i c' m other Hi Hm Ho Hcc) as (j & other' & Hj & Hl & E).
    exists j, other'. split; [exact Hj|]. split; [|exact E].
    rewrite lookup_app_l by lia. exact Hl.
  - rewrite lookup_app_r in Hi by lia.
    destruct (i - length ordered)%nat as [|n] eqn:En; [|destruct n; discriminate Hi].
    simpl in Hi. inversion Hi; subst c'.
    specialize (Hc m other Hm Ho Hcc). apply cell_in_lookup in Hc.
    destruct Hc as (j & other' & Hj & E).
    exists j, other'. split; [|split; [|exact E]].
    + apply lookup_lt_Some in Hj. lia.
    + rewrite lookup_app_l; [exact Hj|]. apply lookup_lt_Some in Hj. exact Hj.
Qed.

Lemma add_to_ordered_deps (idx : gmap Z cell) (has_cc : list cell) (fuel : nat) :
  forall (ordered ordered' : list cell) (c : cell),
    dependencies_first idx has_cc ordered ->
    add_to_ordered fuel idx has_cc ordered c = Ok ordered' ->
    dependencies_first idx has_cc ordered' /\
    (exists ext, ordered' = ordered ++ ext) /\
    cell_in c ordered' = true.
Proof.
  induction fuel as [|fuel IH]; intros ordered ordered' c Hinv H; [discriminate|].
  simpl in H. apply bind_ok in H. destruct H as (ordered1 & Hvisit & H).
  assert (Hv : dependencies_first idx has_cc ordered1 /\
               (exists ext, ordered1 = ordered ++ ext) /\
               (forall m other, In m (complement_findall (c_region c)) ->
                  idx !! m = Some other -> cell_in other has_cc = true ->
                  cell_in other ordered1 = true)).
  { clear H. revert ordered Hinv Hvisit.
    induction (complement_findall (c_region c)) as [|other_id ms IHms];
      intros ordered Hinv Hvisit.
    - inversion Hvisit; subst. split; [exact Hinv|]. split; [exists []; rewrite app_nil_r; auto|].
      intros m other [].
    - destruct (idx !! other_id) as [other_cell|] eqn:Eo; [|discriminate].
      apply bind_ok in Hvisit. destruct Hvisit as (ordered2 & H2 & Hvisit).
      destruct (cell_in other_cell has_cc) eqn:Ein.
      + destruct (IH _ _ _ Hinv H2) as (Hinv2 & (ext2 & ->) & Hin2).
        destruct (IHms _ Hinv2 Hvisit) as (Hinv1 & (ext1 & ->) & Hrest).
        split; [exact Hinv1|]. split; [exists (ext2 ++ ext1); rewrite app_assoc; reflexivity|].
        intros m other [<-|Hm] Ho Hcc; [|eauto].
        rewrite Eo in Ho. inversion Ho; subst other.
        rewrite cell_in_app. rewrite Hin2. reflexivity.
      + inversion H2; subst ordered2.
        destruct (IHms _ Hinv Hvisit) as (Hinv1 & Hext & Hrest).
        split; [exact Hinv1|]. split; [exact Hext|].
        intros m other [<-|Hm] Ho Hcc; [|eauto].
        rewrite Eo in Ho. inversion Ho; subst other. congruence. }
  destruct Hv as (Hinv1 & (ext & ->) & Hdeps).
  destruct (cell_in c (ordered ++ ext)) eqn:Ec; inversion H; subst ordered'; clear H.
  - split; [exact Hinv1|]. split; [eauto | exact Ec].
  - split; [apply dependencies_first_snoc; assumption|].
    split; [exists (ext ++ [c]); rewrite app_assoc; reflexivity|].
    rewrite cell_in_app. apply orb_true_iff. right.
    unfold cell_in. simpl. rewrite Z.eqb_refl. reflexivity.
Qed.

Lemma order_cells_deps (idx : gmap Z cell) (has_cc : list cell) (fuel : nat) :
  forall (todo ordered ordered' : list cell),
    dependencies_first idx has_cc ordered ->
    order_cells fuel idx has_cc todo ordered = Ok ordered' ->
    dependencies_first idx has_cc ordered'.
Proof.
  induction todo as [|c todo IH]; simpl; intros ordered ordered' Hinv H.
  - inversion H; subst. exact Hinv.
  - apply bind_ok in H. destruct H as (ordered1 & H1 & H).
    destruct (add_to_ordered_deps idx has_cc fuel _ _ _ Hinv H1) as (Hinv1 & _ & _).
    apply (IH _ _ Hinv1 H).
Qed.

(** X9. When the ordering of the cells with a cell complement returns,
    the ordered list holds every such cell exactly once, and every cell
    comes after the cells with a cell complement that its region refers
    to. *)
Theorem complement_order_sound (fuel : nat) (cells has_cc ordered : list cell) :
  List.NoDup (map c_id cells) ->
  (forall c, In c has_cc -> In c cells) ->
  order_cells fuel (index_cells cells) has_cc has_cc [] = Ok ordered ->
  List.NoDup (map c_id ordered) /\
  (forall c, In c ordered <-> In c has_cc) /\
  (forall i c m other,
     ordered !! i = Some c -> In m (complement_findall (c_region c)) ->
     index_cells cells !! m = Some other -> In other has_cc ->
     exists j, (j < i)%nat /\ ordered !! j = Some other).
Proof.
  intros Hnd Hsub H.
  destruct (order_cells_inv cells has_cc (index_cells cells) Hnd (index_cells_in cells)
              Hsub fuel has_cc [] ordered (fun x Hx => Hx)) as ([Hall Hnodup] & Hcov & _);
    [split; constructor | exact H |].
  rewrite List.Forall_forall in Hall.
  split; [exact Hnodup|]. split.
  - intros c. split; [apply Hall|].
    intros Hc. specialize (Hcov c Hc). apply cell_in_spec in Hcov.
    destruct Hcov as (c' & Hin' & E).
    rewrite <- (unique_by_id cells c' c Hnd (Hsub _ (Hall _ Hin')) (Hsub _ Hc) E). exact Hin'.
  - intros i c m other Hi Hm Ho Hcc.
    assert (Hd : dependencies_first (index_cells cells) has_cc ordered).
    { apply (order_cells_deps _ _ fuel has_cc [] ordered); [|exact H].
      intros i' c' m' o' Hi'. rewrite lookup_nil in Hi'. discriminate. }
    assert (Hcc' : cell_in other has_cc = true).
    { apply cell_in_spec. exists other. auto. }
    destruct (Hd i c m other Hi Hm Ho Hcc') as (j & other' & Hj & Hl & E).
    exists j. split; [exact Hj|].
    assert (Hin' : In other' ordered).
    { apply list_elem_of_In. apply list_elem_of_lookup. eauto. }
    rewrite <- (unique_by_id cells other' other Hnd (Hsub _ (Hall _ Hin')) (Hsub _ Hcc) E).
    exact Hl.
Qed.

Lemma complement_order_sound_witness :
  exists ordered,
    order_cells 5 (index_cells chain_cells) [mk_cell 2 "#1"; mk_cell 3 "#2"]
      [mk_cell 2 "#1"; mk_cell 3 "#2"] [] = Ok ordered /\
    List.NoDup (map c_id ordered) /\
    (forall c, In c ordered <-> In c [mk_cell 2 "#1"; mk_cell 3 "#2"]).
Proof.
  exists [mk_cell 2 "#1"; mk_cell 3 "#2"].
  assert (H : order_cells 5 (index_cells chain_cells) [mk_cell 2 "#1"; mk_cell 3 "#2"]
                [mk_cell 2 "#1"; mk_cell 3 "#2"] [] = Ok [mk_cell 2 "#1"; mk_cell 3 "#2"])
    by (vm_compute; reflexivity).
  split; [exact H|].
  destruct (complement_order_sound 5 chain_cells [mk_cell 2 "#1"; mk_cell 3 "#2"]
              [mk_cell 2 "#1"; mk_cell 3 "#2"]) as (H1 & H2 & _).
  - repeat (apply List.NoDup_cons; [simpl; intuition discriminate|]). apply List.NoDup_nil.
  - intros c Hc. simpl in *. tauto.
  - exact H.
  - split; assumption.
Defined.

Section WithTransform.
Variable tr : string -> bool -> region -> surface_table -> result (region * surface_table).

Lemma second_pass_untransformed (idx : gmap Z cell) (surfaces : surface_table) :
  forall (ordered : list cell) (regs regs' : gmap Z region),
    second_pass idx surfaces regs ordered = Ok regs' ->
    forall c, In c ordered -> c_parameters c !! "trcl" = None.
Proof.
  induction ordered as [|c0 ordered IH]; simpl; intros regs regs' H c Hc; [contradiction|].
  apply bind_ok in H. destruct H as (regs1 & H1 & H).
  destruct Hc as [<-|Hc]; [|eapply IH; eauto].
  unfold second_pass_cell in H1.
  destruct (negb (bool_decide (complement_findall (c_region c0) = []))); [|discriminate].
  apply bind_ok in H1. destruct H1 as (text & _ & H1).
  apply bind_ok in H1. destruct H1 as (r & _ & H1).
  unfold has_key in H1. destruct (c_parameters c0 !! "trcl"); [discriminate | reflexivity].
Qed.

(** X10. When the regions resolve, no cell with a cell complement has a
    [trcl] parameter: such a cell ends the conversion with an assertion
    error. *)
Theorem complement_cells_untransformed
    (fuel : nat) (cells : list cell) (surfaces : surface_table) (st : resolver_state) :
  List.NoDup (map c_id cells) ->
  resolve_regions tr fuel cells surfaces = Ok st ->
  forall c, In c cells -> complement_search (c_region c) = true ->
    c_parameters c !! "trcl" = None.
Proof.
  intros Hnd H c Hc Hs. unfold resolve_regions in H.
  apply bind_ok in H. destruct H as (st1 & H1 & H).
  apply bind_ok in H. destruct H as (ordered & Ho & H).
  apply bind_ok in H. destruct H as (regs & H2 & H).
  assert (Hinv : first_pass_inv ([] ++ cells) st1).
  { eapply (first_pass_inv_all tr cells []); [|exact H1].
    split; simpl; [reflexivity|]. intros k r Hk. rewrite lookup_empty in Hk. discriminate. }
  simpl in Hinv. destruct Hinv as [Hcc _].
  assert (Hsub : forall x, In x (st_has_cell_complement st1) -> In x cells).
  { intros x Hx. rewrite Hcc in Hx. apply List.filter_In in Hx. tauto. }
  destruct (order_cells_inv cells (st_has_cell_complement st1) (index_cells cells)
              Hnd (index_cells_in cells) Hsub fuel _ [] ordered
              (fun x Hx => Hx)) as ([Hall _] & Hcov & _); [split; constructor | exact Ho |].
  assert (Hin : In c ordered).
  { assert (Hc' : In c (st_has_cell_complement st1)).
    { rewrite Hcc. apply List.filter_In. auto. }
    specialize (Hcov c Hc'). apply cell_in_spec in Hcov.
    destruct Hcov as (c' & Hin' & E).
    rewrite List.Forall_forall in Hall.
    rewrite <- (unique_by_id cells c' c Hnd (Hsub _ (Hall _ Hin')) Hc E). exact Hin'. }
  apply (second_pass_untransformed _ _ _ _ _ H2 c Hin).
Qed.

End WithTransform.

Lemma complement_cells_untransformed_witness :
  c_parameters (mk_cell 3 "#2") !! "trcl" = None.
Proof.
  destruct (resolve_regions no_transform 5 chain_cells one_surface) as [st|e] eqn:E;
    [|vm_compute in E; discriminate E].
  apply (complement_cells_untransformed no_transform 5 chain_cells one_surface st).
  - repeat (apply List.NoDup_cons; [simpl; intuition discriminate|]). apply List.NoDup_nil.
  - exact E.
  - simpl. auto.
  - reflexivity.
Defined.

(** The degree form [*trcl] is not looked at: the cell resolves and its
    region is not transformed. *)
Example degrees_transformation_ignored :
  exists st, resolve_regions no_transform 5 degrees_cells one_surface = Ok st /\
             st_regions st !! 2 = Some (Halfspace 1 true).
Proof. eexists. split; vm_compute; reflexivity. Qed.

(** With [trcl] the same cell ends the conversion with an assertion
    error. *)
Example transformed_complement_refused :
  resolve_regions no_transform 5
    [mk_cell 1 "-1";
     {| c_id := 2; c_material := 0; c_density := "0"; c_region := "#1";
        c_parameters := {[ "trcl" := "(1 0 0)" ]} |}] one_surface
  = Raise AssertionError.
Proof. vm_compute. reflexivity. Qed.

End OrderingProperties.

Section PlacementProperties.
Import Regions Resolver Universes Lattice Placement.

Lemma fold_max_ge (l : list Z) : forall x, x <= fold_left Z.max l x.
Proof.
  induction l as [|y l IH]; simpl; intros x; [lia|].
  specialize (IH (Z.max x y)). lia.
Qed.

Lemma fold_max_in (l : list Z) : forall x, fold_left Z.max l x = x \/ In (fold_left Z.max l x) l.
Proof.
  induction l as [|y l IH]; simpl; intros x; [auto|].
  destruct (IH (Z.max x y)) as [H|H]; [|auto].
  rewrite H. destruct (Z.max_spec x y) as [[_ E]|[_ E]]; rewrite E; auto.
Qed.

Lemma fold_max_upper (l : list Z) : forall x y, In y l -> y <= fold_left Z.max l x.
Proof.
  induction l as [|z l IH]; simpl; intros x y Hy; [contradiction|].
  destruct Hy as [->|Hy]; [|auto].
  pose proof (fold_max_ge l (Z.max x y)). lia.
Qed.

Lemma max_list_spec (l : list Z) (m : Z) :
  max_list l = Some m -> In m l /\ forall y, In y l -> y <= m.
Proof.
  destruct l as [|x l]; simpl; intros H; [discriminate|]. inversion H; subst m. split.
  - destruct (fold_max_in l x) as [E|Hin]; [left; symmetry; exact E | right; exact Hin].
  - intros y [<-|Hy]; [apply fold_max_ge | apply fold_max_upper; exact Hy].
Qed.

Lemma all_univ_ids_spec (cells : list cell) (ids : list Z) :
  all_univ_ids cells = Ok ids ->
  (forall c u, In c cells -> universe_tag c = Some (Ok u) -> In u ids) /\
  (forall u, In u ids -> exists c, In c cells /\ universe_tag c = Some (Ok u)) /\
  (forall c, In c cells -> universe_tag c = None \/ exists u, universe_tag c = Some (Ok u)).
Proof.
  revert ids. induction cells as [|c cells IH]; simpl; intros ids H.
  - inversion H; subst. split; [intros c u []|]. split; [intros u []|intros c []].
  - destruct (universe_tag c) as [r|] eqn:Et.
    + apply bind_ok in H. destruct H as (uid & -> & H).
      apply bind_ok in H. destruct H as (rest & Hrest & H). inversion H; subst ids.
      destruct (IH _ Hrest) as (H1 & H2 & H3). split; [|split].
      * intros c' u [<-|Hc'] Hu; [left; congruence | right; eauto].
      * intros u [<-|Hu]; [exists c; auto|].
        destruct (H2 _ Hu) as (c' & Hc' & Ht). exists c'. auto.
      * intros c' [<-|Hc']; [right; eauto | auto].
    + destruct (IH _ H) as (H1 & H2 & H3). split; [|split].
      * intros c' u [<-|Hc'] Hu; [congruence | eauto].
      * intros u Hu. destruct (H2 _ Hu) as (c' & Hc' & Ht). exists c'. auto.
      * intros c' [<-|Hc']; [left; exact Et | auto].
Qed.

(** X11. The ids reserved at the start of [get_openmc_universes]: an
    empty cell list ends with [ValueError]; otherwise the next cell id
    is above every cell id of the input, and the next universe id (set
    only when some cell has a [u] parameter) is above every universe
    tag, so an id allocated automatically is never an id of the input. *)
Theorem reserved_ids_exceed_input (cells : list cell) :
  (cells = [] -> reserved_cell_id cells = Raise (ValueError "max() arg is an empty sequence")) /\
  (forall n, reserved_cell_id cells = Ok n ->
     (forall c, In c cells -> c_id c < n) /\
     forall used c, In c cells ->
       fst (auto_id {| next_id := n; used_ids := used |}) <> c_id c) /\
  (forall n, reserved_universe_id cells = Ok (Some n) ->
     (forall c u, In c cells -> universe_tag c = Some (Ok u) -> 0 <= u < n) /\
     forall used c u, In c cells -> universe_tag c = Some (Ok u) ->
       fst (auto_id {| next_id := n; used_ids := used |}) <> u) /\
  (reserved_universe_id cells = Ok None <->
     forall c, In c cells -> c_parameters c !! "u" = None).
Proof.
  split; [|split; [|split]].
  - intros ->. reflexivity.
  - intros n H. unfold reserved_cell_id in H.
    destruct (max_list (map c_id cells)) as [m|] eqn:Em; [|discriminate].
    inversion H; subst n. destruct (max_list_spec _ _ Em) as [_ Hup].
    assert (Hlt : forall c, In c cells -> c_id c < m + 1).
    { intros c Hc. specialize (Hup (c_id c) (in_map c_id _ _ Hc)). lia. }
    split; [exact Hlt|].
    intros used c Hc. unfold auto_id. cbn [fst next_id used_ids].
    pose proof (skip_used_ge (S (size used)) used (m + 1)). specialize (Hlt c Hc). lia.
  - intros n H. unfold reserved_universe_id in H.
    apply bind_ok in H. destruct H as (ids & Hids & H).
    destruct (max_list ids) as [m|] eqn:Em; [|discriminate].
    inversion H; subst n. destruct (max_list_spec _ _ Em) as [_ Hup].
    destruct (all_univ_ids_spec _ _ Hids) as (H1 & _ & _).
    assert (Hlt : forall c u, In c cells -> universe_tag c = Some (Ok u) -> 0 <= u < m + 1).
    { intros c u Hc Hu. specialize (Hup u (H1 c u Hc Hu)). split; [|lia].
      unfold universe_tag in Hu. destruct (c_parameters c !! "u") as [t|]; [|discriminate].
      inversion Hu as [Hu']. destruct (Py.int t) as [k|]; [|discriminate].
      simpl in Hu'. inversion Hu'. lia. }
    split; [exact Hlt|].
    intros used c u Hc Hu. unfold auto_id. cbn [fst next_id used_ids].
    pose proof (skip_used_ge (S (size used)) used (m + 1)). specialize (Hlt c u Hc Hu). lia.
  - unfold reserved_universe_id. split.
    + intros H. apply bind_ok in H. destruct H as (ids & Hids & H).
      destruct (max_list ids) as [m|] eqn:Em; [discriminate|].
      destruct ids as [|x ids]; [|discriminate].
      destruct (all_univ_ids_spec _ _ Hids) as (H1 & _ & H3).
      intros c Hc. destruct (H3 c Hc) as [Hn|(u & Hu)].
      * unfold universe_tag in Hn. destruct (c_parameters c !! "u"); [discriminate|reflexivity].
      * destruct (H1 c u Hc Hu).
    + intros H.
      assert (E : all_univ_ids cells = Ok []).
      { induction cells as [|c cells IH]; simpl; [reflexivity|].
        unfold universe_tag. rewrite (H c (or_introl eq_refl)).
        apply IH. intros c' Hc'. apply H. right. exact Hc'. }
      rewrite E. reflexivity.
Qed.

Lemma member_insert (cid uid k : Z) (u : universe) (st : conv_state) :
  member cid k (set_universes st (<[uid := u]> (cs_universes st))) <->
  (k = uid /\ cid ∈ u_cells u) \/ (k <> uid /\ member cid k st).
Proof.
  unfold member. cbn [set_universes cs_universes].
  destruct (decide (k = uid)) as [->|N].
  - rewrite lookup_insert_eq. split.
    + intros (u' & E & H). inversion E; subst. auto.
    + intros [[_ H]|[N _]]; [eauto | contradiction].
  - rewrite lookup_insert_ne by congruence. split; [auto|].
    intros [[E _]|[_ H]]; [contradiction | exact H].
Qed.

(** X12. A cell that is added to its universe becomes a cell of exactly
    that universe: the root universe 0 when it has no [u] parameter, the
    universe |u| when it has one and defines no lattice, and no universe
    when it defines a lattice.  Every other membership is as before, no
    universe is removed or changes its kind, and the universe the cell
    joins is not a lattice. *)
Theorem cell_joins_one_universe (c : cell) (st st' : conv_state) :
  add_to_universe c st = Ok st' ->
  exists home,
    home_universe c = Ok home /\
    (forall cid k,
       member cid k st' <->
       member cid k st \/ (cid = c_id c /\ home = Some k)) /\
    (forall k u, cs_universes st !! k = Some u ->
       exists u', cs_universes st' !! k = Some u' /\ u_is_lattice u' = u_is_lattice u /\
                  u_lattice u' = u_lattice u) /\
    (home = None -> st' = st) /\
    (forall k, home = Some k ->
       exists u, cs_universes st' !! k = Some u /\ u_is_lattice u = false).
Proof.
  unfold add_to_universe. intros H.
  apply bind_ok in H. destruct H as (home & Hh & H).
  exists home. split; [exact Hh|].
  destruct home as [uid|].
  - unfold get_universe in H.
    destruct (cs_universes st !! uid) as [u0|] eqn:E0.
    + rewrite E0 in H. destruct (u_is_lattice u0) eqn:El; [discriminate|].
      inversion H; subst st'; clear H. split; [|split; [|split]].
      * intros cid k. rewrite member_insert. unfold member.
        destruct (decide (k = uid)) as [->|N].
        -- rewrite E0. simpl. split.
           ++ intros [[_ Hin]|[N _]]; [|contradiction].
              apply elem_of_union in Hin. destruct Hin as [Hin|Hin].
              ** apply elem_of_singleton in Hin. right. split; [exact Hin | reflexivity].
              ** left. eauto.
           ++ intros [(u & E & Hin)|[-> _]]; left; (split; [reflexivity|]).
              ** inversion E; subst. apply elem_of_union. right. exact Hin.
              ** apply elem_of_union. left. apply elem_of_singleton. reflexivity.
        -- split.
           ++ intros [[E _]|[_ Hm]]; [contradiction | left; exact Hm].
           ++ intros [Hm|[_ E]]; [right; split; [exact N | exact Hm]|].
              inversion E. congruence.
      * intros k u Hk. cbn [set_universes cs_universes].
        destruct (decide (k = uid)) as [->|N].
        -- rewrite lookup_insert_eq. rewrite E0 in Hk. inversion Hk; subst. eauto.
        -- rewrite lookup_insert_ne by congruence. eauto.
      * discriminate.
      * intros k E. inversion E; subst k. cbn [set_universes cs_universes].
        rewrite lookup_insert_eq. eexists. split; [reflexivity | exact El].
    + cbn [create_universe cs_universes] in H. rewrite lookup_insert_eq in H.
      cbn [new_universe u_is_lattice] in H.
      inversion H; subst st'; clear H. split; [|split; [|split]].
      * intros cid k. unfold member. cbn [set_universes create_universe cs_universes].
        rewrite insert_insert_eq.
        destruct (decide (k = uid)) as [->|N].
        -- rewrite lookup_insert_eq, E0. split.
           ++ intros (u & E & Hin). inversion E; subst. simpl in Hin.
              apply elem_of_union in Hin. destruct Hin as [Hin|Hin].
              ** apply elem_of_singleton in Hin. right. auto.
              ** apply elem_of_empty in Hin. contradiction.
           ++ intros [(u & E & _)|[-> _]]; [discriminate|].
              eexists. split; [reflexivity|]. simpl.
              apply elem_of_union. left. apply elem_of_singleton. reflexivity.
        -- rewrite lookup_insert_ne by congruence. split; [auto|].
           intros [Hm|[_ E]]; [exact Hm|]. inversion E. congruence.
      * intros k u Hk. cbn [set_universes create_universe cs_universes].
        rewrite insert_insert_eq.
        destruct (decide (k = uid)) as [->|N]; [congruence|].
        rewrite lookup_insert_ne by congruence. eauto.
      * discriminate.
      * intros k E. inversion E; subst k. cbn [set_universes create_universe cs_universes].
        rewrite insert_insert_eq, lookup_insert_eq. eexists. split; reflexivity.
  - inversion H; subst st'. split; [|split; [|split]].
    + intros cid k. split; [auto|]. intros [Hm|[_ E]]; [exact Hm | discriminate].
    + intros k u Hk. eauto.
    + reflexivity.
    + discriminate.
Qed.

Lemma cell_joins_one_universe_witness :
  exists st',
    add_to_universe (tagged_cell 7 "-3") two_surfaces_state = Ok st' /\
    member 7 3 st' /\ ~ member 7 0 st'.
Proof.
  destruct (add_to_universe (tagged_cell 7 "-3") two_surfaces_state) as [st'|e] eqn:E;
    [|vm_compute in E; discriminate E].
  exists st'. split; [reflexivity|].
  destruct (cell_joins_one_universe _ _ _ E) as (home & Hh & Hm & _).
  assert (Eh : home = Some 3) by (vm_compute in Hh; inversion Hh; reflexivity).
  subst home. split.
  - apply Hm. right. split; reflexivity.
  - intros H. apply Hm in H. destruct H as [(u & Hu & Hin)|[_ H]]; [|discriminate H].
    vm_compute in Hu. inversion Hu; subst u. apply elem_of_empty in Hin. exact Hin.
Defined.

Lemma declared_kind_none (cells : list cell) (uid : Z) :
  undeclared cells uid -> declared_kind cells uid = Ok None.
Proof.
  induction cells as [|c cells IH]; simpl; intros H; [reflexivity|].
  assert (IH' : declared_kind cells uid = Ok None).
  { apply IH. intros c' Hc'. apply H. right. exact Hc'. }
  destruct (H c (or_introl eq_refl)) as [Hn|(u & Hu & Hne)]; unfold universe_tag in *.
  - destruct (c_parameters c !! "u"); [discriminate | exact IH'].
  - destruct (c_parameters c !! "u") as [t|]; [|discriminate].
    inversion Hu as [Hu']. destruct (Py.int t) as [n|]; [|discriminate].
    simpl in Hu'. inversion Hu'; subst u. cbn [bind].
    destruct (Z.eqb_spec (Z.abs n) uid) as [?|_]; [contradiction | exact IH'].
Qed.

(** X13. A cell filled with the universe [uid]: when the universe does
    not exist yet and no cell declares it, the conversion ends with
    [KeyError]; when it exists nothing changes; and when the fill
    succeeds the universe exists afterwards and every other universe,
    every cell and every surface is as before. *)
Theorem fill_needs_declared_universe (cells : list cell) (uid : Z) (st : conv_state) :
  (cs_universes st !! uid = None -> undeclared cells uid ->
   fill_with_universe cells uid st = Raise KeyError) /\
  (is_Some (cs_universes st !! uid) -> fill_with_universe cells uid st = Ok st) /\
  (forall st', fill_with_universe cells uid st = Ok st' ->
     is_Some (cs_universes st' !! uid) /\
     (forall k u, cs_universes st !! k = Some u -> cs_universes st' !! k = Some u) /\
     (forall k, k <> uid -> cs_universes st' !! k = cs_universes st !! k) /\
     cs_cells st' = cs_cells st /\ cs_surfaces st' = cs_surfaces st).
Proof.
  unfold fill_with_universe. split; [|split].
  - intros Hn Hu. rewrite Hn. rewrite (declared_kind_none cells uid Hu).
    cbn [bind]. rewrite Hn. reflexivity.
  - intros [u Hu]. rewrite Hu. cbn [bind]. rewrite Hu. reflexivity.
  - intros st' H. apply bind_ok in H. destruct H as (st1 & H1 & H).
    destruct (cs_universes st1 !! uid) as [u1|] eqn:E1; [|discriminate].
    inversion H; subst st'; clear H.
    split; [rewrite E1; eauto|].
    destruct (cs_universes st !! uid) as [u|] eqn:E.
    + inversion H1; subst st1. repeat split; auto.
    + apply bind_ok in H1. destruct H1 as (k & _ & H1).
      destruct k as [u|]; inversion H1; subst st1; clear H1.
      * cbn [create_universe cs_universes cs_cells cs_surfaces].
        split; [|split; [|split; reflexivity]].
        -- intros k u0 Hk. destruct (decide (k = uid)) as [->|N]; [congruence|].
           rewrite lookup_insert_ne by congruence. exact Hk.
        -- intros k N. rewrite lookup_insert_ne by congruence. reflexivity.
      * repeat split; auto.
Qed.

End PlacementProperties.

Section LatticeShapeProperties.
Import Regions Resolver Universes Lattice LatticeShape.

Lemma concat_chunks {A : Type} (count size : nat) (l : list A) :
  length l = (count * size)%nat -> concat (chunks count size l) = l.
Proof.
  revert l. induction count as [|count IH]; simpl; intros l Hl.
  - destruct l; [reflexivity | discriminate].
  - rewrite IH; [apply take_drop|]. rewrite length_drop. lia.
Qed.

Lemma chunks_lengths {A : Type} (count size : nat) (l0 : list A) :
  length l0 = (count * size)%nat ->
  forall l, In l (chunks count size l0) -> length l = size.
Proof.
  revert l0. induction count as [|count IH]; simpl; intros l0 Hl l Hin; [contradiction|].
  destruct Hin as [<-|Hin].
  - rewrite length_take. lia.
  - eapply IH; [|exact Hin]. rewrite length_drop. lia.
Qed.

Lemma concat_map_chunks {A : Type} (count size : nat) (ps : list (list A)) :
  (forall p, In p ps -> length p = (count * size)%nat) ->
  map (@concat A) (map (chunks count size) ps) = ps.
Proof.
  induction ps as [|p ps IH]; simpl; intros H; [reflexivity|].
  rewrite IH by (intros q Hq; apply H; right; exact Hq).
  rewrite concat_chunks by (apply H; left; reflexivity). reflexivity.
Qed.

Lemma concat_reverse_perm {A : Type} (l : list (list A)) :
  concat (reverse l) ≡ₚ concat l.
Proof.
  induction l as [|x l IH]; [reflexivity|].
  rewrite reverse_cons, concat_app. simpl. rewrite app_nil_r, IH.
  apply Permutation_app_comm.
Qed.

Lemma concat_map_perm {A : Type} (f : list A -> list A) (l : list (list A)) :
  (forall x, f x ≡ₚ x) -> concat (map f l) ≡ₚ concat l.
Proof.
  intros Hf. induction l as [|x l IH]; simpl; [reflexivity|].
  rewrite Hf, IH. reflexivity.
Qed.

Lemma flip_x_perm (a : ndarray) : arr_flat (flip_x a) ≡ₚ arr_flat a.
Proof.
  destruct a as [rows|planes]; simpl.
  - apply concat_map_perm. intros x. apply reverse_Permutation.
  - rewrite map_map. induction planes as [|p planes IH]; simpl; [reflexivity|].
    rewrite IH. apply Permutation_app; [|reflexivity].
    apply concat_map_perm. intros x. apply reverse_Permutation.
Qed.

Lemma flip_y_perm (a : ndarray) : arr_flat (flip_y a) ≡ₚ arr_flat a.
Proof.
  destruct a as [rows|planes]; simpl.
  - apply concat_reverse_perm.
  - rewrite map_map. induction planes as [|p planes IH]; simpl; [reflexivity|].
    rewrite IH. apply Permutation_app; [|reflexivity]. apply concat_reverse_perm.
Qed.

Lemma flip_z_perm (a : ndarray) : arr_flat (flip_z a) ≡ₚ arr_flat a.
Proof.
  destruct a as [rows|planes]; simpl; [reflexivity|].
  rewrite <- (reverse_Permutation planes) at 2.
  induction (reverse planes) as [|p l IH]; simpl; reflexivity.
Qed.

Lemma reshape_flat (shape : list Z) (flat : list Z) (a : ndarray) :
  Forall (fun n => 0 <= n) shape ->
  reshape shape flat = Ok a ->
  arr_flat a = flat /\ Z.of_nat (length flat) = product shape /\
  (length shape = 2 \/ length shape = 3)%nat.
Proof.
  intros Hpos H. unfold reshape in H.
  destruct shape as [|nx [|ny [|nz [|? ?]]]]; try discriminate.
  - destruct (Z.eqb_spec (Z.of_nat (length flat)) (nx * ny)) as [E|_]; [|discriminate].
    inversion H; subst a. simpl. split; [|split; [lia | auto]].
    apply concat_chunks.
    inversion Hpos as [|? ? Hx Hpos']; subst. inversion Hpos' as [|? ? Hy _]; subst. nia.
  - destruct (Z.eqb_spec (Z.of_nat (length flat)) (nx * ny * nz)) as [E|_]; [|discriminate].
    inversion H; subst a. simpl. split; [|split; [lia | auto]].
    inversion Hpos as [|? ? Hx Hpos']; subst. inversion Hpos' as [|? ? Hy Hpos'']; subst.
    inversion Hpos'' as [|? ? Hz _]; subst.
    assert (Hl : length flat = (Z.to_nat nz * Z.to_nat (nx * ny))%nat) by nia.
    rewrite <- (concat_chunks (Z.to_nat nz) (Z.to_nat (nx * ny)) flat Hl) at 2.
    f_equal.
    pose proof (chunks_lengths (Z.to_nat nz) (Z.to_nat (nx * ny)) flat Hl) as Hc.
    apply concat_map_chunks. intros p Hp. rewrite (Hc p Hp). nia.
Qed.

Lemma fill_window_ordered_bounds (fill_text : string) (w : window) :
  fill_window fill_text = Ok w ->
  let '(x0, y0, z0) := w_min w in
  let '(x1, y1, z1) := w_max w in
  x0 <= x1 /\ y0 <= y1 /\ z0 <= z1.
Proof.
  unfold fill_window. intros H.
  destruct (length (Py.split fill_text) =? 1)%nat.
  - inversion H; subst w. simpl. lia.
  - destruct (find_ranges 0 fill_text) as [|p ps]; [discriminate|].
    apply bind_ok in H. destruct H as (x & _ & H).
    apply bind_ok in H. destruct H as (y & _ & H).
    apply bind_ok in H. destruct H as (z & _ & H).
    destruct (Z.leb_spec (fst x) (snd x)); [|discriminate].
    destruct (Z.leb_spec (fst y) (snd y)); [|discriminate].
    destruct (Z.leb_spec (fst z) (snd z)); [|discriminate].
    inversion H; subst w. simpl. lia.
Qed.

(** X14. The array of a lattice holds the universe ids of the fill, each
    as often as it is listed: flipping only reorders them.  The number
    of listed ids is the product of the shape, every extent is
    max - min + 1 and at least 1, and the lattice has two or three
    axes. *)
Theorem lattice_array_shape (s : sides) (fill_text : string) (g : geometry) :
  lattice_geometry s fill_text = Ok g ->
  arr_flat (g_univ_ids g) ≡ₚ g_listed g /\
  Z.of_nat (length (g_listed g)) = product (g_shape g) /\
  g_shape g = zip_with (fun hi lo => hi - lo + 1) (g_index1 g) (g_index0 g) /\
  Forall (fun n => 1 <= n) (g_shape g) /\
  length (g_shape g) = length (g_pitch g) /\
  (length (g_pitch g) = 2 \/ length (g_pitch g) = 3)%nat.
Proof.
  unfold lattice_geometry. intros H.
  apply bind_ok in H. destruct H as ([v1 v0] & Hvs & H).
  apply bind_ok in H. destruct H as (w & Hw & H).
  pose proof (fill_window_ordered_bounds _ _ Hw) as Hb.
  destruct (w_min w) as [[xmin ymin] zmin], (w_max w) as [[xmax ymax] zmax].
  apply bind_ok in H. destruct H as (flat & Hflat & H).
  apply bind_ok in H. destruct H as (a & Ha & H).
  inversion H; subst g; clear H. cbn [g_univ_ids g_listed g_shape g_index1 g_index0 g_pitch].
  assert (Hlen : (length (map Qabs (Lattice.vsub v1 v0)) = 2 \/
                  length (map Qabs (Lattice.vsub v1 v0)) = 3)%nat /\
                 (length (map Qabs (Lattice.vsub v1 v0)) = 3 <-> side_z s <> [])%nat).
  { unfold bounding_vectors in Hvs.
    apply bind_ok in Hvs. destruct Hvs as (x & _ & Hvs).
    apply bind_ok in Hvs. destruct Hvs as (y & _ & Hvs).
    destruct (side_z s) as [|z0 zs] eqn:Ez.
    - inversion Hvs; subst. simpl. split; [auto|]. split; [discriminate | congruence].
    - apply bind_ok in Hvs. destruct Hvs as (z & _ & Hvs). inversion Hvs; subst. simpl.
      split; [auto|]. split; [discriminate | reflexivity]. }
  destruct Hlen as [Hlen Hz].
  set (three := (length (map Qabs (Lattice.vsub v1 v0)) =? 3)%nat) in *.
  set (shape := zip_with (fun hi lo => hi - lo + 1)
                  (if three then [xmax; ymax; zmax] else [xmax; ymax])
                  (if three then [xmin; ymin; zmin] else [xmin; ymin])) in *.
  assert (Hshape : Forall (fun n => 1 <= n) shape /\
                   length shape = length (map Qabs (Lattice.vsub v1 v0))).
  { unfold shape, three. destruct Hlen as [E|E]; rewrite E; simpl;
      (split; [repeat constructor; lia | reflexivity]). }
  destruct Hshape as [Hpos Hls].
  destruct (reshape_flat shape flat a) as (Hfl & Hprod & _); [|exact Ha|].
  { eapply Forall_impl; [exact Hpos|]. simpl. intros; lia. }
  split; [|repeat split; auto].
  rewrite <- Hfl.
  repeat match goal with
         | |- context [if ?b then _ else _] => destruct b
         end;
    rewrite ?flip_z_perm, ?flip_y_perm, ?flip_x_perm; reflexivity.
Qed.

Lemma lattice_array_shape_witness :
  exists g, lattice_geometry example_sides example_fill = Ok g /\
            arr_flat (g_univ_ids g) ≡ₚ g_listed g /\
            Z.of_nat (length (g_listed g)) = product (g_shape g).
Proof.
  destruct (lattice_geometry example_sides example_fill) as [g|e] eqn:E;
    [|vm_compute in E; discriminate E].
  exists g. split; [reflexivity|].
  destruct (lattice_array_shape example_sides example_fill g E) as (H1 & H2 & _).
  split; assumption.
Defined.

Lemma Qmin_compat (a a' b b' : Q) :
  (a == a')%Q -> (b == b')%Q -> (Lattice.Qmin a b == Lattice.Qmin a' b')%Q.
Proof.
  intros Ha Hb. unfold Lattice.Qmin.
  destruct (Qle_bool a b) eqn:E1, (Qle_bool a' b') eqn:E2; try assumption.
  - apply Qle_bool_iff in E1. rewrite Ha, Hb in E1.
    assert (E3 : ~ (a' <= b')%Q) by (rewrite <- Qle_bool_iff; congruence).
    exfalso. exact (E3 E1).
  - apply Qle_bool_iff in E2. rewrite <- Ha, <- Hb in E2.
    assert (E3 : ~ (a <= b)%Q) by (rewrite <- Qle_bool_iff; congruence).
    exfalso. exact (E3 E2).
Qed.

Lemma Qmin_origin (a b d : Q) :
  (Lattice.Qmin (a + inject_Z 0 * d) (b + inject_Z 0 * d) == Lattice.Qmin a b)%Q.
Proof. apply Qmin_compat; ring. Qed.

(** X15. A fill of a single word is an infinite lattice: the index window
    is 0:0 on every axis, the shape is 1 on every axis, the array holds
    the one universe, and the lower-left corner is the smaller of the
    two bounding planes on every axis. *)
Theorem infinite_lattice_geometry (s : sides) (fill_text w : string) (n : Z)
    (v1 v0 : list Q) :
  Py.split fill_text = [w] -> Py.int w = Ok n -> bounding_vectors s = Ok (v1, v0) ->
  exists g,
    lattice_geometry s fill_text = Ok g /\ g_inf g = true /\
    arr_flat (g_univ_ids g) = [n] /\
    g_shape g = map (fun _ => 1) v1 /\
    g_pitch g = map Qabs (Lattice.vsub v1 v0) /\
    Forall2 Qeq (g_lower_left g) (zip_with Lattice.Qmin v0 v1).
Proof.
  intros Hs Hw Hv. unfold lattice_geometry. rewrite Hv. cbn [bind].
  unfold fill_window. rewrite Hs. cbn [length Nat.eqb bind w_min w_max w_ids w_inf ints].
  rewrite Hw. cbn [bind].
  unfold bounding_vectors in Hv.
  apply bind_ok in Hv. destruct Hv as (x & _ & Hv).
  apply bind_ok in Hv. destruct Hv as (y & _ & Hv).
  destruct (side_z s) as [|z0 zs] eqn:Ez.
  - inversion Hv; subst v1 v0; clear Hv. simpl.
    repeat match goal with |- context [if ?b then _ else _] => destruct b end;
      (eexists; split; [reflexivity|]; simpl; repeat split; try reflexivity;
       repeat constructor; apply Qmin_origin).
  - apply bind_ok in Hv. destruct Hv as (z & _ & Hv).
    inversion Hv; subst v1 v0; clear Hv. simpl.
    repeat match goal with |- context [if ?b then _ else _] => destruct b end;
      (eexists; split; [reflexivity|]; simpl; repeat split; try reflexivity;
       repeat constructor; apply Qmin_origin).
Qed.

Lemma infinite_lattice_geometry_witness :
  exists g,
    lattice_geometry example_sides "7" = Ok g /\ g_inf g = true /\
    arr_flat (g_univ_ids g) = [7] /\ g_shape g = [1; 1].
Proof.
  destruct (infinite_lattice_geometry example_sides "7" "7" 7 [0; -5]%Q [10; 5]%Q)
    as (g & H1 & H2 & H3 & H4 & _); try reflexivity.
  exists g. repeat split; assumption.
Defined.

Lemma arr_map_map (f g : Z -> Z) (a : ndarray) :
  arr_map f (arr_map g a) = arr_map (fun x => f (g x)) a.
Proof.
  destruct a as [rows|planes]; simpl; f_equal.
  - rewrite map_map. apply map_ext. intros r. apply map_map.
  - rewrite map_map. apply map_ext. intros p. rewrite map_map. apply map_ext.
    intros r. apply map_map.
Qed.

Lemma arr_map_ext_in (f g : Z -> Z) (a : ndarray) :
  (forall x, In x (arr_flat a) -> f x = g x) -> arr_map f a = arr_map g a.
Proof.
  destruct a as [rows|planes]; simpl; intros H; f_equal.
  - apply map_ext_in. intros r Hr. apply map_ext_in. intros x Hx.
    apply H. apply in_concat. eauto.
  - apply map_ext_in. intros p Hp. apply map_ext_in. intros r Hr.
    apply map_ext_in. intros x Hx. apply H. apply in_concat.
    exists (concat p). split; [apply in_map; exact Hp | apply in_concat; eauto].
Qed.

(** The loop over the distinct universes of the grid, for any list of
    distinct ids below the first automatic id [N0]. *)
Lemma translate_universes_wraps (shift : list Q) (N0 : Z) :
  forall (uids : list Z) (a a' : ndarray) (st st' : conv_state),
    ids_consistent st ->
    N0 <= next_id (cs_universe_ids st) ->
    List.NoDup uids ->
    (forall x, In x uids -> x < N0) ->
    translate_universes shift uids a st = (a', st') ->
    ids_consistent st' /\ extends st st' /\
    exists f,
      a' = arr_map f a /\
      (forall x, ~ In x uids -> f x = x) /\
      (forall x, In x uids ->
         next_id (cs_universe_ids st) <= f x /\
         cs_universes st !! f x = None /\
         is_Some (cs_universes st' !! x) /\
         exists cid, cs_cells st !! cid = None /\
           cs_universes st' !! f x = Some (single_cell_universe cid) /\
           cs_cells st' !! cid = Some (translated_cell x shift)) /\
      (forall x y, In x uids -> In y uids -> f x = f y -> x = y).
Proof.
  induction uids as [|uid uids IH]; intros a a' st st' Hc HN Hnd Hlt H.
  - cbn [translate_universes] in H. inversion H; subst a' st'.
    split; [exact Hc|]. split; [apply extends_refl|].
    exists (fun x => x). split.
    + destruct a as [rows|planes]; simpl; f_equal.
      * rewrite <- (map_id rows) at 1. apply map_ext. intros r. symmetry. apply map_id.
      * rewrite <- (map_id planes) at 1. apply map_ext. intros p.
        rewrite <- (map_id p) at 1. apply map_ext. intros r. symmetry. apply map_id.
    + split; [reflexivity|]. split; [intros x [] | intros x y []].
  - cbn [translate_universes] in H.
    inversion Hnd as [|? ? Hnot Hnd']; subst.
    destruct (get_universe_spec uid st Hc) as (Hc1 & He1 & Hs1 & Hn1).
    destruct (wrap_in_universe (FillUniverse uid) (Some shift) (get_universe uid st))
      as [u st2] eqn:Ew.
    destruct (wrap_in_universe_spec _ _ _ _ _ Hc1 Ew)
      as (cid & Hu1 & Hcid1 & Hus2 & Hcs2 & Hle & Hnext & Hc2 & He2).
    assert (Hu_ge : N0 <= u) by lia.
    destruct (IH _ _ _ _ Hc2 ltac:(lia) Hnd'
                ltac:(intros x Hx; apply Hlt; right; exact Hx) H)
      as (Hc' & He' & f' & Ha' & Hid' & Hw' & Hinj').
    assert (He02 : extends st st2) by (eapply extends_trans; eassumption).
    split; [exact Hc'|]. split; [eapply extends_trans; eassumption|].
    assert (Hfu : f' u = u).
    { apply Hid'. intros Hin. specialize (Hlt u (or_intror Hin)). lia. }
    assert (Hnone : forall k, cs_universes st2 !! k = None -> cs_universes st !! k = None).
    { intros k Hk. destruct (cs_universes st !! k) as [x|] eqn:Ex; [|reflexivity].
      destruct He02 as (Hsome & _). rewrite (Hsome _ _ Ex) in Hk. discriminate. }
    assert (Hcnone : forall k, cs_cells st2 !! k = None -> cs_cells st !! k = None).
    { intros k Hk. destruct (cs_cells st !! k) as [x|] eqn:Ex; [|reflexivity].
      destruct He02 as (_ & Hsome & _). rewrite (Hsome _ _ Ex) in Hk. discriminate. }
    exists (fun x => f' (if x =? uid then u else x)). split; [|split; [|split]].
    + rewrite Ha'. unfold arr_replace. apply arr_map_map.
    + intros x Hx. destruct (Z.eqb_spec x uid) as [->|N]; [exfalso; apply Hx; left; reflexivity|].
      apply Hid'. intros Hin. apply Hx. right. exact Hin.
    + intros x [<-|Hx].
      * rewrite Z.eqb_refl, Hfu.
        split; [lia|]. split.
        -- destruct (cs_universes st !! u) as [x|] eqn:Ex; [|reflexivity].
           destruct He1 as (Hsome & _). rewrite (Hsome _ _ Ex) in Hu1. discriminate.
        -- split.
           ++ destruct Hs1 as [x Hx]. destruct He2 as (Hs2 & _). destruct He' as (Hs' & _).
              exists x. apply Hs'. apply Hs2. exact Hx.
           ++ exists cid. split; [|split].
              ** destruct (cs_cells st !! cid) as [x|] eqn:Ex; [|reflexivity].
                 destruct He1 as (_ & Hsome & _). rewrite (Hsome _ _ Ex) in Hcid1.
                 discriminate.
              ** destruct He' as (Hs' & _). apply Hs'. rewrite Hus2. apply lookup_insert_eq.
              ** destruct He' as (_ & Hs' & _). apply Hs'. rewrite Hcs2. apply lookup_insert_eq.
      * destruct (Z.eqb_spec x uid) as [->|N]; [contradiction|].
        destruct (Hw' x Hx) as (Hge & Hfresh & Hsome & cid' & Hcf & Hwu & Hwc).
        split; [lia|]. split; [apply Hnone; exact Hfresh|]. split; [exact Hsome|].
        exists cid'. split; [apply Hcnone; exact Hcf | split; assumption].
    + assert (Hne : forall x, In x uids -> f' x <> u).
      { intros x Hx E. destruct (Hw' x Hx) as (_ & Hfresh & _).
        rewrite E, Hus2, lookup_insert_eq in Hfresh. discriminate. }
      intros x y Hx Hy.
      destruct (Z.eqb_spec x uid) as [->|Nx], (Z.eqb_spec y uid) as [->|Ny]; try reflexivity.
      * rewrite Hfu. intros E. destruct Hy as [<-|Hy]; [contradiction|].
        exfalso. apply (Hne y Hy). congruence.
      * rewrite Hfu. intros E. destruct Hx as [<-|Hx]; [contradiction|].
        exfalso. apply (Hne x Hx). congruence.
      * destruct Hx as [<-|Hx]; [contradiction|]. destruct Hy as [<-|Hy]; [contradiction|].
        apply Hinj'; assumption.
Qed.

Lemma unique_spec (a : ndarray) :
  List.NoDup (unique a) /\ forall x, In x (unique a) <-> In x (arr_flat a).
Proof.
  unfold unique. split.
  - apply NoDup_ListNoDup. rewrite merge_sort_Permutation. apply NoDup_remove_dups.
  - intros x. rewrite <- !list_elem_of_In. rewrite merge_sort_Permutation.
    apply elem_of_remove_dups.
Qed.

(** X16. For a lattice that is not centred on the origin, and whose
    universe ids are all below the next automatic id: every element x of
    the grid is replaced by a universe f x that did not exist before,
    holds a single new cell filled with the universe x and translated by
    the given shift; distinct universes get distinct replacements, the
    universe x exists afterwards, and no universe already in the table
    is changed. *)
Theorem translated_lattice_universes (shift : list Q) (a a' : ndarray)
    (st st' : conv_state) :
  ids_consistent st ->
  (forall x, In x (arr_flat a) -> x < next_id (cs_universe_ids st)) ->
  translate_universes shift (unique a) a st = (a', st') ->
  exists f,
    a' = arr_map f a /\
    (forall x, In x (arr_flat a) ->
       next_id (cs_universe_ids st) <= f x /\
       cs_universes st !! f x = None /\
       is_Some (cs_universes st' !! x) /\
       exists cid, cs_cells st !! cid = None /\
         cs_universes st' !! f x = Some (single_cell_universe cid) /\
         cs_cells st' !! cid = Some (translated_cell x shift)) /\
    (forall x y, In x (arr_flat a) -> In y (arr_flat a) -> f x = f y -> x = y) /\
    (forall k u, cs_universes st !! k = Some u -> cs_universes st' !! k = Some u).
Proof.
  intros Hc Hlt H. destruct (unique_spec a) as [Hnd Hin].
  destruct (translate_universes_wraps shift (next_id (cs_universe_ids st)) (unique a)
              a a' st st' Hc ltac:(lia) Hnd
              ltac:(intros x Hx; apply Hlt; apply Hin; exact Hx) H)
    as (_ & He & f & Ha & _ & Hw & Hinj).
  exists f. split; [exact Ha|]. split; [|split].
  - intros x Hx. apply Hw. apply Hin. exact Hx.
  - intros x y Hx Hy. apply Hinj; apply Hin; assumption.
  - destruct He as (Hs & _). exact Hs.
Qed.

Lemma translated_lattice_universes_witness :
  exists f a' st',
    translate_universes [-5; 0; 0]%Q (unique (Arr2 [[5; 3; 5]])) (Arr2 [[5; 3; 5]])
      self_fill_state = (a', st') /\
    a' = arr_map f (Arr2 [[5; 3; 5]]) /\ f 5 <> f 3 /\
    is_Some (cs_universes st' !! 3).
Proof.
  destruct (translate_universes [-5; 0; 0]%Q (unique (Arr2 [[5; 3; 5]])) (Arr2 [[5; 3; 5]])
              self_fill_state) as [a' st'] eqn:E.
  destruct (translated_lattice_universes [-5; 0; 0]%Q (Arr2 [[5; 3; 5]]) a' self_fill_state st'
              self_fill_state_consistent
              ltac:(intros x Hx; simpl in Hx; change (x < 6); intuition lia) E)
    as (f & Ha & Hw & Hinj & _).
  exists f, a', st'. split; [reflexivity|]. split; [exact Ha|]. split.
  - intros Ef. assert (H58 : 5 = 3) by (apply Hinj; simpl; auto). discriminate H58.
  - apply (Hw 3). simpl. auto.
Defined.

Lemma get_universe_keeps (uid : Z) (st : conv_state) (k : Z) :
  is_Some (cs_universes st !! k) -> is_Some (cs_universes (get_universe uid st) !! k).
Proof.
  unfold get_universe. destruct (cs_universes st !! uid) eqn:E; [auto|].
  cbn [create_universe cs_universes]. intros H.
  destruct (decide (k = uid)) as [->|N]; [rewrite lookup_insert_eq; eauto|].
  rewrite lookup_insert_ne by congruence. exact H.
Qed.

Lemma get_universe_has (uid : Z) (st : conv_state) :
  is_Some (cs_universes (get_universe uid st) !! uid).
Proof.
  unfold get_universe. destruct (cs_universes st !! uid) eqn:E; [rewrite E; eauto|].
  cbn [create_universe cs_universes]. rewrite lookup_insert_eq. eauto.
Qed.

Lemma get_universes_all (l : list Z) :
  forall st,
    (forall k, is_Some (cs_universes st !! k) ->
               is_Some (cs_universes (fold_left (fun st uid => get_universe uid st) l st) !! k)) /\
    (forall x, In x l ->
               is_Some (cs_universes (fold_left (fun st uid => get_universe uid st) l st) !! x)).
Proof.
  induction l as [|uid l IH]; simpl; intros st; [split; [auto | intros x []]|].
  destruct (IH (get_universe uid st)) as [Hk Hx]. split.
  - intros k H. apply Hk. apply get_universe_keeps. exact H.
  - intros x [<-|Hin]; [apply Hk; apply get_universe_has | apply Hx; exact Hin].
Qed.

Lemma wrap_keeps (f : fill) (t : option (list Q)) (st : conv_state) (k : Z) :
  is_Some (cs_universes st !! k) ->
  is_Some (cs_universes (snd (wrap_in_universe f t st)) !! k).
Proof.
  unfold wrap_in_universe.
  destruct (auto_id (cs_cell_ids st)) as [cid cids].
  destruct (auto_id (cs_universe_ids st)) as [uid uids].
  cbn [snd cs_universes]. intros H.
  destruct (decide (k = uid)) as [->|N]; [rewrite lookup_insert_eq; eauto|].
  rewrite lookup_insert_ne by congruence. exact H.
Qed.

Lemma translate_keeps (shift : list Q) (uids : list Z) :
  forall a st k,
    is_Some (cs_universes st !! k) ->
    is_Some (cs_universes (snd (translate_universes shift uids a st)) !! k).
Proof.
  induction uids as [|uid uids IH]; intros a st k H; cbn [translate_universes]; [exact H|].
  pose proof (wrap_keeps (FillUniverse uid) (Some shift) (get_universe uid st) k
                (get_universe_keeps uid st k H)) as Hw.
  destruct (wrap_in_universe (FillUniverse uid) (Some shift) (get_universe uid st))
    as [u st2]. apply IH. exact Hw.
Qed.

(** X17. When a lattice is built, the universe of its cell carries the
    lattice data, every universe id stored in the lattice (and its outer
    universe, for an infinite lattice) names a universe of the table,
    and no universe is removed from the table. *)
Theorem lattice_universes_exist (c : cell) (r : region) (st st' : conv_state) (b : bool) :
  build_lattice c r st = Ok (st', b) ->
  exists uid lat_u data,
    universe_tag c = Some (Ok uid) /\
    cs_universes st' !! uid = Some lat_u /\ u_lattice lat_u = Some data /\
    (forall x, In x (arr_flat (lat_universes data)) -> is_Some (cs_universes st' !! x)) /\
    (forall x, lat_outer data = Some x -> is_Some (cs_universes st' !! x)) /\
    (forall k, is_Some (cs_universes st !! k) -> is_Some (cs_universes st' !! k)).
Proof.
  unfold build_lattice. intros H.
  apply bind_ok in H. destruct H as (lat & _ & H).
  destruct (lat =? 2); [discriminate|].
  apply bind_ok in H. destruct H as (uid & Huid & H).
  destruct (universe_tag c) as [rt|] eqn:Et; [|discriminate]. subst rt.
  apply bind_ok in H. destruct H as (nodes & _ & H).
  destruct (length nodes <? 4)%nat; [discriminate|].
  apply bind_ok in H. destruct H as (s & _ & H).
  destruct (bool_decide (side_x s = []) || bool_decide (side_y s = [])); [discriminate|].
  apply bind_ok in H. destruct H as (vs & _ & H).
  apply bind_ok in H. destruct H as (fill_text & _ & H).
  apply bind_ok in H. destruct H as (g & _ & H).
  apply bind_ok in H. destruct H as ([a1 st1] & Hself & H).
  set (st0 := match cs_universes st !! uid with
              | Some _ => st
              | None => create_universe uid new_lattice st
              end) in *.
  assert (H0 : forall k, is_Some (cs_universes st !! k) -> is_Some (cs_universes st0 !! k)).
  { intros k Hk. unfold st0. destruct (cs_universes st !! uid) eqn:E; [exact Hk|].
    cbn [create_universe cs_universes].
    destruct (decide (k = uid)) as [->|N]; [rewrite lookup_insert_eq; eauto|].
    rewrite lookup_insert_ne by congruence. exact Hk. }
  assert (H0u : is_Some (cs_universes st0 !! uid)).
  { unfold st0. destruct (cs_universes st !! uid) eqn:E; [rewrite E; eauto|].
    cbn [create_universe cs_universes]. rewrite lookup_insert_eq. eauto. }
  assert (H1 : forall k, is_Some (cs_universes st0 !! k) -> is_Some (cs_universes st1 !! k)).
  { intros k Hk. unfold self_fill in Hself.
    destruct (existsb (Z.eqb uid) (arr_flat (g_univ_ids g))).
    - destruct (cs_mat st0) as [m|]; [|discriminate].
      pose proof (wrap_keeps (FillMaterial m) None st0 k Hk) as Hw.
      destruct (wrap_in_universe (FillMaterial m) None st0) as [u stw].
      inversion Hself; subst. exact Hw.
    - inversion Hself; subst. exact Hk. }
  set (ctr := center (g_v0 g) (g_v1 g)) in *.
  destruct (if centered ctr then (a1, st1)
            else translate_universes (map Qopp ctr) (unique a1) a1 st1)
    as [a2 st2] eqn:E2.
  assert (H2 : forall k, is_Some (cs_universes st1 !! k) -> is_Some (cs_universes st2 !! k)).
  { intros k Hk. destruct (centered ctr).
    - inversion E2; subst. exact Hk.
    - pose proof (translate_keeps (map Qopp ctr) (unique a1) a1 st1 k Hk) as Ht.
      rewrite E2 in Ht. exact Ht. }
  inversion H; subst st' b; clear H.
  destruct (get_universes_all (arr_flat a2) st2) as [H3 H3x].
  fold (get_universes a2 st2) in H3, H3x.
  assert (Hall : forall k, is_Some (cs_universes st !! k) ->
                           is_Some (cs_universes (get_universes a2 st2) !! k)) by auto.
  assert (Hset : forall d k, is_Some (cs_universes (get_universes a2 st2) !! k) ->
                 is_Some (cs_universes (set_lattice uid d (get_universes a2 st2)) !! k)).
  { intros d k [x Hx]. cbn [set_lattice set_universes cs_universes].
    destruct (decide (k = uid)) as [->|N].
    - rewrite lookup_alter_eq, Hx. simpl. eauto.
    - rewrite lookup_alter_ne by congruence. eauto. }
  destruct (H3 uid (H2 _ (H1 _ H0u))) as [lu Hlu].
  eexists uid, _, _. split; [reflexivity|].
  split; [cbn [set_lattice set_universes cs_universes]; rewrite lookup_alter_eq, Hlu;
          reflexivity|].
  split; [reflexivity|]. cbn [lat_universes lat_outer]. split; [|split].
  - intros x Hx. apply Hset. apply H3x. rewrite in_arr_flat_flip_y in Hx. exact Hx.
  - intros x Hx. destruct (g_inf g); [|discriminate].
    apply Hset. apply H3x. destruct (arr_flat a2) as [|y l]; [discriminate|].
    inversion Hx; subst. left. reflexivity.
  - intros k Hk. apply Hset. apply Hall. exact Hk.
Qed.

Lemma lattice_universes_exist_witness :
  exists st' b uid lat_u data,
    build_lattice self_fill_cell self_fill_region
      (set_mat self_fill_state (Some 3)) = Ok (st', b) /\
    cs_universes st' !! uid = Some lat_u /\ u_lattice lat_u = Some data /\
    (forall x, In x (arr_flat (lat_universes data)) -> is_Some (cs_universes st' !! x)).
Proof.
  destruct (build_lattice self_fill_cell self_fill_region (set_mat self_fill_state (Some 3)))
    as [[st' b]|e] eqn:E; [|vm_compute in E; discriminate E].
  destruct (lattice_universes_exist _ _ _ _ _ E) as (uid & lat_u & data & _ & H1 & H2 & H3 & _).
  exists st', b, uid, lat_u, data. repeat split; assumption.
Defined.

End LatticeShapeProperties.

Section ParsedProperties.
Import Regions FinalPass Parsed.

Lemma flat_map_nil {A B : Type} (f : A -> list B) (l : list A) :
  flat_map f l = [] <-> Forall (fun x => f x = []) l.
Proof.
  induction l as [|x l IH]; simpl.
  - split; [constructor | reflexivity].
  - split.
    + intros H. apply app_eq_nil in H. destruct H as [H1 H2].
      constructor; [exact H1 | apply IH; exact H2].
    + intros H. inversion H; subst. rewrite H2. simpl. apply IH. assumption.
Qed.

Lemma reached_invert (r : region) : reached r = [] -> reached (invert r) = [].
Proof. destruct r; simpl; intros H; try reflexivity. Qed.

Lemma reached_list (l : list region) :
  (reached (Intersection l) = [] <-> Forall (fun x => reached x = []) l) /\
  (reached (Union l) = [] <-> Forall (fun x => reached x = []) l).
Proof. split; simpl; apply flat_map_nil. Qed.

Lemma reached_inter_app (l1 l2 : list region) :
  Forall (fun x => reached x = []) l1 -> Forall (fun x => reached x = []) l2 ->
  reached (Intersection (l1 ++ l2)) = [].
Proof. intros H1 H2. apply reached_list. apply Forall_app. auto. Qed.

Lemma reached_union_app (l1 l2 : list region) :
  Forall (fun x => reached x = []) l1 -> Forall (fun x => reached x = []) l2 ->
  reached (Union (l1 ++ l2)) = [].
Proof. intros H1 H2. apply reached_list. apply Forall_app. auto. Qed.

Lemma apply_operator_plain (output output' : list region) (op : token) :
  Forall (fun x => reached x = []) output ->
  apply_operator output op = Ok output' ->
  Forall (fun x => reached x = []) output'.
Proof.
  intros Hout H. unfold apply_operator in H.
  destruct output as [|r2 out1]; [discriminate|].
  inversion Hout as [|? ? H2 Hout1]; subst.
  assert (Hone : forall r, reached r = [] -> Forall (fun x => reached x = []) [r])
    by (intros; constructor; [assumption | constructor]).
  destruct op; try (inversion H; subst; assumption).
  - destruct out1 as [|r1 out2]; [discriminate|].
    inversion Hout1 as [|? ? H1 Hout2]; subst.
    inversion H; subst output'; clear H. constructor; [|exact Hout2].
    destruct r1 as [s1 p1|l1|l1|n1], r2 as [s2 p2|l2|l2|n2]; cbn [can_be_combined];
      first [ apply (reached_union_app [_] [_]); auto
            | apply reached_union_app;
              first [ apply reached_list; assumption | apply Hone; assumption ]
            | apply (reached_union_app [_]);
              first [ apply reached_list; assumption | apply Hone; assumption ] ].
  - inversion H; subst output'; clear H. constructor; [|exact Hout1].
    apply reached_invert. exact H2.
  - destruct out1 as [|r1 out2]; [discriminate|].
    inversion Hout1 as [|? ? H1 Hout2]; subst.
    inversion H; subst output'; clear H. constructor; [|exact Hout2].
    destruct r1 as [s1 p1|l1|l1|n1], r2 as [s2 p2|l2|l2|n2]; cbn [can_be_combined];
      first [ apply (reached_inter_app [_] [_]); auto
            | apply reached_inter_app;
              first [ apply reached_list; assumption | apply Hone; assumption ]
            | apply (reached_inter_app [_]);
              first [ apply reached_list; assumption | apply Hone; assumption ] ].
Qed.

Lemma reduce_ops_plain (tok : token) (stack : list token) :
  forall output so,
    Forall (fun x => reached x = []) output ->
    reduce_ops tok stack output = Ok so ->
    Forall (fun x => reached x = []) (snd so).
Proof.
  induction stack as [|op stack IH]; simpl; intros output so Hout H.
  - inversion H; subst. exact Hout.
  - destruct (is_operator op && _).
    + apply bind_ok in H. destruct H as (output' & Ha & H).
      apply (IH output'); [|exact H]. eapply apply_operator_plain; eassumption.
    + inversion H; subst. exact Hout.
Qed.

Lemma close_paren_plain (stack : list token) :
  forall first output so,
    Forall (fun x => reached x = []) output ->
    close_paren first stack output = Ok so ->
    Forall (fun x => reached x = []) (snd so).
Proof.
  induction stack as [|op stack IH]; simpl; intros first output so Hout H; [discriminate|].
  destruct op; try (inversion H; subst; exact Hout);
    (apply bind_ok in H; destruct H as (output' & Ha & H);
     apply (IH false output'); [eapply apply_operator_plain; eassumption | exact H]).
Qed.

Lemma shunt_plain (tokens : list token) :
  forall stack output so,
    Forall plain_token tokens ->
    Forall (fun x => reached x = []) output ->
    shunt tokens stack output = Ok so ->
    Forall (fun x => reached x = []) (snd so).
Proof.
  induction tokens as [|tok tokens IH]; simpl; intros stack output so Htok Hout H.
  - inversion H; subst. exact Hout.
  - inversion Htok as [|? ? Ht Htok']; subst.
    apply bind_ok in H. destruct H as (so1 & H1 & H).
    apply (IH (fst so1) (snd so1)); [exact Htok' | | exact H].
    destruct tok.
    + inversion H1; subst. exact Hout.
    + eapply close_paren_plain; eassumption.
    + apply bind_ok in H1. destruct H1 as (so0 & H0 & H1). inversion H1; subst. simpl.
      eapply reduce_ops_plain; eassumption.
    + apply bind_ok in H1. destruct H1 as (so0 & H0 & H1). inversion H1; subst. simpl.
      eapply reduce_ops_plain; eassumption.
    + apply bind_ok in H1. destruct H1 as (so0 & H0 & H1). inversion H1; subst. simpl.
      eapply reduce_ops_plain; eassumption.
    + inversion H1; subst. simpl. constructor; [exact Ht | exact Hout].
Qed.

Lemma drain_plain (stack : list token) :
  forall output output',
    Forall (fun x => reached x = []) output ->
    drain stack output = Ok output' ->
    Forall (fun x => reached x = []) output'.
Proof.
  induction stack as [|op stack IH]; simpl; intros output output' Hout H.
  - inversion H; subst. exact Hout.
  - destruct op; try discriminate;
      (apply bind_ok in H; destruct H as (o1 & Ha & H);
       apply (IH o1); [eapply apply_operator_plain; eassumption | exact H]).
Qed.

Section Tokens.
Variable surfaces : surface_table.
Hypothesis Hplain : plain_table surfaces.

Lemma halfspace_of_plain (j : Z) (r : region) :
  halfspace_of surfaces j = Ok r -> reached r = [].
Proof.
  unfold halfspace_of. destruct (surfaces !! Z.abs j) as [[k b|n p]|] eqn:E; intros H;
    inversion H; subst; [reflexivity|].
  destruct (Hplain _ _ _ E) as [Hn Hp]. destruct (j <? 0); assumption.
Qed.

Lemma flush_plain (word : option string) (tokens tokens' : list token) :
  Forall plain_token tokens -> flush surfaces word tokens = Ok tokens' ->
  Forall plain_token tokens'.
Proof.
  intros Ht H. destruct word as [w|]; simpl in H; [|inversion H; subst; exact Ht].
  apply bind_ok in H. destruct H as (j & _ & H).
  apply bind_ok in H. destruct H as (h & Hh & H). inversion H; subst.
  apply Forall_app. split; [exact Ht|]. constructor; [|constructor].
  simpl. eapply halfspace_of_plain. exact Hh.
Qed.

Lemma snoc_plain (tokens : list token) (t : token) :
  Forall plain_token tokens -> plain_token t -> Forall plain_token (tokens ++ [t]).
Proof. intros H Ht. apply Forall_app. split; [exact H | constructor; [exact Ht | constructor]]. Qed.

Lemma tokenize_plain (text : string) :
  forall word tokens tokens',
    Forall plain_token tokens ->
    tokenize surfaces text word tokens = Ok tokens' ->
    Forall plain_token tokens'.
Proof.
  induction text as [|c rest IH]; simpl; intros word tokens tokens' Ht H.
  - eapply flush_plain; eassumption.
  - destruct (is_special c).
    + apply bind_ok in H. destruct H as (tokens1 & H1 & H).
      pose proof (flush_plain _ _ _ Ht H1) as Ht1.
      apply bind_ok in H. destruct H as (tokens3 & H3 & H).
      apply (IH None tokens3); [|exact H].
      assert (Ht2 : Forall plain_token
                (if has_word word && Ascii.eqb c "(" then tokens1 ++ [TInter] else tokens1)).
      { destruct (has_word word && Ascii.eqb c "("); [apply snoc_plain; simpl; auto | exact Ht1]. }
      destruct (is_paren_or_op c).
      * inversion H3; subst tokens3.
        assert (Htc : plain_token (token_of_char c)).
        { unfold token_of_char. repeat destruct (Ascii.eqb c _); exact I. }
        destruct (Ascii.eqb c ")" && starts_with_lparen rest);
          repeat apply snoc_plain; simpl; auto.
      * destruct (next_nonblank rest) as [c'|]; [|discriminate].
        apply bind_ok in H3. destruct H3 as (prev & _ & H3). inversion H3; subst tokens3.
        destruct (prev && negb _); [apply snoc_plain; simpl; auto | exact Ht2].
    + destruct (is_word_char c); [|discriminate]. eapply IH; eassumption.
Qed.

Lemma from_expression_plain (text : string) (r : region) :
  from_expression text surfaces = Ok r -> reached r = [].
Proof.
  unfold from_expression. intros H.
  apply bind_ok in H. destruct H as (tokens & Htok & H).
  apply bind_ok in H. destruct H as (so & Hso & H).
  apply bind_ok in H. destruct H as (output & Hout & H).
  destruct (last output) as [r'|] eqn:El; [|discriminate]. inversion H; subst r'.
  assert (Hall : Forall (fun x => reached x = []) output).
  { eapply drain_plain; [|exact Hout].
    eapply shunt_plain; [|constructor|exact Hso].
    eapply tokenize_plain; [constructor | exact Htok]. }
  rewrite List.Forall_forall in Hall. apply Hall.
  apply list_elem_of_In. apply last_Some_elem_of. exact El.
Qed.

End Tokens.

Lemma expand_plain (r : region) : reached r = [] -> expand r = of_region r.
Proof.
  induction r as [s p|l IH|l IH|n IH] using region_nested_ind; intros H.
  - reflexivity.
  - simpl. f_equal. apply reached_list in H.
    induction l as [|x l IHl]; simpl; [reflexivity|].
    inversion IH; subst. inversion H; subst. f_equal; auto.
  - simpl. f_equal. apply reached_list in H.
    induction l as [|x l IHl]; simpl; [reflexivity|].
    inversion IH; subst. inversion H; subst. f_equal; auto.
  - destruct n; simpl in *; try reflexivity. discriminate.
Qed.

Lemma expanded_table_plain (regions : list (Z * region)) :
  (forall k r, In (k, r) regions -> reached r = []) ->
  expanded_table regions = table_of regions.
Proof.
  intros H. unfold expanded_table, table_of. apply map_ext_in.
  intros [k r] Hin. simpl. f_equal. apply expand_plain. eapply H. exact Hin.
Qed.

(** X18. A region built by the region parser holds no complement of a
    half-space that the final pass would reach (the parser turns the
    complement of a half-space into the opposite half-space), so for
    cells whose regions come from the parser the final pass changes
    nothing and cannot fail. *)
Theorem parsed_regions_need_no_expansion (surfaces : surface_table)
    (regions : list (Z * region)) :
  plain_table surfaces ->
  List.NoDup (map fst regions) ->
  (forall k r, In (k, r) regions -> exists text, from_expression text surfaces = Ok r) ->
  (forall k r, In (k, r) regions ->
     reached r = [] /\
     replace_complement (table_of regions) (of_region r) = Ok (of_region r)) /\
  expand_shorthand (table_of regions) = Ok (table_of regions).
Proof.
  intros Hplain Hnd Hparsed.
  assert (Hr : forall k r, In (k, r) regions -> reached r = []).
  { intros k r Hin. destruct (Hparsed k r Hin) as (text & Ht).
    eapply from_expression_plain; eassumption. }
  split.
  - intros k r Hin. split; [eapply Hr; exact Hin|].
    destruct (replace_complement_outcome (table_of regions) r) as [Hok _].
    rewrite Hok; [f_equal; apply expand_plain; eapply Hr; exact Hin|].
    intros N HN. rewrite (Hr k r Hin) in HN. contradiction.
  - destruct (final_pass_outcome (map fst regions) regions [] Hnd eq_refl) as [Hok _].
    unfold expand_shorthand. simpl in Hok. rewrite Hok.
    + f_equal. apply expanded_table_plain. exact Hr.
    + intros k r N Hin HN. rewrite (Hr k r Hin) in HN. contradiction.
Qed.

Lemma parsed_regions_need_no_expansion_witness :
  expand_shorthand
    (table_of [(1, Halfspace 5 false); (2, Intersection [Halfspace 6 true; Halfspace 5 true])])
  = Ok (table_of [(1, Halfspace 5 false);
                  (2, Intersection [Halfspace 6 true; Halfspace 5 true])]).
Proof.
  apply (parsed_regions_need_no_expansion Universes.two_surfaces_state.(Universes.cs_surfaces)).
  - intros k n p Hk. exfalso.
    destruct (decide (k = 5)) as [->|N5]; [vm_compute in Hk; discriminate Hk|].
    destruct (decide (k = 6)) as [->|N6]; [vm_compute in Hk; discriminate Hk|].
    cbn [Universes.two_surfaces_state Universes.cs_surfaces] in Hk.
    rewrite lookup_insert_ne in Hk by congruence.
    rewrite lookup_singleton_ne in Hk by congruence. discriminate Hk.
  - repeat (apply List.NoDup_cons; [simpl; intuition discriminate|]). apply List.NoDup_nil.
  - intros k r [H|[H|[]]]; inversion H; subst.
    + exists "-5". vm_compute. reflexivity.
    + exists "6 ~-5". vm_compute. reflexivity.
Defined.

End ParsedProperties.

Section MaterialsProperties.
Import Resolver Universes Materials.

Lemma qsum_app (l1 l2 : list Q) : (qsum (l1 ++ l2) == qsum l1 + qsum l2)%Q.
Proof. induction l1 as [|x l1 IH]; simpl; [ring | rewrite IH; ring]. Qed.

Lemma sum_abs_fold (nuclides : list (string * Q)) (acc : Q) :
  (fold_left (fun acc p => acc + Qabs (snd p)) nuclides acc
   == acc + qsum (map (fun p => Qabs (snd p)) nuclides))%Q.
Proof.
  revert acc. induction nuclides as [|p l IH]; simpl; intros acc; [ring|].
  rewrite IH. ring.
Qed.

Lemma sum_abs_qsum (nuclides : list (string * Q)) :
  (sum_abs nuclides == qsum (map (fun p => Qabs (snd p)) nuclides))%Q.
Proof. unfold sum_abs. rewrite sum_abs_fold. ring. Qed.

Lemma percent_set_new (d : list (string * Q)) (k : string) (v : Q) :
  percent_get d k = None -> percent_set d k v = d ++ [(k, v)].
Proof.
  induction d as [|[k' v'] d IH]; simpl; intros H; [reflexivity|].
  destruct (String.eqb k' k); [discriminate|]. rewrite IH by exact H. reflexivity.
Qed.

Lemma percent_get_none (d : list (string * Q)) (k : string) :
  percent_get d k = None <-> ~ In k (map fst d).
Proof.
  induction d as [|[k' v'] d IH]; simpl; [tauto|].
  destruct (String.eqb_spec k' k) as [->|N].
  - split; [discriminate | intros H; exfalso; apply H; auto].
  - rewrite IH. intuition congruence.
Qed.

Lemma percent_set_old (d : list (string * Q)) (k : string) (old v : Q) :
  percent_get d k = Some old ->
  map fst (percent_set d k v) = map fst d /\
  (qsum (map snd (percent_set d k v)) == qsum (map snd d) - old + v)%Q /\
  (forall P : Q -> Prop, P v -> Forall (fun p => P (snd p)) d ->
     Forall (fun p => P (snd p)) (percent_set d k v)) /\
  forall P : Q -> Prop, Forall (fun p => P (snd p)) d -> P old.
Proof.
  induction d as [|[k' v'] d IH]; simpl; intros H; [discriminate|].
  destruct (String.eqb_spec k' k) as [->|N].
  - inversion H; subst. simpl. split; [reflexivity|]. split; [ring|]. split.
    + intros P Hv Hd. inversion Hd; subst. constructor; assumption.
    + intros P Hd. inversion Hd; subst. assumption.
  - destruct (IH H) as (Hk & Hs & Hp & Ho). simpl. split; [congruence|].
    split; [rewrite Hs; ring|]. split.
    + intros P Hv Hd. inversion Hd; subst. constructor; [assumption | apply Hp; assumption].
    + intros P Hd. inversion Hd; subst. apply Ho. assumption.
Qed.

Lemma accumulate_spec (nf : Q) (nuclides : list (string * Q)) :
  Qeq_bool nf 0 = false ->
  forall d d',
    List.NoDup (map fst d) ->
    accumulate nf nuclides d = Ok d' ->
    List.NoDup (map fst d') /\
    (forall n, In n (map fst d') <-> In n (map fst d) \/ In n (map fst nuclides)) /\
    (qsum (map snd d') == qsum (map snd d) + qsum (map snd nuclides) / nf)%Q /\
    (Forall (fun p => 0 <= snd p)%Q nuclides -> (0 < nf)%Q ->
     Forall (fun p => 0 <= snd p)%Q d -> Forall (fun p => 0 <= snd p)%Q d') /\
    (Forall (fun p => snd p <= 0)%Q nuclides -> (0 < nf)%Q ->
     Forall (fun p => snd p <= 0)%Q d -> Forall (fun p => snd p <= 0)%Q d').
Proof.
  intros Hnf.
  assert (Hnz : ~ (nf == 0)%Q).
  { intros E. apply Qeq_bool_iff in E. congruence. }
  induction nuclides as [|[n p] rest IH]; simpl; intros d d' Hnd H.
  - inversion H; subst. split; [exact Hnd|]. split; [intros; tauto|].
    split; [unfold Qdiv; ring|]. auto.
  - rewrite Hnf in H.
    destruct (percent_get d n) as [old|] eqn:Eg.
    + destruct (percent_set_old d n old (old + p / nf) Eg) as (Hk & Hs & Hp & Ho).
      assert (Hnd1 : List.NoDup (map fst (percent_set d n (old + p / nf)%Q)))
        by (rewrite Hk; exact Hnd).
      destruct (IH _ _ Hnd1 H) as (H1 & H2 & H3 & H4 & H5).
      split; [exact H1|]. split; [|split; [|split]].
      * intros x. rewrite H2, Hk. split; [tauto|].
        intros [Hx|[<-|Hx]]; auto. left.
        destruct (percent_get_none d n) as [_ Hn].
        destruct (in_dec string_dec n (map fst d)) as [Hin|Hin]; [exact Hin|].
        rewrite (Hn Hin) in Eg. discriminate.
      * rewrite H3, Hs. field. exact Hnz.
      * intros Hr Hpos Hd. inversion Hr as [|? ? Hp0 Hr']; subst. simpl in Hp0.
        apply H4; [exact Hr' | exact Hpos|].
        apply (Hp (fun q => 0 <= q)%Q); [|exact Hd].
        pose proof (Ho (fun q => 0 <= q)%Q Hd) as Hold. simpl in Hold.
        assert (0 <= p / nf)%Q.
        { unfold Qdiv. apply Qmult_le_0_compat; [exact Hp0|].
          apply Qinv_le_0_compat. apply Qlt_le_weak. exact Hpos. }
        lra.
      * intros Hr Hpos Hd. inversion Hr as [|? ? Hp0 Hr']; subst. simpl in Hp0.
        apply H5; [exact Hr' | exact Hpos|].
        apply (Hp (fun q => q <= 0)%Q); [|exact Hd].
        pose proof (Ho (fun q => q <= 0)%Q Hd) as Hold. simpl in Hold.
        assert (0 <= (- p) / nf)%Q.
        { unfold Qdiv. apply Qmult_le_0_compat; [lra|].
          apply Qinv_le_0_compat. apply Qlt_le_weak. exact Hpos. }
        assert ((- p) / nf == - (p / nf))%Q by (field; exact Hnz).
        lra.
    + rewrite (percent_set_new d n _ Eg) in H.
      assert (Hfresh : ~ In n (map fst d)) by (apply percent_get_none; exact Eg).
      assert (Hnd1 : List.NoDup (map fst (d ++ [(n, (p / nf)%Q)]))).
      { rewrite map_app. simpl. apply NoDup_ListNoDup. apply NoDup_app.
        split; [apply NoDup_ListNoDup; exact Hnd|]. split; [|apply NoDup_singleton].
        intros x Hx Hx'. apply list_elem_of_In in Hx.
        apply list_elem_of_singleton in Hx'. subst. contradiction. }
      destruct (IH _ _ Hnd1 H)
        as (H1 & H2 & H3 & H4 & H5).
      split; [exact H1|]. split; [|split; [|split]].
      * intros x. rewrite H2, map_app, in_app_iff. simpl. tauto.
      * rewrite H3, map_app, qsum_app. simpl. field. exact Hnz.
      * intros Hr Hpos Hd. inversion Hr as [|? ? Hp0 Hr']; subst. simpl in Hp0.
        apply H4; [exact Hr' | exact Hpos|].
        apply Forall_app. split; [exact Hd|]. constructor; [|constructor]. simpl.
        unfold Qdiv. apply Qmult_le_0_compat; [exact Hp0|].
        apply Qinv_le_0_compat. apply Qlt_le_weak. exact Hpos.
      * intros Hr Hpos Hd. inversion Hr as [|? ? Hp0 Hr']; subst. simpl in Hp0.
        apply H5; [exact Hr' | exact Hpos|].
        apply Forall_app. split; [exact Hd|]. constructor; [|constructor]. simpl.
        assert (0 <= (- p) / nf)%Q.
        { unfold Qdiv. apply Qmult_le_0_compat; [lra|].
          apply Qinv_le_0_compat. apply Qlt_le_weak. exact Hpos. }
        assert ((- p) / nf == - (p / nf))%Q by (field; exact Hnz).
        lra.
Qed.

Lemma qsum_abs_nonneg (l : list (string * Q)) :
  Forall (fun p => 0 <= snd p)%Q l ->
  (qsum (map (fun p => Qabs (snd p)) l) == qsum (map snd l))%Q.
Proof.
  induction l as [|[n p] l IH]; simpl; intros H; [reflexivity|].
  inversion H; subst. simpl in *. rewrite IH by assumption.
  rewrite Qabs_pos by assumption. reflexivity.
Qed.

Lemma qsum_abs_nonpos (l : list (string * Q)) :
  Forall (fun p => snd p <= 0)%Q l ->
  (qsum (map (fun p => Qabs (snd p)) l) == - qsum (map snd l))%Q.
Proof.
  induction l as [|[n p] l IH]; simpl; intros H; [ring|].
  inversion H; subst. simpl in *. rewrite IH by assumption.
  rewrite Qabs_neg by assumption. ring.
Qed.

Lemma qsum_abs_ge0 (l : list (string * Q)) :
  (0 <= qsum (map (fun p => Qabs (snd p)) l))%Q.
Proof.
  induction l as [|[n p] l IH]; simpl; [lra|].
  pose proof (Qabs_nonneg p). lra.
Qed.

(** X19. The shares of the nuclides of a new material: when the absolute
    percentages add up to zero the division raises
    [ZeroDivisionError]; otherwise every nuclide of the material is
    listed once, the shares add up to the sum of the percentages divided
    by the sum of their absolute values, and when the percentages all
    have the same sign the absolute shares add up to 1. *)
Theorem shares_normalised (nuclides : list (string * Q)) :
  nuclides <> [] ->
  ((sum_abs nuclides == 0)%Q -> nuclide_percent nuclides = Raise ZeroDivisionError) /\
  (forall d, nuclide_percent nuclides = Ok d ->
     List.NoDup (map fst d) /\
     (forall n, In n (map fst d) <-> In n (map fst nuclides)) /\
     (qsum (map snd d) == qsum (map snd nuclides) / sum_abs nuclides)%Q /\
     (Forall (fun p => 0 <= snd p)%Q nuclides \/ Forall (fun p => snd p <= 0)%Q nuclides ->
      (qsum (map (fun p => Qabs (snd p)) d) == 1)%Q)).
Proof.
  intros Hne. unfold nuclide_percent. split.
  - intros Hz. destruct nuclides as [|[n p] rest]; [contradiction|]. simpl.
    apply Qeq_bool_iff in Hz. rewrite Hz. reflexivity.
  - intros d H.
    destruct (Qeq_bool (sum_abs nuclides) 0) eqn:Enf.
    { destruct nuclides as [|[n p] rest]; [contradiction|]. simpl in H.
      rewrite Enf in H. discriminate. }
    destruct (accumulate_spec _ nuclides Enf [] d (List.NoDup_nil _) H)
      as (H1 & H2 & H3 & H4 & H5).
    assert (Hnz : ~ (sum_abs nuclides == 0)%Q).
    { intros E. apply Qeq_bool_iff in E. congruence. }
    assert (Hpos : (0 < sum_abs nuclides)%Q).
    { pose proof (qsum_abs_ge0 nuclides) as Hge. rewrite <- sum_abs_qsum in Hge.
      destruct (Qlt_le_dec 0 (sum_abs nuclides)) as [?|Hle]; [assumption|].
      exfalso. apply Hnz. lra. }
    split; [exact H1|]. split; [intros n; rewrite H2; simpl; tauto|].
    split; [rewrite H3; simpl; field; exact Hnz|].
    intros [Hs|Hs].
    + rewrite (qsum_abs_nonneg d (H4 Hs Hpos (List.Forall_nil _))).
      rewrite H3. simpl. rewrite sum_abs_qsum, (qsum_abs_nonneg nuclides Hs).
      rewrite sum_abs_qsum, (qsum_abs_nonneg nuclides Hs) in Hnz. field. exact Hnz.
    + rewrite (qsum_abs_nonpos d (H5 Hs Hpos (List.Forall_nil _))).
      rewrite H3. simpl. rewrite sum_abs_qsum, (qsum_abs_nonpos nuclides Hs).
      rewrite sum_abs_qsum, (qsum_abs_nonpos nuclides Hs) in Hnz. field.
      intros E. apply Hnz. lra.
Qed.

Lemma shares_normalised_witness :
  nuclide_percent example_nuclides
  = Ok [("1001.80c", (2 / (0 + 2 + 1 + 1) + 1 / (0 + 2 + 1 + 1))%Q);
        ("8016.80c", (1 / (0 + 2 + 1 + 1))%Q)] /\
  forall d, nuclide_percent example_nuclides = Ok d ->
    (qsum (map (fun p => Qabs (snd p)) d) == 1)%Q.
Proof.
  split; [reflexivity|].
  intros d Hd.
  destruct (shares_normalised example_nuclides ltac:(discriminate)) as [_ H].
  destruct (H d Hd) as (_ & _ & _ & H4). apply H4. left.
  repeat constructor; simpl; unfold Qle; simpl; lia.
Defined.

Lemma same_density_refl (a : string) : same_density a a = true.
Proof. unfold same_density. rewrite String.eqb_refl. reflexivity. Qed.

Lemma same_key_refl (k : Z * string) : same_key k k = true.
Proof. unfold same_key. rewrite Z.eqb_refl, same_density_refl. reflexivity. Qed.

Lemma same_density_sym (a b : string) : same_density a b = same_density b a.
Proof.
  unfold same_density. rewrite (String.eqb_sym a b), (andb_comm (is_zero a)). reflexivity.
Qed.

Lemma same_key_sym (x y : Z * string) : same_key x y = same_key y x.
Proof. unfold same_key. rewrite (Z.eqb_sym (fst x)), same_density_sym. reflexivity. Qed.

Lemma same_density_trans (a b c : string) :
  same_density a b = true -> same_density b c = true -> same_density a c = true.
Proof.
  unfold same_density. intros H1 H2.
  destruct (String.eqb_spec a b) as [->|_]; [exact H2|].
  destruct (String.eqb_spec b c) as [<-|_].
  - simpl in H1. rewrite H1. apply orb_true_r.
  - simpl in H1, H2. apply andb_true_iff in H1, H2. destruct H1 as [-> _], H2 as [_ ->].
    apply orb_true_r.
Qed.

Lemma same_key_trans (x y z : Z * string) :
  same_key x y = true -> same_key y z = true -> same_key x z = true.
Proof.
  unfold same_key. intros H1 H2. apply andb_true_iff in H1, H2.
  destruct H1 as [E1 D1], H2 as [E2 D2]. apply andb_true_iff. split.
  - apply Z.eqb_eq in E1, E2. apply Z.eqb_eq. congruence.
  - eapply same_density_trans; eassumption.
Qed.

Lemma same_key_exact (x y : Z * string) :
  same_key x y = true -> is_zero (snd y) = false -> x = y.
Proof.
  unfold same_key, same_density. destruct x as [i a], y as [j b]. simpl. intros H Hz.
  apply andb_true_iff in H. destruct H as [E D]. apply Z.eqb_eq in E. subst j.
  rewrite Hz, andb_false_r, orb_false_r in D. apply String.eqb_eq in D. congruence.
Qed.

Lemma insert_by_perm {A : Type} (key : A -> Z) (x : A) (l : list A) :
  insert_by key x l ≡ₚ x :: l.
Proof.
  induction l as [|y l IH]; simpl; [reflexivity|].
  destruct (key x <=? key y); [reflexivity|]. rewrite IH. apply Permutation_swap.
Qed.

Lemma sort_by_perm {A : Type} (key : A -> Z) (l : list A) : sort_by key l ≡ₚ l.
Proof.
  induction l as [|x l IH]; simpl; [reflexivity|].
  rewrite insert_by_perm. rewrite IH. reflexivity.
Qed.

Lemma group_keys_repr (l : list (Z * string)) :
  forall current k, In k l ->
    (exists k', In k' (group_keys current l) /\ same_key k' k = true) \/
    (exists p, current = Some p /\ same_key p k = true).
Proof.
  induction l as [|k0 l IH]; simpl; intros current k Hk; [contradiction|].
  destruct Hk as [<-|Hk].
  - destruct current as [p|].
    + destruct (same_key p k0) eqn:E; [right; eauto|].
      left. exists k0. split; [left; reflexivity | apply same_key_refl].
    + left. exists k0. split; [left; reflexivity | apply same_key_refl].
  - destruct current as [p|].
    + destruct (same_key p k0) eqn:E.
      * apply IH. exact Hk.
      * destruct (IH (Some k0) k Hk) as [(k' & Hin & Hs)|(q & Eq & Hs)].
        -- left. exists k'. split; [right; exact Hin | exact Hs].
        -- inversion Eq; subst q. left. exists k0. split; [left; reflexivity | exact Hs].
    + destruct (IH (Some k0) k Hk) as [(k' & Hin & Hs)|(q & Eq & Hs)].
      * left. exists k'. split; [right; exact Hin | exact Hs].
      * inversion Eq; subst q. left. exists k0. split; [left; reflexivity | exact Hs].
Qed.

Lemma distinct_repr (l : list (Z * string)) :
  forall seen k, In k l ->
    (exists k', In k' (distinct seen l) /\ same_key k k' = true) \/
    (exists s, In s seen /\ same_key k s = true).
Proof.
  induction l as [|k0 l IH]; simpl; intros seen k Hk; [contradiction|].
  destruct (existsb (same_key k0) seen) eqn:Ex.
  - destruct Hk as [<-|Hk]; [|apply IH; exact Hk].
    right. apply existsb_exists in Ex. exact Ex.
  - destruct Hk as [<-|Hk].
    + left. exists k0. split; [left; reflexivity | apply same_key_refl].
    + destruct (IH (k0 :: seen) k Hk) as [(k' & Hin & Hs)|(s & [<-|Hin] & Hs)].
      * left. exists k'. split; [right; exact Hin | exact Hs].
      * left. exists k0. split; [left; reflexivity | exact Hs].
      * right. eauto.
Qed.

Lemma outer_get_set (D : material_dict) (id id' : Z) (d : by_density) :
  outer_get (outer_set D id d) id' = if id' =? id then Some d else outer_get D id'.
Proof.
  induction D as [|[i d0] D IH]; simpl.
  - rewrite (Z.eqb_sym id id'). reflexivity.
  - destruct (Z.eqb_spec i id) as [->|N]; simpl.
    + rewrite (Z.eqb_sym id id'). destruct (id' =? id); reflexivity.
    + rewrite IH. destruct (Z.eqb_spec i id') as [->|N'].
      * destruct (Z.eqb_spec id' id); [congruence | reflexivity].
      * reflexivity.
Qed.

Lemma inner_get_set (d : by_density) (t t' : string) (m : material) :
  inner_get (inner_set d t m) t' = if String.eqb t' t then Some m else inner_get d t'.
Proof.
  induction d as [|[t0 m0] d IH]; simpl.
  - rewrite (String.eqb_sym t t'). reflexivity.
  - destruct (String.eqb_spec t0 t) as [->|N]; simpl.
    + rewrite (String.eqb_sym t t'). destruct (String.eqb t' t); reflexivity.
    + rewrite IH. destruct (String.eqb_spec t0 t') as [->|N'].
      * destruct (String.eqb_spec t' t); [congruence | reflexivity].
      * reflexivity.
Qed.

Section WithData.
Variable get_metadata : Z -> result (string * string * Z).
Variable get_thermal_name : string -> result string.
Variable set_order : list (Z * string) -> list (Z * string).
Hypothesis set_order_perm : forall l, set_order l ≡ₚ l.
Variable materials : gmap Z mcnp_material.

Lemma material_step_spec (D D' : material_dict) (ids ids' : id_manager) (key : Z * string) :
  dict_ok D ->
  material_step get_metadata get_thermal_name materials (D, ids) key = Ok (D', ids') ->
  dict_ok D' /\
  (forall id text, is_Some (lookup_material D id text) ->
                   is_Some (lookup_material D' id text)) /\
  (fst key <> 0 ->
   exists m, materials !! fst key = Some m /\
     (is_Some (m_id m) -> is_Some (lookup_material D' (fst key) (snd key)))).
Proof.
  intros (Hname & Hshare & Hfirst) H. destruct key as [id text].
  unfold material_step in H. cbn [fst snd].
  destruct (Z.eqb_spec id 0) as [->|Hid].
  { inversion H; subst. split; [split; [|split]; assumption|]. split; [auto | congruence]. }
  destruct (materials !! id) as [m|] eqn:Em; [|discriminate].
  destruct (m_id m) as [own|] eqn:Eown.
  2:{ inversion H; subst. split; [split; [|split]; assumption|]. split; [auto|].
      intros _. exists m. split; [reflexivity|]. intros [x Hx]. congruence. }
  apply bind_ok in H. destruct H as ([mat ids1] & Hmade & H).
  apply bind_ok in H. destruct H as (dens & Hdens & H).
  inversion H; subst D' ids'; clear H.
  set (mat' := {| mat_id := mat_id mat; mat_name := mat_name mat;
                  mat_components := mat_components mat; mat_sab := mat_sab mat;
                  mat_density := Some dens |}) in *.
  assert (Hmn : mat_name mat = (id, text) /\
                forall t m0, lookup_material D id t = Some m0 ->
                  mat_components m0 = mat_components mat /\ mat_sab m0 = mat_sab mat).
  { destruct (outer_get D id) as [d|] eqn:Eo.
    - destruct d as [|[t0 first] d]; [discriminate|].
      destruct (auto_id ids) as [new_id ids2]. inversion Hmade; subst mat ids1. simpl.
      split; [reflexivity|]. intros t m0 Hl.
      specialize (Hfirst id _ Eo). simpl in Hfirst.
      apply (Hshare id t t0 m0 first Hl Hfirst).
    - apply bind_ok in Hmade. destruct Hmade as (shares & _ & Hmade).
      apply bind_ok in Hmade. destruct Hmade as (components & _ & Hmade).
      apply bind_ok in Hmade. destruct Hmade as (sab & _ & Hmade).
      inversion Hmade; subst mat ids1. simpl. split; [reflexivity|].
      intros t m0 Hl. unfold lookup_material in Hl. rewrite Eo in Hl. discriminate. }
  destruct Hmn as [Hmname Hmshare].
  set (D' := match outer_get D id with
             | Some d => outer_set D id (inner_set d text mat')
             | None => outer_set D id [(text, mat')]
             end).
  assert (Hlook : forall id' t',
            lookup_material D' id' t'
            = if (id' =? id) && String.eqb t' text then Some mat'
              else lookup_material D id' t').
  { intros id' t'. unfold lookup_material, D'.
    destruct (outer_get D id) as [d|] eqn:Eo; rewrite outer_get_set.
    - destruct (Z.eqb_spec id' id) as [->|N]; simpl; [|reflexivity].
      rewrite inner_get_set, Eo. reflexivity.
    - destruct (Z.eqb_spec id' id) as [->|N]; simpl; [|reflexivity].
      rewrite Eo. rewrite (String.eqb_sym text t'). destruct (String.eqb t' text); reflexivity. }
  split; [|split].
  - split; [|split].
    + intros id' t' m0 Hl. rewrite Hlook in Hl.
      destruct (Z.eqb_spec id' id) as [->|N]; simpl in Hl.
      * destruct (String.eqb_spec t' text) as [->|Nt].
        -- inversion Hl; subst m0. simpl. split; [exact Hmname|]. split; [eauto | exact Hid].
        -- apply Hname. exact Hl.
      * apply Hname. exact Hl.
    + intros id' t1 t2 m1 m2 H1 H2. rewrite Hlook in H1, H2.
      destruct (Z.eqb_spec id' id) as [->|N]; simpl in H1, H2.
      * destruct (String.eqb_spec t1 text) as [->|N1], (String.eqb_spec t2 text) as [->|N2].
        -- inversion H1; inversion H2; subst. auto.
        -- inversion H1; subst m1. simpl.
           destruct (Hmshare _ _ H2) as [E1 E2]. split; congruence.
        -- inversion H2; subst m2. simpl. apply (Hmshare _ _ H1).
        -- apply (Hshare id t1 t2); assumption.
      * apply (Hshare id' t1 t2); assumption.
    + intros id' d Hd. unfold D' in Hd.
      assert (Hcase : (id' = id /\ d = match outer_get D id with
                                       | Some d0 => inner_set d0 text mat'
                                       | None => [(text, mat')]
                                       end) \/ (id' <> id /\ outer_get D id' = Some d)).
      { destruct (outer_get D id) as [d0|] eqn:Eo; rewrite outer_get_set in Hd;
          (destruct (Z.eqb_spec id' id) as [->|N];
           [left; split; [reflexivity | congruence] | right; split; assumption]). }
      destruct Hcase as [[-> ->]|[N Hd']].
      * destruct (outer_get D id) as [d0|] eqn:Eo.
        -- destruct d0 as [|[t0 first] d0]; simpl.
           ++ rewrite Hlook, Z.eqb_refl, String.eqb_refl. reflexivity.
           ++ destruct (String.eqb_spec t0 text) as [->|Nt].
              ** rewrite Hlook, Z.eqb_refl, String.eqb_refl. reflexivity.
              ** rewrite Hlook, Z.eqb_refl. simpl.
                 destruct (String.eqb_spec t0 text) as [?|_]; [contradiction|].
                 apply (Hfirst id _ Eo).
        -- simpl. rewrite Hlook, Z.eqb_refl, String.eqb_refl. reflexivity.
      * specialize (Hfirst id' d Hd'). destruct d as [|[t0 first] d]; [exact I|].
        rewrite Hlook. destruct (Z.eqb_spec id' id) as [?|_]; [contradiction|]. exact Hfirst.
  - intros id' t' [m0 Hm0]. rewrite Hlook.
    destruct ((id' =? id) && String.eqb t' text); [eauto | rewrite Hm0; eauto].
  - intros _. exists m. split; [reflexivity|]. intros _.
    rewrite Hlook, Z.eqb_refl, String.eqb_refl. simpl. eauto.
Qed.

Lemma material_loop_spec (keys : list (Z * string)) :
  forall D D' ids ids',
    dict_ok D ->
    material_loop get_metadata get_thermal_name materials keys (D, ids) = Ok (D', ids') ->
    dict_ok D' /\
    (forall id text, is_Some (lookup_material D id text) ->
                     is_Some (lookup_material D' id text)) /\
    (forall key, In key keys -> fst key <> 0 ->
       exists m, materials !! fst key = Some m /\
         (is_Some (m_id m) -> is_Some (lookup_material D' (fst key) (snd key)))).
Proof.
  induction keys as [|k keys IH]; intros D D' ids ids' Hok H; cbn [material_loop] in H.
  - inversion H; subst. split; [exact Hok|]. split; [auto | intros key []].
  - apply bind_ok in H. destruct H as ([D1 ids1] & Hstep & H).
    destruct (material_step_spec _ _ _ _ _ Hok Hstep) as (Hok1 & Hmono1 & Hk).
    destruct (IH _ _ _ _ Hok1 H) as (Hok' & Hmono' & Hkeys).
    split; [exact Hok'|]. split; [auto|].
    intros key [<-|Hin] Hne; [|auto].
    destruct (Hk Hne) as (m & Em & Hm). exists m. split; [exact Em|]. auto.
Qed.

Lemma cell_key_listed (cells : list cell) (c : cell) :
  In c cells -> is_zero (c_density c) = false ->
  In (c_material c, c_density c) (materials_densities set_order cells).
Proof.
  intros Hc Hz. unfold materials_densities.
  apply list_elem_of_In. rewrite sort_by_perm, set_order_perm. apply list_elem_of_In.
  assert (Hk : In (c_material c, c_density c)
                 (map (fun c => (c_material c, c_density c)) (sort_by c_material cells))).
  { apply in_map_iff. exists c. split; [reflexivity|].
    apply list_elem_of_In. rewrite sort_by_perm. apply list_elem_of_In. exact Hc. }
  destruct (group_keys_repr _ None _ Hk) as [(k1 & Hin1 & Hs1)|(p & Ep & _)];
    [|discriminate].
  destruct (distinct_repr _ [] _ Hin1) as [(k2 & Hin2 & Hs2)|(s & [] & _)].
  assert (Hs : same_key k2 (c_material c, c_density c) = true).
  { eapply same_key_trans; [|exact Hs1]. rewrite same_key_sym. exact Hs2. }
  rewrite <- (same_key_exact _ _ Hs Hz). exact Hin2.
Qed.

Lemma dict_ok_empty : dict_ok [].
Proof.
  split; [|split].
  - intros id text mat H. discriminate.
  - intros id t1 t2 m1 m2 H. discriminate.
  - intros id d H. discriminate.
Qed.

(** X20. When [get_openmc_materials] returns, every cell with a material
    and a non-zero density has its material in the data block, and, if
    that material has an id, finds a material under its own material
    number and density text, named after the two, with the density
    given in atom/b-cm when it is positive and in g/cm3 with the
    absolute value otherwise.  All materials under one material number
    have the same composition and thermal data, and no material is
    stored under number 0. *)
Theorem materials_cover_cells (cells : list cell) (used : gset Z)
    (D : material_dict) (ids : id_manager) :
  get_openmc_materials get_metadata get_thermal_name set_order materials cells used
    = Ok (D, ids) ->
  (forall c, In c cells -> c_material c <> 0 -> is_zero (c_density c) = false ->
     exists m, materials !! c_material c = Some m /\
       (is_Some (m_id m) ->
        exists mat dens,
          lookup_material D (c_material c) (c_density c) = Some mat /\
          mat_name mat = (c_material c, c_density c) /\
          density_of (c_density c) = Ok dens /\ mat_density mat = Some dens)) /\
  (forall id t1 t2 m1 m2,
     lookup_material D id t1 = Some m1 -> lookup_material D id t2 = Some m2 ->
     mat_components m1 = mat_components m2 /\ mat_sab m1 = mat_sab m2) /\
  (forall text, lookup_material D 0 text = None).
Proof.
  unfold get_openmc_materials. intros H.
  destruct (max_list _) as [mx|]; [|discriminate].
  destruct (material_loop_spec _ _ _ _ _ dict_ok_empty H) as ((Hname & Hshare & _) & _ & Hkeys).
  split; [|split].
  - intros c Hc Hm Hz.
    destruct (Hkeys _ (cell_key_listed cells c Hc Hz) Hm) as (m & Em & Hsome).
    exists m. split; [exact Em|]. intros Hid.
    destruct (Hsome Hid) as [mat Hmat]. simpl in Hmat.
    destruct (Hname _ _ _ Hmat) as (Hn & (dens & Hd & Hmd) & _).
    exists mat, dens. auto.
  - exact Hshare.
  - intros text. destruct (lookup_material D 0 text) as [mat|] eqn:E; [|reflexivity].
    destruct (Hname _ _ _ E) as (_ & _ & Hne). contradiction.
Qed.

End WithData.

Lemma materials_cover_cells_witness :
  exists D ids mat,
    get_openmc_materials example_metadata example_thermal (fun l => l)
      example_materials example_cells ∅ = Ok (D, ids) /\
    lookup_material D 1 "0.07" = Some mat /\
    mat_density mat = Some (atom_b_cm, (7 # 100)%Q).
Proof.
  destruct (get_openmc_materials example_metadata example_thermal (fun l => l)
              example_materials example_cells ∅) as [[D ids]|e] eqn:E;
    [|vm_compute in E; discriminate E].
  destruct (materials_cover_cells example_metadata example_thermal (fun l => l)
              (fun l => reflexivity l) example_materials example_cells ∅ D ids E)
    as (Hc & _ & _).
  destruct (Hc (fuel_cell 3 "0.07")) as (m & Em & Hm);
    [simpl; auto | discriminate | reflexivity |].
  assert (Eid : is_Some (m_id m)).
  { vm_compute in Em. inversion Em; subst m. simpl. eauto. }
  destruct (Hm Eid) as (mat & dens & H1 & _ & H3 & H4).
  exists D, ids, mat. split; [reflexivity|]. split; [exact H1|].
  rewrite H4. f_equal. vm_compute in H3. inversion H3. reflexivity.
Defined.

End MaterialsProperties.

Section RotationProperties.
Import Reals RNsatz Lra Rotation.
Local Open Scope R_scope.

Lemma unit_after_scaling (v : vec) :
  norm v <> 0 -> dot (vscale (/ norm v) v) (vscale (/ norm v) v) = 1.
Proof.
  destruct v as [[x y] z]. unfold norm, vscale, dot. intros Hn.
  set (s := x * x + y * y + z * z) in *.
  assert (Hs : 0 <= s) by (unfold s; nra).
  assert (Hsq : sqrt s * sqrt s = s) by (apply sqrt_sqrt; exact Hs).
  replace (x * / sqrt s * (x * / sqrt s) + y * / sqrt s * (y * / sqrt s)
           + z * / sqrt s * (z * / sqrt s))
    with (s * (/ sqrt s * / sqrt s)) by (unfold s; ring).
  rewrite <- Hsq at 1. field. exact Hn.
Qed.

Lemma rodrigues_aligns (u w : vec) :
  dot u u = 1 -> dot w w = 1 -> 1 + dot u w <> 0 ->
  mvmul (madd (madd identity (msub (outer w u) (outer u w)))
              (mscale (/ (1 + dot u w))
                 (mmul (msub (outer w u) (outer u w)) (msub (outer w u) (outer u w)))))
        u = w.
Proof.
  destruct u as [[a b] c], w as [[p q] r].
  unfold dot, mvmul, madd, msub, mscale, mmul, outer, identity, column, vadd, vsub, vscale, dot.
  intros Hu Hw Hd.
  assert (Hinv : (1 + (a * p + b * q + c * r)) * / (1 + (a * p + b * q + c * r)) = 1)
    by (apply Rinv_r; exact Hd).
  set (i := / (1 + (a * p + b * q + c * r))) in *.
  f_equal; [f_equal|]; nsatz.
Qed.

(** X21. [rotate_vector] for two non-zero vectors: when the directions
    are neither within 1e-10 of equal nor of opposite, the matrix given
    by Rodrigues' formula takes the direction of the first vector
    exactly onto the direction of the second; otherwise the result is
    the identity or its negative; in every case the image of the first
    direction is within a squared distance of 2e-10 of the second. *)
Theorem rotate_vector_aligns (v1 v2 : vec) :
  norm v1 <> 0 -> norm v2 <> 0 ->
  let u := vscale (/ norm v1) v1 in
  let w := vscale (/ norm v2) v2 in
  (eps <= Rabs (dot u w - 1) -> eps <= Rabs (dot u w + 1) ->
   mvmul (rotate_vector v1 v2) u = w) /\
  (Rabs (dot u w - 1) < eps -> rotate_vector v1 v2 = identity) /\
  (eps <= Rabs (dot u w - 1) -> Rabs (dot u w + 1) < eps ->
   rotate_vector v1 v2 = mopp identity) /\
  dist2 (mvmul (rotate_vector v1 v2) u) w < 2 * eps.
Proof.
  intros H1 H2 u w.
  pose proof (unit_after_scaling v1 H1) as Hu. fold u in Hu.
  pose proof (unit_after_scaling v2 H2) as Hw. fold w in Hw.
  assert (Heps : 0 < eps) by (unfold eps; lra).
  assert (Hgen : eps <= Rabs (dot u w - 1) -> eps <= Rabs (dot u w + 1) ->
                 mvmul (rotate_vector v1 v2) u = w).
  { intros Ha Hb. unfold rotate_vector. fold u w.
    destruct (Rlt_dec (Rabs (dot u w - 1)) eps) as [?|_]; [lra|].
    destruct (Rlt_dec (Rabs (dot u w + 1)) eps) as [?|_]; [lra|].
    apply rodrigues_aligns; [exact Hu | exact Hw |].
    intros E. rewrite Rplus_comm in E. rewrite E, Rabs_R0 in Hb. lra. }
  assert (Hid : Rabs (dot u w - 1) < eps -> rotate_vector v1 v2 = identity).
  { intros Ha. unfold rotate_vector. fold u w.
    destruct (Rlt_dec (Rabs (dot u w - 1)) eps) as [_|?]; [reflexivity | contradiction]. }
  assert (Hop : eps <= Rabs (dot u w - 1) -> Rabs (dot u w + 1) < eps ->
                rotate_vector v1 v2 = mopp identity).
  { intros Ha Hb. unfold rotate_vector. fold u w.
    destruct (Rlt_dec (Rabs (dot u w - 1)) eps) as [?|_]; [lra|].
    destruct (Rlt_dec (Rabs (dot u w + 1)) eps) as [_|?]; [reflexivity | contradiction]. }
  split; [exact Hgen|]. split; [exact Hid|]. split; [exact Hop|].
  destruct (Rlt_dec (Rabs (dot u w - 1)) eps) as [Ha|Ha].
  - rewrite (Hid Ha).
    assert (E : dist2 (mvmul identity u) w = 2 - 2 * dot u w).
    { clearbody u w. destruct u as [[a b] c], w as [[p q] r].
      unfold dist2, mvmul, identity, dot, vsub in *. nsatz. }
    rewrite E. apply Rabs_def2 in Ha. lra.
  - apply Rnot_lt_le in Ha.
    destruct (Rlt_dec (Rabs (dot u w + 1)) eps) as [Hb|Hb].
    + rewrite (Hop Ha Hb).
      assert (E : dist2 (mvmul (mopp identity) u) w = 2 + 2 * dot u w).
      { clearbody u w. destruct u as [[a b] c], w as [[p q] r].
        unfold dist2, mvmul, mopp, mscale, vscale, identity, dot, vsub in *. nsatz. }
      rewrite E. apply Rabs_def2 in Hb. lra.
    + apply Rnot_lt_le in Hb. rewrite (Hgen Ha Hb).
      assert (E : dist2 w w = 0).
      { clearbody w. destruct w as [[p q] r]. unfold dist2, dot, vsub. ring. }
      rewrite E. lra.
Qed.

Lemma rotate_vector_aligns_witness :
  dist2 (mvmul (rotate_vector (0, 0, 1) (3, 0, 4)) (vscale (/ norm (0, 0, 1)) (0, 0, 1)))
        (vscale (/ norm (3, 0, 4)) (3, 0, 4)) < 2 * eps.
Proof.
  apply (rotate_vector_aligns (0, 0, 1) (3, 0, 4)).
  - unfold norm. replace (0 * 0 + 0 * 0 + 1 * 1) with 1 by ring. rewrite sqrt_1. lra.
  - unfold norm. replace (3 * 3 + 0 * 0 + 4 * 4) with (5 * 5) by ring.
    rewrite sqrt_square by lra. lra.
Defined.

End RotationProperties.

Section RefusalProperties.
Import Regions Resolver Universes Lattice LatticeShape Refusals.

(** X22. What the lattice constructor refuses, in the order the code
    tests it: a cell with [lat = 2] raises NotImplementedError
    (hexagonal) before anything else is looked at; otherwise a region
    that is a single half-space or a complement raises TypeError (it
    has no length), a region of fewer than four nodes raises
    NotImplementedError (one-dimensional), and a region without
    x-planes or without y-planes among its surfaces raises
    NotImplementedError (basis other than x-y); and a fill whose list
    of universes does not have as many entries as the index window has
    elements raises ValueError (the reshape). *)
Theorem lattice_refusals (c : cell) (r : region) (st : conv_state) :
  (forall l, c_parameters c !! "lat" = Some l -> Py.int l = Ok 2 ->
     build_lattice c r st = Raise (NotImplementedError "Hexagonal lattices not supported")) /\
  (forall l lat uid nodes,
     c_parameters c !! "lat" = Some l -> Py.int l = Ok lat -> lat <> 2 ->
     universe_tag c = Some (Ok uid) ->
     (region_nodes r = Raise TypeError -> build_lattice c r st = Raise TypeError) /\
     (region_nodes r = Ok nodes -> (length nodes < 4)%nat ->
      build_lattice c r st
      = Raise (NotImplementedError "One-dimensional lattices not supported")) /\
     (forall s, region_nodes r = Ok nodes -> (4 <= length nodes)%nat ->
        collect_sides (cs_surfaces st) nodes {| side_x := []; side_y := []; side_z := [] |}
          = Ok s ->
        side_x s = [] \/ side_y s = [] ->
        build_lattice c r st
        = Raise (NotImplementedError "2D lattice with basis other than x-y not supported"))) /\
  (forall s fill_text w flat v1 v0,
     bounding_vectors s = Ok (v1, v0) ->
     fill_window fill_text = Ok w -> ints (w_ids w) = Ok flat ->
     Z.of_nat (length flat)
       <> product (zip_with (fun hi lo => hi - lo + 1)
                     (let '(x, y, z) := w_max w in
                      if (length v1 =? 3)%nat then [x; y; z] else [x; y])
                     (let '(x, y, z) := w_min w in
                      if (length v1 =? 3)%nat then [x; y; z] else [x; y])) ->
     lattice_geometry s fill_text = Raise (ValueError "cannot reshape array")).
Proof.
  split; [|split].
  - intros l Hl Hi. unfold build_lattice. rewrite Hl, Hi. reflexivity.
  - intros l lat uid nodes Hl Hi Hne Hu. unfold build_lattice. rewrite Hl, Hi. cbn [bind].
    destruct (Z.eqb_spec lat 2) as [?|_]; [contradiction|].
    rewrite Hu. cbn [bind]. split; [|split].
    + intros Hr. rewrite Hr. reflexivity.
    + intros Hr Hlen. rewrite Hr. cbn [bind].
      destruct (Nat.ltb_spec (length nodes) 4) as [_|?]; [reflexivity | lia].
    + intros s Hr Hlen Hs Hempty. rewrite Hr. cbn [bind].
      destruct (Nat.ltb_spec (length nodes) 4) as [?|_]; [lia|].
      rewrite Hs. cbn [bind].
      destruct Hempty as [E|E]; rewrite E; simpl; [reflexivity|].
      rewrite orb_true_r. reflexivity.
  - intros s fill_text w flat v1 v0 Hv Hw Hf Hlen.
    unfold lattice_geometry. rewrite Hv. cbn [bind]. rewrite Hw. cbn [bind].
    assert (Hl : length (map Qabs (Lattice.vsub v1 v0)) = length v1).
    { unfold bounding_vectors in Hv.
      apply bind_ok in Hv. destruct Hv as (x & _ & Hv).
      apply bind_ok in Hv. destruct Hv as (y & _ & Hv).
      destruct (side_z s).
      - inversion Hv; subst. reflexivity.
      - apply bind_ok in Hv. destruct Hv as (z & _ & Hv). inversion Hv; subst. reflexivity. }
    rewrite Hl.
    destruct (w_min w) as [[xmin ymin] zmin], (w_max w) as [[xmax ymax] zmax].
    rewrite Hf. cbn [bind].
    unfold reshape. destruct (length v1 =? 3)%nat; cbn [zip_with] in *; unfold product in Hlen;
      cbn [fold_right] in Hlen.
    + destruct (Z.eqb_spec (Z.of_nat (length flat))
                  ((xmax - xmin + 1) * (ymax - ymin + 1) * (zmax - zmin + 1))) as [E|_];
        [exfalso; apply Hlen; rewrite E; ring | reflexivity].
    + destruct (Z.eqb_spec (Z.of_nat (length flat))
                  ((xmax - xmin + 1) * (ymax - ymin + 1))) as [E|_];
        [exfalso; apply Hlen; rewrite E; ring | reflexivity].
Qed.

Lemma translate_frame (shift : list Q) :
  forall (uids : list Z) (a a' : ndarray) (st st' : conv_state),
    ids_consistent st ->
    translate_universes shift uids a st = (a', st') ->
    ids_consistent st' /\ extends st st'.
Proof.
  induction uids as [|uid uids IH]; intros a a' st st' Hc H; cbn [translate_universes] in H.
  - inversion H; subst. split; [exact Hc | apply extends_refl].
  - destruct (get_universe_spec uid st Hc) as (Hc1 & He1 & _ & _).
    destruct (wrap_in_universe (FillUniverse uid) (Some shift) (get_universe uid st))
      as [u st2] eqn:Ew.
    destruct (wrap_in_universe_spec _ _ _ _ _ Hc1 Ew) as (cid & _ & _ & _ & _ & _ & _ & Hc2 & He2).
    destruct (IH _ _ _ _ Hc2 H) as (Hc' & He').
    split; [exact Hc'|]. eapply extends_trans; [exact He1|].
    eapply extends_trans; eassumption.
Qed.

Example hexagonal_lattice_refused :
  build_lattice (lattice_of "2" "7") self_fill_region self_fill_state
  = Raise (NotImplementedError "Hexagonal lattices not supported").
Proof. reflexivity. Qed.

Example two_sided_lattice_refused :
  build_lattice (lattice_of "1" "7") (Intersection [Halfspace 1 true; Halfspace 2 false])
    self_fill_state
  = Raise (NotImplementedError "One-dimensional lattices not supported").
Proof. vm_compute. reflexivity. Qed.

Example short_fill_list_refused :
  build_lattice (lattice_of "1" "0:2 0:0 0:0 7 8") self_fill_region self_fill_state
  = Raise (ValueError "cannot reshape array").
Proof. vm_compute. reflexivity. Qed.

Lemma build_lattice_tag (c : cell) (r : region) (st st' : conv_state) (b : bool) :
  build_lattice c r st = Ok (st', b) -> exists uid, universe_tag c = Some (Ok uid).
Proof.
  unfold build_lattice. intros H.
  apply bind_ok in H. destruct H as (lat & _ & H).
  destruct (lat =? 2); [discriminate|].
  apply bind_ok in H. destruct H as (uid & Huid & _).
  destruct (universe_tag c) as [rt|]; [|discriminate]. subst rt. eauto.
Qed.

(** What building a lattice changes: the universe of the cell gets its
    lattice data (and is made, as an empty lattice, when it was not
    there); everything else that existed is kept. *)
Lemma build_lattice_frame (c : cell) (r : region) (st st' : conv_state) (b : bool)
    (uid : Z) :
  ids_consistent st ->
  universe_tag c = Some (Ok uid) ->
  build_lattice c r st = Ok (st', b) ->
  ids_consistent st' /\
  (forall k u, k <> uid -> cs_universes st !! k = Some u ->
     cs_universes st' !! k = Some u) /\
  (exists d, cs_universes st' !! uid
     = Some (match cs_universes st !! uid with
             | Some u => {| u_is_lattice := u_is_lattice u; u_cells := u_cells u;
                            u_lattice := Some d |}
             | None => {| u_is_lattice := true; u_cells := ∅; u_lattice := Some d |}
             end)) /\
  (forall k x, cs_cells st !! k = Some x -> cs_cells st' !! k = Some x) /\
  cs_surfaces st' = cs_surfaces st /\ cs_mat st' = cs_mat st.
Proof.
  unfold build_lattice. intros Hc Et H.
  apply bind_ok in H. destruct H as (lat & _ & H).
  destruct (lat =? 2); [discriminate|].
  rewrite Et in H. cbn [bind] in H.
  apply bind_ok in H. destruct H as (nodes & _ & H).
  destruct (length nodes <? 4)%nat; [discriminate|].
  apply bind_ok in H. destruct H as (s & _ & H).
  destruct (bool_decide (side_x s = []) || bool_decide (side_y s = [])); [discriminate|].
  apply bind_ok in H. destruct H as (vs & _ & H).
  apply bind_ok in H. destruct H as (fill_text & _ & H).
  apply bind_ok in H. destruct H as (g & _ & H).
  apply bind_ok in H. destruct H as ([a1 st1] & Hself & H).
  set (st0 := match cs_universes st !! uid with
              | Some _ => st
              | None => create_universe uid new_lattice st
              end) in *.
  assert (Hst0 : ids_consistent st0 /\ extends st st0 /\
                 cs_universes st0 !! uid
                 = Some (match cs_universes st !! uid with
                         | Some u => u
                         | None => new_lattice
                         end)).
  { unfold st0. destruct (cs_universes st !! uid) as [u0|] eqn:E0.
    - split; [exact Hc|]. split; [apply extends_refl | exact E0].
    - split; [|split].
      + destruct Hc as [Hu Hcl]. split; cbn [create_universe cs_universes cs_universe_ids
                                           explicit_id used_ids cs_cells cs_cell_ids].
        * rewrite dom_insert_L. intros k Hk. apply elem_of_union in Hk.
          apply elem_of_union. destruct Hk as [Hk|Hk]; [left; exact Hk | right; apply Hu; exact Hk].
        * exact Hcl.
      + unfold extends. cbn [create_universe cs_universes cs_cells cs_universe_ids
                            explicit_id next_id cs_mat cs_surfaces].
        split; [|split; [auto|split; [lia|split; reflexivity]]].
        intros k u Hk. destruct (decide (k = uid)) as [->|N]; [congruence|].
        rewrite lookup_insert_ne by congruence. exact Hk.
      + cbn [create_universe cs_universes]. apply lookup_insert_eq. }
  destruct Hst0 as (Hc0 & He0 & Hu0).
  assert (H1 : ids_consistent st1 /\ extends st0 st1).
  { unfold self_fill in Hself.
    destruct (existsb (Z.eqb uid) (arr_flat (g_univ_ids g))).
    - destruct (cs_mat st0) as [m|]; [|discriminate].
      destruct (wrap_in_universe (FillMaterial m) None st0) as [u stw] eqn:Ew.
      inversion Hself; subst a1 st1.
      destruct (wrap_in_universe_spec _ _ _ _ _ Hc0 Ew)
        as (cid & _ & _ & _ & _ & _ & _ & Hcw & Hew). auto.
    - inversion Hself; subst. split; [exact Hc0 | apply extends_refl]. }
  destruct H1 as [Hc1 He1].
  set (ctr := center (g_v0 g) (g_v1 g)) in *.
  destruct (if centered ctr then (a1, st1)
            else translate_universes (map Qopp ctr) (unique a1) a1 st1)
    as [a2 st2] eqn:E2.
  assert (H2 : ids_consistent st2 /\ extends st1 st2).
  { destruct (centered ctr).
    - inversion E2; subst. split; [exact Hc1 | apply extends_refl].
    - eapply translate_frame; eassumption. }
  destruct H2 as [Hc2 He2].
  destruct (get_universes_spec a2 st2 Hc2) as [Hc3 He3].
  inversion H; subst st' b; clear H.
  assert (He03 : extends st0 (get_universes a2 st2)).
  { eapply extends_trans; [exact He1|]. eapply extends_trans; eassumption. }
  assert (He : extends st (get_universes a2 st2)).
  { eapply extends_trans; [exact He0 | exact He03]. }
  destruct He as (Hus & Hcs & _ & Hmat & Hsurf).
  destruct He03 as (Hus0 & _).
  split; [|split; [|split; [|split; [|split]]]].
  - destruct Hc3 as [Hu Hcl]. split; cbn [set_lattice set_universes cs_universes
                                          cs_universe_ids cs_cells cs_cell_ids].
    + intros k Hk. apply Hu. apply elem_of_dom. apply elem_of_dom in Hk.
      destruct Hk as [x Hx]. destruct (decide (k = uid)) as [->|N].
      * rewrite lookup_alter_eq in Hx.
        destruct (cs_universes (get_universes a2 st2) !! uid); [eauto | discriminate].
      * rewrite lookup_alter_ne in Hx by congruence. eauto.
    + exact Hcl.
  - intros k u Hk Hu. cbn [set_lattice set_universes cs_universes].
    rewrite lookup_alter_ne by congruence. apply Hus. exact Hu.
  - cbn [set_lattice set_universes cs_universes].
    rewrite lookup_alter_eq, (Hus0 _ _ Hu0). simpl.
    destruct (cs_universes st !! uid); eexists; reflexivity.
  - intros k x Hx. cbn [set_lattice set_universes cs_cells]. apply Hcs. exact Hx.
  - cbn [set_lattice set_universes cs_surfaces]. exact Hsurf.
  - cbn [set_lattice set_universes cs_mat]. exact Hmat.
Qed.

(** X23. Building a lattice leaves the rest of the model alone: in a
    state whose ids are registered, a successful [build_lattice] keeps
    the ids registered, keeps every universe other than the cell's own
    exactly as it was, keeps the cells and the kind of the cell's own
    universe and only sets its lattice data, keeps every cell that
    existed, and does not touch the surfaces or the bound material.
    The universes and cells it creates are new ones. *)
Theorem lattice_frame (c : cell) (r : region) (st st' : conv_state) (b : bool) :
  ids_consistent st ->
  build_lattice c r st = Ok (st', b) ->
  ids_consistent st' /\
  (forall k u, universe_tag c <> Some (Ok k) ->
     cs_universes st !! k = Some u -> cs_universes st' !! k = Some u) /\
  (forall k u, universe_tag c = Some (Ok k) -> cs_universes st !! k = Some u ->
     exists d, cs_universes st' !! k
               = Some {| u_is_lattice := u_is_lattice u; u_cells := u_cells u;
                         u_lattice := Some d |}) /\
  (forall k x, cs_cells st !! k = Some x -> cs_cells st' !! k = Some x) /\
  cs_surfaces st' = cs_surfaces st /\ cs_mat st' = cs_mat st.
Proof.
  intros Hc H. destruct (build_lattice_tag _ _ _ _ _ H) as [uid Et].
  destruct (build_lattice_frame _ _ _ _ _ uid Hc Et H) as (H1 & H2 & [d H3] & H4 & H5 & H6).
  split; [exact H1|]. split; [|split; [|split; [exact H4|split; [exact H5 | exact H6]]]].
  - intros k u Hk. apply H2. intros ->. apply Hk. exact Et.
  - intros k u Hk Hu. rewrite Hk in Et. inversion Et; subst uid.
    rewrite Hu in H3. eauto.
Qed.

Lemma lattice_frame_witness :
  exists st' b,
    build_lattice self_fill_cell self_fill_region
      (set_mat self_fill_state (Some 3)) = Ok (st', b) /\
    ids_consistent st' /\ cs_universes st' !! 0 = Some new_universe.
Proof.
  destruct (build_lattice self_fill_cell self_fill_region (set_mat self_fill_state (Some 3)))
    as [[st' b]|e] eqn:E; [|vm_compute in E; discriminate E].
  assert (Hc : ids_consistent (set_mat self_fill_state (Some 3)))
    by exact self_fill_state_consistent.
  destruct (lattice_frame _ _ _ _ _ Hc E) as (H1 & H2 & _).
  exists st', b. split; [reflexivity|]. split; [exact H1|].
  apply H2; [vm_compute; discriminate | reflexivity].
Defined.

Section WithTransform.
Variable tr : string -> bool -> region -> surface_table -> result (region * surface_table).

Lemma first_pass_cell_regions (st st' : resolver_state) (c : cell) :
  first_pass_cell tr st c = Ok st' ->
  map c_id (st_cells st') = map c_id (st_cells st) ++ [c_id c] /\
  (forall k, is_Some (st_regions st !! k) -> is_Some (st_regions st' !! k)) /\
  (complement_search (c_region c) = false -> is_Some (st_regions st' !! c_id c)).
Proof.
  unfold first_pass_cell. intros H.
  destruct (complement_search (c_region c)) eqn:Es.
  - inversion H; subst st'. simpl. rewrite map_app. split; [reflexivity|].
    split; [auto | discriminate].
  - apply bind_ok in H. destruct H as (r & _ & H).
    assert (Hins : forall (r' : region) k, is_Some (st_regions st !! k) ->
                     is_Some (<[c_id c := r']> (st_regions st) !! k)).
    { intros r' k Hk. destruct (decide (c_id c = k)) as [<-|N].
      - rewrite lookup_insert_eq. eauto.
      - rewrite lookup_insert_ne by exact N. exact Hk. }
    destruct (has_key "trcl" (c_parameters c) || has_key "*trcl" (c_parameters c)).
    + destruct (negb (starts_with_paren _)); [discriminate|].
      apply bind_ok in H. destruct H as (rs & _ & H). inversion H; subst st'. simpl.
      rewrite map_app. split; [reflexivity|]. split; [apply Hins|].
      intros _. rewrite lookup_insert_eq. eauto.
    + inversion H; subst st'. simpl. rewrite map_app. split; [reflexivity|].
      split; [apply Hins|]. intros _. rewrite lookup_insert_eq. eauto.
Qed.

Lemma first_pass_regions (cells : list cell) :
  forall st st',
    first_pass tr st cells = Ok st' ->
    map c_id (st_cells st') = map c_id (st_cells st) ++ map c_id cells /\
    (forall k, is_Some (st_regions st !! k) -> is_Some (st_regions st' !! k)) /\
    (forall c, In c cells -> complement_search (c_region c) = false ->
       is_Some (st_regions st' !! c_id c)).
Proof.
  induction cells as [|c cells IH]; simpl; intros st st' H.
  - inversion H; subst. rewrite app_nil_r. split; [reflexivity|]. split; [auto | intros c []].
  - apply bind_ok in H. destruct H as (st1 & H1 & H).
    destruct (first_pass_cell_regions _ _ _ H1) as (Hk1 & Hm1 & Hc1).
    destruct (IH _ _ H) as (Hk & Hm & Hc).
    split; [rewrite Hk, Hk1, <- app_assoc; reflexivity|]. split; [auto|].
    intros c' [<-|Hin] Hs; auto.
Qed.

(** X24. The first pass splits the cells in two: started from empty
    tables on cells with distinct ids, a successful pass lists in
    [has_cell_complement] exactly the cells whose text has a cell
    complement, in input order, keeps the cells in input order, and has
    stored a region for a cell exactly when its text has no cell
    complement. *)
Theorem first_pass_partition (cells : list cell) (surfaces : surface_table)
    (st : resolver_state) :
  List.NoDup (map c_id cells) ->
  first_pass tr (first_pass_start surfaces) cells = Ok st ->
  st_has_cell_complement st
    = List.filter (fun c => complement_search (c_region c)) cells /\
  map c_id (st_cells st) = map c_id cells /\
  (forall c, In c cells ->
     (complement_search (c_region c) = false <-> is_Some (st_regions st !! c_id c))).
Proof.
  intros Hnd H.
  assert (Hinv : first_pass_inv ([] ++ cells) st).
  { eapply (first_pass_inv_all tr cells []); [|exact H].
    split; simpl; [reflexivity|]. intros k r Hk. rewrite lookup_empty in Hk. discriminate. }
  simpl in Hinv. destruct Hinv as [Hcc Hreg].
  destruct (first_pass_regions cells _ _ H) as (Hk & _ & Hc).
  split; [exact Hcc|]. split; [exact Hk|].
  intros c Hin. split; [apply Hc; exact Hin|].
  intros [r Hr]. destruct (Hreg _ _ Hr) as (c0 & Hc0 & E0 & Hs0).
  rewrite <- (unique_by_id cells c0 c Hnd Hc0 Hin E0). exact Hs0.
Qed.

End WithTransform.

Lemma first_pass_partition_witness :
  exists st,
    first_pass no_transform (first_pass_start one_surface) chain_cells = Ok st /\
    st_has_cell_complement st = [mk_cell 2 "#1"; mk_cell 3 "#2"] /\
    is_Some (st_regions st !! 1).
Proof.
  destruct (first_pass no_transform (first_pass_start one_surface) chain_cells)
    as [st|e] eqn:E; [|vm_compute in E; discriminate E].
  exists st. split; [reflexivity|].
  destruct (first_pass_partition no_transform chain_cells one_surface st) as (H1 & _ & H3).
  - repeat (apply List.NoDup_cons; [simpl; intuition discriminate|]). apply List.NoDup_nil.
  - exact E.
  - split; [exact H1|]. apply (H3 (mk_cell 1 "-1")); [simpl; auto | reflexivity].
Defined.

End RefusalProperties.

(** ** The universe tag *)

Section UniverseTagProperties.
Import Regions Resolver Universes Lattice Placement.





End UniverseTagProperties.
